(** * Iterated Prisoner's Dilemma simulator: strategies, match engine,
      rule interpreter and tournament brackets

    A shallow embedding of the core of [advanced_ipd_gui_v6.py]: the built-in
    strategy functions, the closure built by [create_custom_strategy_function],
    the [Game] class, [update_player_stats] and the bracket and ranking code of
    [IPDSimulatorV6.run_tournament].

    Conventions of the embedding.
    - A move is the Python string ['C'] or ['D']; it is an enumeration here.
    - Python [float] is IEEE binary64, which is Rocq's primitive [float]:
      probabilities, random draws and the cooperation rate are computed with
      the same operations and the same rounding as in the source.
    - Python [int] is [Z], unbounded.  Where the source mixes the two kinds
      of number the embedding does what Python does: [int / int] is the
      quotient rounded once, [float < int] compares the two numbers exactly,
      and [int / float] converts the integer first.
    - A history is a Python list in chronological order, [append] adds at the
      end and [h[-1]] is [last h].
    - [random] is the module-level generator.  Its successive results are
      read from a tape; every call consumes one cell.
    - A Python exception is the [Raise] outcome of a computation. *)

From Stdlib Require Import ZArith List String Ascii Lia Bool.
From Stdlib Require Import Floats.PrimFloat Floats.SpecFloat Floats.FloatOps.
From Stdlib Require Import Uint63.
From stdpp Require Import base gmap strings list sorting.

Open Scope Z_scope.

(* ------------------------------------------------------------------------- *)
(** ** Block 1: constants *)

Inductive Move : Type :=
| COOPERATE   (* 'C' *)
| DEFECT.     (* 'D' *)

Definition Move_eqb (a b : Move) : bool :=
  match a, b with
  | COOPERATE, COOPERATE | DEFECT, DEFECT => true
  | _, _ => false
  end.

#[global] Instance Move_eq_dec : EqDecision Move.
Proof. solve_decision. Defined.

(** [PAYOFFS[(m1, m2)]]: payoffs of the row player and of the column player. *)
Definition PAYOFFS (m1 m2 : Move) : Z * Z :=
  match m1, m2 with
  | COOPERATE, COOPERATE => (3, 3)
  | COOPERATE, DEFECT    => (0, 5)
  | DEFECT,    COOPERATE => (5, 0)
  | DEFECT,    DEFECT    => (1, 1)
  end.

(** [R, S, T, P = 3, 0, 5, 1], the standard names. *)
Module Std.
Definition R : Z := 3.
Definition S : Z := 0.
Definition T : Z := 5.
Definition P : Z := 1.
End Std.

Definition MAX_ROUNDS : Z := 1000.
Definition MAX_NOISE_FORGIVENESS : Z := 20.

(* ------------------------------------------------------------------------- *)
(** ** Computations: state and exceptions *)

(** The exceptions the embedded code can raise.  Both are subclasses of
    Python's [LookupError]. *)
Inductive exn : Type :=
| IndexError
| KeyError.

Inductive res (A : Type) : Type :=
| Ok (a : A)
| Raise (e : exn)
| OutOfFuel.   (* a bounded loop of the embedding ran out of its bound *)

Arguments Ok {A} a.
Arguments Raise {A} e.
Arguments OutOfFuel {A}.

(** A computation over a state [St]: it ends with a value or an exception,
    and the state it has reached either way. *)
Definition SE (St A : Type) : Type := St -> res A * St.

Definition ret {St A} (a : A) : SE St A := fun s => (Ok a, s).

Definition raise {St A} (e : exn) : SE St A := fun s => (Raise e, s).

Definition bind {St A B} (m : SE St A) (k : A -> SE St B) : SE St B :=
  fun s =>
    match m s with
    | (Ok a, s') => k a s'
    | (Raise e, s') => (Raise e, s')
    | (OutOfFuel, s') => (OutOfFuel, s')
    end.

Declare Scope se_scope.
Delimit Scope se_scope with se.
Notation "x <- m ;; k" := (bind m (fun x => k))
  (at level 100, m at next level, right associativity) : se_scope.
Open Scope se_scope.

(** The computation returned a value. *)
Definition returns {St A} (r : res A * St) : Prop :=
  exists a s, r = (Ok a, s).

(** The computation was aborted by an exception. *)
Definition aborts {St A} (r : res A * St) : Prop :=
  exists e s, r = (Raise e, s).

(* ------------------------------------------------------------------------- *)
(** ** The random source *)

(** One result of the generator: read as a float by [random.random()], as an
    index by [random.choice]. *)
Record draw : Type := mkDraw {
  as_float : float;
  as_index : nat
}.

Record Rng : Type := mkRng {
  tape : nat -> draw;
  pos : nat
}.

Definition next_draw : SE Rng draw :=
  fun g => (Ok (tape g (pos g)), mkRng (tape g) (Datatypes.S (pos g))).

(** [random.random()] *)
Definition random_random : SE Rng float :=
  d <- next_draw ;; ret (as_float d).

(** [random.choice(seq)]: [IndexError] on an empty sequence. *)
Definition random_choice {A} (seq : list A) : SE Rng A :=
  match seq with
  | [] => raise IndexError
  | a :: _ =>
      d <- next_draw ;;
      ret (nth (Nat.modulo (as_index d) (length seq)) seq a)
  end.

(** [random.random()] returns a float of the interval [0.0, 1.0). *)
Definition valid_draw (x : float) : bool :=
  negb (PrimFloat.ltb x 0%float) && PrimFloat.ltb x 1%float.

Definition valid_tape (t : nat -> draw) : Prop :=
  forall n, valid_draw (as_float (t n)) = true.

(** [random.random() < p] *)
Definition random_below (p : float) : SE Rng bool :=
  x <- random_random ;; ret (PrimFloat.ltb x p).

(** Python's [a and b] where [b] has an effect: [b] runs only if [a] holds. *)
Definition and_then {St} (a : bool) (b : SE St bool) : SE St bool :=
  if a then b else ret false.

(* ------------------------------------------------------------------------- *)
(** ** Block 2: strategy logic *)

Definition History : Type := list Move.

(** [h[-1]] *)
Definition getitem_last {St} (h : History) : SE St Move :=
  match last h with
  | Some m => ret m
  | None => raise IndexError
  end.

(** [h[i]] for a non-negative literal [i] *)
Definition getitem {St} (h : History) (i : nat) : SE St Move :=
  match h !! i with
  | Some m => ret m
  | None => raise IndexError
  end.

(** [h.count(m)] *)
Definition count (h : History) (m : Move) : nat :=
  length (filter (fun x => x = m) h).

(** The signature of a decision function:
    [f(my_history, opponent_history, round_number, forgiveness_prob)]. *)
Definition strategy_fn : Type :=
  History -> History -> Z -> float -> SE Rng Move.

Definition always_cooperate : strategy_fn :=
  fun my_history opponent_history round_number forgiveness_prob =>
    ret COOPERATE.

Definition always_defect : strategy_fn :=
  fun my_history opponent_history round_number forgiveness_prob =>
    ret DEFECT.

Definition tit_for_tat : strategy_fn :=
  fun my_history opponent_history round_number forgiveness_prob =>
    match last opponent_history with
    | None => ret COOPERATE
    | Some opp_last =>
        forgive <- and_then (Move_eqb opp_last DEFECT)
                            (random_below forgiveness_prob) ;;
        if forgive then ret COOPERATE else ret opp_last
    end.

Definition grudger : strategy_fn :=
  fun my_history opponent_history round_number forgiveness_prob =>
    if bool_decide (DEFECT ∈ opponent_history) then
      opp_last <- getitem_last opponent_history ;;
      forgive <- and_then (Move_eqb opp_last DEFECT)
                          (random_below forgiveness_prob) ;;
      if forgive then ret COOPERATE else ret DEFECT
    else ret COOPERATE.

Definition random_strategy : strategy_fn :=
  fun my_history opponent_history round_number forgiveness_prob =>
    random_choice [COOPERATE; DEFECT].

Definition tit_for_two_tats : strategy_fn :=
  fun my_history opponent_history round_number forgiveness_prob =>
    if (length opponent_history <? 2)%nat then ret COOPERATE
    else
      match rev opponent_history with
      | o1 :: o2 :: _ =>
          if Move_eqb o1 DEFECT && Move_eqb o2 DEFECT then
            forgive <- random_below forgiveness_prob ;;
            if forgive then ret COOPERATE else ret DEFECT
          else ret COOPERATE
      | _ => raise IndexError
      end.

Definition suspicious_tit_for_tat : strategy_fn :=
  fun my_history opponent_history round_number forgiveness_prob =>
    match last opponent_history with
    | None => ret DEFECT
    | Some opp_last =>
        forgive <- and_then (Move_eqb opp_last DEFECT)
                            (random_below forgiveness_prob) ;;
        if forgive then ret COOPERATE else ret opp_last
    end.

Definition generous_tit_for_tat_10 : strategy_fn :=
  fun my_history opponent_history round_number forgiveness_prob =>
    match last opponent_history with
    | None => ret COOPERATE
    | Some base_move =>
        (* the literal 0.10 is the double 0x1.999999999999ap-4 *)
        generous <- and_then (Move_eqb base_move DEFECT)
                             (random_below 0x1.999999999999ap-4%float) ;;
        if generous then ret COOPERATE
        else
          forgive <- and_then (Move_eqb base_move DEFECT)
                              (random_below forgiveness_prob) ;;
          if forgive then ret COOPERATE else ret base_move
    end.

Definition pavlov : strategy_fn :=
  fun my_history opponent_history round_number forgiveness_prob =>
    if round_number =? 0 then ret COOPERATE
    else
      last_my_move <- getitem_last my_history ;;
      last_opp_move <- getitem_last opponent_history ;;
      let last_payoff := fst (PAYOFFS last_my_move last_opp_move) in
      if (last_payoff =? Std.R) || (last_payoff =? Std.P) then
        forgive <- and_then (last_payoff =? Std.P)
                            (random_below forgiveness_prob) ;;
        if forgive then ret COOPERATE else ret last_my_move
      else
        ret (if Move_eqb last_my_move COOPERATE then DEFECT else COOPERATE).

Definition prober : strategy_fn :=
  fun my_history opponent_history round_number forgiveness_prob =>
    if round_number =? 0 then ret DEFECT
    else if round_number =? 1 then ret COOPERATE
    else if round_number =? 2 then ret COOPERATE
    else if (3 <=? length opponent_history)%nat then
      o1 <- getitem opponent_history 1 ;;
      o2 <- getitem opponent_history 2 ;;
      if Move_eqb o1 COOPERATE && Move_eqb o2 COOPERATE then
        match last opponent_history with
        | None => ret COOPERATE
        | Some opp_last =>
            forgive <- and_then (Move_eqb opp_last DEFECT)
                                (random_below forgiveness_prob) ;;
            if forgive then ret COOPERATE else ret opp_last
        end
      else ret DEFECT
    else ret DEFECT.

Definition majority : strategy_fn :=
  fun my_history opponent_history round_number forgiveness_prob =>
    match opponent_history with
    | [] => ret COOPERATE
    | _ =>
        let coop_count := count opponent_history COOPERATE in
        let defect_count := (length opponent_history - coop_count)%nat in
        if (defect_count <? coop_count)%nat then ret COOPERATE
        else if (coop_count <? defect_count)%nat then
          forgive <- random_below forgiveness_prob ;;
          if forgive then ret COOPERATE else ret DEFECT
        else ret COOPERATE
    end.

(* ------------------------------------------------------------------------- *)
(** ** Custom strategies: the rule set and its decision function *)

(** [rules['opp_last_move']]: a dict with an optional entry under ['C'] and an
    optional entry under ['D']. *)
Record OppLastMoveRule : Type := mkOppLastMove {
  on_C : option Move;
  on_D : option Move
}.

(** [rules['opp_coop_lt']] and [rules['round_gt']]:
    [{'value': ..., 'move': ...}].  The values are the integers of the
    dialog's spin boxes. *)
Record ThresholdRule : Type := mkThreshold {
  value : Z;
  move : Move
}.

(** The [rules] dict of a custom strategy; every key is optional. *)
Record RuleSet : Type := mkRules {
  default : option Move;
  opp_last_move : option OppLastMoveRule;
  opp_coop_lt : option ThresholdRule;
  round_gt : option ThresholdRule
}.

(** [float(n)] for an integer of any size: the nearest double, ties to
    even.  Python raises [OverflowError] from 2^1024 on, where this is an
    infinity; the integers converted in the embedded code are slider values
    of Qt, which are machine integers. *)
Definition float_of_Z (z : Z) : float :=
  SF2Prim (binary_normalize prec emax z 0 false).

(** [a / b] for two integers, [b] not zero: Python rounds the exact
    quotient once, to the nearest double, ties to even (and gives [-0.0]
    for a zero quotient of different signs).  The quotient is computed to 56
    bits at least, the last of them sticky, and rounded from there. *)
Definition int_true_div (a b : Z) : float :=
  let negate := xorb (a <? 0) (b <? 0) in
  let a' := Z.abs a in
  let b' := Z.abs b in
  if a' =? 0 then (if negate then (-0)%float else 0%float)
  else
    let k := Z.max 0 (Z.log2 b' + 56 - Z.log2 a') in
    let q := (a' * 2 ^ k) / b' in
    let sticky := if (a' * 2 ^ k) mod b' =? 0 then 0 else 1 in
    let m := 2 * q + sticky in
    SF2Prim (binary_normalize prec emax (if negate then - m else m)
                              (- k - 1) negate).

(** [x < n] for a float [x] and an integer [n]: Python compares the two
    numbers exactly, whatever the size of [n]; a NaN is below nothing. *)
Definition float_lt_int (x : float) (n : Z) : bool :=
  match Prim2SF x with
  | S754_nan => false
  | S754_infinity s => s
  | S754_zero _ => 0 <? n
  | S754_finite s m e =>
      let v := if s then Z.neg m else Z.pos m in
      if 0 <=? e then v * 2 ^ e <? n else v <? n * 2 ^ (- e)
  end.

(** [(coop_count / total_moves) * 100 if total_moves > 0 else 100] *)
Definition coop_rate (opponent_history : History) : float :=
  let coop_count := count opponent_history COOPERATE in
  let total_moves := length opponent_history in
  if (0 <? total_moves)%nat then
    PrimFloat.mul (int_true_div (Z.of_nat coop_count) (Z.of_nat total_moves))
                  100%float
  else 100%float.

(** The [if]/[elif] chain of [custom_strategy_logic]: the move it leaves in
    [move] and the flag it leaves in [rule_triggered_defection]. *)
Definition rule_chain (rules : RuleSet) (opponent_history : History)
    (round_number : Z) : Move * bool :=
  let move0 := from_option id COOPERATE (default rules) in
  match opp_last_move rules, last opponent_history with
  | Some olm, Some last_opp_move =>
      (* 'opp_last_move' in rules and opponent_history *)
      match last_opp_move, on_C olm, on_D olm with
      | COOPERATE, Some m, _ => (m, Move_eqb m DEFECT)
      | DEFECT, _, Some m => (m, Move_eqb m DEFECT)
      | _, _, _ => (move0, false)
      end
  | _, _ =>
      match opp_coop_lt rules, last opponent_history with
      | Some ocl, Some _ =>
          (* elif 'opp_coop_lt' in rules and opponent_history *)
          if float_lt_int (coop_rate opponent_history) (value ocl)
          then (move ocl, Move_eqb (move ocl) DEFECT)
          else (move0, false)
      | _, _ =>
          match round_gt rules with
          | Some rgt =>
              (* elif 'round_gt' in rules and round_number > value *)
              if value rgt <? round_number
              then (move rgt, Move_eqb (move rgt) DEFECT)
              else (move0, false)
          | None => (move0, false)
          end
      end
  end.

Definition custom_strategy_logic (rules : RuleSet) : strategy_fn :=
  fun my_history opponent_history round_number forgiveness_prob =>
    let '(mv, rule_triggered_defection) :=
      rule_chain rules opponent_history round_number in
    forgive <- and_then (Move_eqb mv DEFECT && rule_triggered_defection)
                        (random_below forgiveness_prob) ;;
    if forgive then ret COOPERATE else ret mv.

(** [create_custom_strategy_function(rules)]: the body only builds the
    closure; its callers wrap the call in [try]. *)
Definition create_custom_strategy_function (rules : RuleSet)
  : res strategy_fn :=
  Ok (custom_strategy_logic rules).

(* ------------------------------------------------------------------------- *)
(** ** The registry *)

(** An entry of [STRATEGIES].  The free-text fields ['desc'], ['pros_cons']
    and ['analogue'] are display-only and left out. *)
Record StrategyMeta : Type := mkMeta {
  name : string;
  func : strategy_fn;
  strategy_id : string;   (* the entry's 'id' *)
  is_custom : bool;
  rules : option RuleSet
}.

Definition builtin (i n : string) (f : strategy_fn) : string * StrategyMeta :=
  (i, mkMeta n f i false None).

Definition BUILT_IN_STRATEGIES_META : gmap string StrategyMeta :=
  list_to_map [
    builtin "cooperate" "Always Cooperate" always_cooperate;
    builtin "defect" "Always Defect" always_defect;
    builtin "tit_for_tat" "Tit for Tat (TFT)" tit_for_tat;
    builtin "grudger" "Grudger" grudger;
    builtin "random" "Random" random_strategy;
    builtin "tit_for_two_tats" "Tit for Two Tats" tit_for_two_tats;
    builtin "suspicious_tft" "Suspicious TFT" suspicious_tit_for_tat;
    builtin "generous_tft_10" "Generous TFT (10%)" generous_tit_for_tat_10;
    builtin "pavlov" "Pavlov (Win-Stay, Lose-Shift)" pavlov;
    builtin "prober" "Prober" prober;
    builtin "majority" "Majority" majority
  ].

(** A JSON object of the persisted custom-strategy file: ['name'] and
    ['rules'] may be missing.  The embedding covers the objects the
    application writes: a name that is a string, and rules whose moves are
    ['C'] or ['D'] and whose thresholds are integers. *)
Record CustomDef : Type := mkCustomDef {
  def_name : option string;
  def_rules : option RuleSet
}.

(** A value of the file's top-level object, by what the loader's loop does
    with it. *)
Inductive FileValue : Type :=
| JScalar                  (* a number, true, false or null *)
| JSequence                (* a string or a list *)
| JObject (data : CustomDef).

(** The globals [STRATEGIES] and [CUSTOM_STRATEGIES]. *)
Record Registry : Type := mkRegistry {
  STRATEGIES : gmap string StrategyMeta;
  CUSTOM_STRATEGIES : gmap string StrategyMeta
}.

(** The body of the loop of [load_custom_strategies] for one item. *)
Definition load_custom_entry (reg : Registry) (item : string * CustomDef)
  : Registry :=
  let '(strat_id, data) := item in
  match def_rules data, def_name data with
  | Some rs, Some nm =>
      match create_custom_strategy_function rs with
      | Ok strategy_func =>
          let full_data := mkMeta nm strategy_func strat_id true (Some rs) in
          mkRegistry (<[strat_id := full_data]> (STRATEGIES reg))
                     (<[strat_id := full_data]> (CUSTOM_STRATEGIES reg))
      | _ => reg   (* except Exception as e_create: print and go on *)
      end
  | _, _ => reg    (* missing 'rules' or 'name': skipped *)
  end.

(** [for strat_id, data in loaded_custom_defs.items()]; [None] when an
    item raises outside the inner [try].
    - On a number, [true], [false] or [null] the test ['rules' not in data]
      raises [TypeError].
    - On a string or a list the test is evaluated; where it finds both
      words, [data['rules']] raises inside the inner [try]: the item is
      skipped either way. *)
Fixpoint load_items (items : list (string * FileValue)) (reg : Registry)
  : option Registry :=
  match items with
  | [] => Some reg
  | (strat_id, JScalar) :: _ => None
  | (strat_id, JSequence) :: rest => load_items rest reg
  | (strat_id, JObject data) :: rest =>
      load_items rest (load_custom_entry reg (strat_id, data))
  end.

(** [load_custom_strategies] once the file has been parsed into
    [loaded_custom_defs]: start from the built-ins, then add every valid
    item; when an item raises, [except Exception] resets both tables to the
    built-ins.  A file that is missing, cannot be parsed or does not hold an
    object leaves the built-ins as well, like the empty object. *)
Definition load_custom_strategies
    (loaded_custom_defs : list (string * FileValue)) : Registry :=
  match load_items loaded_custom_defs
                   (mkRegistry BUILT_IN_STRATEGIES_META ∅) with
  | Some reg => reg
  | None => mkRegistry BUILT_IN_STRATEGIES_META ∅
  end.

(* ------------------------------------------------------------------------- *)
(** ** Block 3: the [Game] class *)

Record Game : Type := mkGame {
  strategy1_id : string;
  strategy2_id : string;
  num_rounds : Z;
  noise_prob : float;
  forgiveness_prob : float;
  history1 : History;
  history2 : History;
  score1 : Z;
  score2 : Z;
  strategy1_func : strategy_fn;
  strategy2_func : strategy_fn;
  strategy1_name : string;
  strategy2_name : string
}.

(** [STRATEGIES.get(sid, {}).get('func', lambda *args: COOPERATE)] *)
Definition func_or_dummy (registry : gmap string StrategyMeta) (sid : string)
  : strategy_fn :=
  match registry !! sid with
  | Some meta => func meta
  | None => fun _ _ _ _ => ret COOPERATE
  end.

(** [STRATEGIES.get(sid, {}).get('name', sid)] *)
Definition name_or_id (registry : gmap string StrategyMeta) (sid : string)
  : string :=
  match registry !! sid with
  | Some meta => name meta
  | None => sid
  end.

(** [Game.__init__] *)
Definition Game_init (registry : gmap string StrategyMeta)
    (strategy1_id strategy2_id : string) (num_rounds : Z)
    (noise_prob forgiveness_prob : float) : Game :=
  {| strategy1_id := strategy1_id;
     strategy2_id := strategy2_id;
     num_rounds := num_rounds;
     noise_prob := noise_prob;
     forgiveness_prob := forgiveness_prob;
     history1 := [];
     history2 := [];
     score1 := 0;
     score2 := 0;
     strategy1_func := func_or_dummy registry strategy1_id;
     strategy2_func := func_or_dummy registry strategy2_id;
     strategy1_name := name_or_id registry strategy1_id;
     strategy2_name := name_or_id registry strategy2_id |}.

(** [COOPERATE if m == DEFECT else DEFECT] *)
Definition invert (m : Move) : Move :=
  if Move_eqb m DEFECT then COOPERATE else DEFECT.

(** The game after the assignments of one round. *)
Definition record_round (g : Game) (move1_actual move2_actual : Move) : Game :=
  let '(payoff1, payoff2) := PAYOFFS move1_actual move2_actual in
  {| strategy1_id := strategy1_id g;
     strategy2_id := strategy2_id g;
     num_rounds := num_rounds g;
     noise_prob := noise_prob g;
     forgiveness_prob := forgiveness_prob g;
     history1 := history1 g ++ [move1_actual];
     history2 := history2 g ++ [move2_actual];
     score1 := score1 g + payoff1;
     score2 := score2 g + payoff2;
     strategy1_func := strategy1_func g;
     strategy2_func := strategy2_func g;
     strategy1_name := strategy1_name g;
     strategy2_name := strategy2_name g |}.

(** [Game.play_round]: the updated game and the returned tuple
    [(move1_actual, move2_actual, payoff1, payoff2)]. *)
Definition play_round (g : Game) (round_number : Z)
  : SE Rng (Game * (Move * Move * Z * Z)) :=
  move1_intended <- strategy1_func g (history1 g) (history2 g) round_number
                                   (forgiveness_prob g) ;;
  move2_intended <- strategy2_func g (history2 g) (history1 g) round_number
                                   (forgiveness_prob g) ;;
  flip1 <- random_below (noise_prob g) ;;
  let move1_actual := if flip1 then invert move1_intended else move1_intended in
  flip2 <- random_below (noise_prob g) ;;
  let move2_actual := if flip2 then invert move2_intended else move2_intended in
  ret (record_round g move1_actual move2_actual,
       (move1_actual, move2_actual,
        fst (PAYOFFS move1_actual move2_actual),
        snd (PAYOFFS move1_actual move2_actual))).

(** Successive [play_round] calls with the given round numbers. *)
Fixpoint play_rounds (g : Game) (round_numbers : list Z) : SE Rng Game :=
  match round_numbers with
  | [] => ret g
  | r :: rs => out <- play_round g r ;; play_rounds (fst out) rs
  end.

Definition Move_char (m : Move) : ascii :=
  match m with COOPERATE => "C"%char | DEFECT => "D"%char end.

(** ["".join(history)] *)
Definition join (h : History) : string :=
  string_of_list_ascii (map Move_char h).

(** [Game.run_game]: the game it leaves and the returned tuple. *)
Definition run_game (g : Game) : SE Rng (Game * (Z * Z * string * string)) :=
  g' <- play_rounds g (seqZ 0 (num_rounds g)) ;;
  ret (g', (score1 g', score2 g', join (history1 g'), join (history2 g'))).

(** [Game.get_round_data]; [None] stands for [(None, None, None, None)].
    The two histories always have the same length, so [history2] has an
    entry wherever [history1] has one. *)
Definition get_round_data (g : Game) (round_num : Z)
  : option (Move * Move * Z * Z) :=
  if (0 <=? round_num) && (round_num <? Z.of_nat (length (history1 g))) then
    match history1 g !! Z.to_nat round_num, history2 g !! Z.to_nat round_num with
    | Some m1, Some m2 =>
        Some (m1, m2, fst (PAYOFFS m1 m2), snd (PAYOFFS m1 m2))
    | _, _ => None
    end
  else None.

(** [Game.get_current_state] *)
Definition get_current_state (g : Game)
  : Z * Z * option Move * option Move * nat :=
  (score1 g, score2 g, last (history1 g), last (history2 g),
   length (history1 g)).

(** [Game(...)] followed by [run_game()], as every tournament match does. *)
Definition play_match (registry : gmap string StrategyMeta)
    (p1_id p2_id : string) (rounds_per_game : Z)
    (global_noise global_forgiveness : float)
  : SE Rng (Game * (Z * Z * string * string)) :=
  run_game (Game_init registry p1_id p2_id rounds_per_game
                      global_noise global_forgiveness).

(* ------------------------------------------------------------------------- *)
(** ** Player statistics *)

Record StatRecord : Type := mkStat {
  wins : Z;
  losses : Z;
  draws : Z;
  total_score : Z;
  games_played : Z
}.

Definition zero_stat : StatRecord := mkStat 0 0 0 0 0.

(** [pid.startswith("manual_")] *)
Definition is_manual (pid : string) : bool := String.prefix "manual_" pid.

(** The body of the loop of [update_player_stats] for one player. *)
Definition update_one (registry : gmap string StrategyMeta)
    (stats : gmap string StatRecord) (pid : string) (score opp_score : Z)
  : gmap string StatRecord :=
  if is_manual pid then stats
  else if bool_decide (registry !! pid = None) then stats
  else
    let s := from_option (fun x => x) zero_stat (stats !! pid) in
    <[pid := {| wins := if opp_score <? score then wins s + 1 else wins s;
                losses := if opp_score <? score then losses s
                          else if score <? opp_score then losses s + 1
                          else losses s;
                draws := if opp_score <? score then draws s
                         else if score <? opp_score then draws s
                         else draws s + 1;
                total_score := total_score s + score;
                games_played := games_played s + 1 |}]> stats.

(** [update_player_stats(p1_id, p2_id, score1, score2)] *)
Definition update_player_stats (registry : gmap string StrategyMeta)
    (stats : gmap string StatRecord) (p1_id p2_id : string) (s1 s2 : Z)
  : gmap string StatRecord :=
  update_one registry (update_one registry stats p1_id s1 s2) p2_id s2 s1.

(* ------------------------------------------------------------------------- *)
(** ** Python list helpers used by the tournament code *)

Section PyList.
Context {A : Type}.

(** [l[::2]] *)
Fixpoint every_other (l : list A) : list A :=
  match l with
  | [] => []
  | a :: t => a :: match t with
                   | [] => []
                   | _ :: t' => every_other t'
                   end
  end.

(** [list(zip(l[::2], l[1::2]))] *)
Definition consecutive_pairs (l : list A) : list (A * A) :=
  combine (every_other l) (every_other (tail l)).

(** [list(itertools.combinations(l, 2))] *)
Fixpoint combinations2 (l : list A) : list (A * A) :=
  match l with
  | [] => []
  | x :: t => map (pair x) t ++ combinations2 t
  end.

(** [l[:n]] *)
Definition slice_to (n : Z) (l : list A) : list A :=
  if 0 <=? n then take (Z.to_nat n) l
  else take (length l - Z.to_nat (- n)) l.

(** A stable sort: [before y x] says that [y] must come strictly before
    [x]; elements that neither relation orders keep their input order.
    Python's [sorted] and [list.sort] are stable, also under
    [reverse=True], so they compute this list. *)
Variable before : A -> A -> bool.

Fixpoint insert_sorted (x : A) (l : list A) : list A :=
  match l with
  | [] => [x]
  | y :: t => if before y x then y :: insert_sorted x t else x :: y :: t
  end.

Definition stable_sort (l : list A) : list A :=
  foldr insert_sorted [] l.
End PyList.

(** [sorted(l, key=key)] and [sorted(l, key=key, reverse=True)] for a key
    type with the strict order [lt]. *)
Definition sorted_by {A K} (lt : K -> K -> bool) (key : A -> K)
    (reverse : bool) (l : list A) : list A :=
  if reverse then stable_sort (fun y x => lt (key x) (key y)) l
  else stable_sort (fun y x => lt (key y) (key x)) l.

(** [<] on Python tuples [(int, str)]: lexicographic. *)
Definition tuple_lt (a b : Z * string) : bool :=
  (fst a <? fst b) || ((fst a =? fst b) && String.ltb (snd a) (snd b)).

(** A loop [for x in l: ...] whose body updates the loop's variables. *)
Fixpoint for_each {St V X} (body : V -> X -> SE St V) (l : list X) (v : V)
  : SE St V :=
  match l with
  | [] => ret v
  | x :: t => v' <- body v x ;; for_each body t v'
  end.

(** [d[k] = f(d[k])] on a plain dict: [KeyError] when [k] is missing. *)
Definition dict_update {St V} (d : gmap string V) (k : string) (f : V -> V)
  : SE St (gmap string V) :=
  match d !! k with
  | Some v => ret (<[k := f v]> d)
  | None => raise KeyError
  end.

(** [d[k] += n] on a [defaultdict(int)]. *)
Definition dd_add (d : gmap string Z) (k : string) (n : Z) : gmap string Z :=
  <[k := from_option (fun x => x) 0 (d !! k) + n]> d.

(* ------------------------------------------------------------------------- *)
(** ** Tournaments *)

(** The process state a tournament works on: the generator and the global
    [PLAYER_STATS]. *)
Record World : Type := mkWorld {
  rng : Rng;
  PLAYER_STATS : gmap string StatRecord
}.

Definition lift_rng {A} (m : SE Rng A) : SE World A :=
  fun w => let '(r, g) := m (rng w) in (r, mkWorld g (PLAYER_STATS w)).

Definition modify_stats (f : gmap string StatRecord -> gmap string StatRecord)
  : SE World unit :=
  fun w => (Ok tt, mkWorld (rng w) (f (PLAYER_STATS w))).

Definition out_of_fuel {St A} : SE St A := fun s => (OutOfFuel, s).

(** An item of [all_matches_data]. *)
Record MatchData : Type := mkMatchData {
  md_sim_type : string;
  md_p1_id : string;
  md_p2_id : string;
  md_score1 : Z;
  md_score2 : Z;
  md_hist1 : string;
  md_hist2 : string
}.

(** ['elim_round'] starts as [float('inf')] and becomes a round number. *)
Inductive ElimRound : Type :=
| Inf
| Round (n : Z).

(** A value of [full_ranking_data]. *)
Record RankEntry : Type := mkRank {
  score : Z;
  games : Z;
  elim_round : ElimRound
}.

Definition add_game (s : Z) (e : RankEntry) : RankEntry :=
  mkRank (score e + s) (games e + 1) (elim_round e).

Definition set_elim_round (r : Z) (e : RankEntry) : RankEntry :=
  mkRank (score e) (games e) (Round r).

(** The variables the bracket loop of the Elimination format updates. *)
Record ElimVars : Type := mkElimVars {
  next_round : list string;
  eliminated_this_round : list string;
  full_ranking_data : gmap string RankEntry;
  all_matches_data : list MatchData
}.

Section Tournament.
Variable registry : gmap string StrategyMeta.
Variable rounds_per_game : Z.
Variables global_noise global_forgiveness : float.

(** The body of [for p1_id, p2_id in matchups] *)
Definition elimination_match (round_num : Z) (v : ElimVars)
    (pair : string * string) : SE World ElimVars :=
  let '(p1_id, p2_id) := pair in
  out <- lift_rng (play_match registry p1_id p2_id rounds_per_game
                              global_noise global_forgiveness) ;;
  let '(s1, s2, h1, h2) := snd out in
  d1 <- dict_update (full_ranking_data v) p1_id (add_game s1) ;;
  d2 <- dict_update d1 p2_id (add_game s2) ;;
  _ <- modify_stats (fun st => update_player_stats registry st p1_id p2_id s1 s2) ;;
  let log := all_matches_data v ++
             [mkMatchData "Tournament Elimination" p1_id p2_id s1 s2 h1 h2] in
  let winner := if s2 <=? s1 then p1_id else p2_id in   (* P1 wins ties *)
  let loser := if String.eqb winner p1_id then p2_id else p1_id in
  d3 <- dict_update d2 loser (set_elim_round round_num) ;;
  ret {| next_round := next_round v ++ [winner];
         eliminated_this_round := eliminated_this_round v ++ [loser];
         full_ranking_data := d3;
         all_matches_data := log |}.

(** The state of the [while] loop between two iterations; [status_log]
    collects the status-bar messages
    ["Elimination Round {round_num} ({n} players)"], one per iteration. *)
Record LoopState : Type := mkLoop {
  current_round_participants : list string;
  round_num : Z;
  ranking : gmap string RankEntry;
  matches : list MatchData;
  status_log : list (Z * nat)
}.

(** One iteration of [while len(current_round_participants) > 1]. *)
Definition elimination_round (s : LoopState) : SE World LoopState :=
  let cur := current_round_participants s in
  let status := status_log s ++ [(round_num s, length cur)] in
  let '(next0, cur') :=
    if negb (Nat.eqb (length cur mod 2) 0) then
      (* bye_player = current_round_participants.pop(0) *)
      match cur with
      | bye_player :: rest => ([bye_player], rest)
      | [] => ([], [])
      end
    else ([], cur) in
  v <- for_each (elimination_match (round_num s)) (consecutive_pairs cur')
         {| next_round := next0;
            eliminated_this_round := [];
            full_ranking_data := ranking s;
            all_matches_data := matches s |} ;;
  ret {| current_round_participants := next_round v;
         round_num := round_num s + 1;
         ranking := full_ranking_data v;
         matches := all_matches_data v;
         status_log := status |}.

(** The [while] loop, bounded by [fuel] iterations. *)
Fixpoint elimination_loop (fuel : nat) (s : LoopState) : SE World LoopState :=
  if (length (current_round_participants s) <=? 1)%nat then ret s
  else
    match fuel with
    | O => out_of_fuel
    | Datatypes.S fuel' =>
        s' <- elimination_round s ;; elimination_loop fuel' s'
    end.

(** What the Elimination branch leaves behind. *)
Record EliminationResult : Type := mkElimResult {
  winner_id : option string;
  final_state : LoopState
}.

(** The Elimination branch of [run_tournament], from the initial bracket
    to the winner's entry; the standings list it builds afterwards from
    [full_ranking_data] is not part of the embedding.  The loop is given as
    many iterations as there are participants. *)
Definition run_elimination (participants : list string)
  : SE World EliminationResult :=
  let full_ranking_data0 : gmap string RankEntry :=
    list_to_map (map (fun p_id => (p_id, mkRank 0 0 Inf)) participants) in
  s <- elimination_loop (length participants)
         {| current_round_participants := participants;
            round_num := 1;
            ranking := full_ranking_data0;
            matches := [];
            status_log := [] |} ;;
  let winner_id := head (current_round_participants s) in
  match winner_id with
  | Some w =>
      if String.eqb w "" then ret (mkElimResult winner_id s)  (* falsy id *)
      else
        d <- dict_update (ranking s) w (set_elim_round (round_num s)) ;;
        ret (mkElimResult winner_id
               (mkLoop (current_round_participants s) (round_num s) d
                       (matches s) (status_log s)))
  | None => ret (mkElimResult None s)
  end.

(** The seeding key: [STRATEGIES.get(p_id, {}).get('name', 'zzzz')] *)
Definition seeding_key (p_id : string) : string :=
  match registry !! p_id with
  | Some meta => name meta
  | None => "zzzz"
  end.

(** How [run_tournament] ends for the Elimination format. *)
Inductive Outcome : Type :=
| SetupError (msg : string)          (* warning box, nothing is run *)
| Finished (r : EliminationResult).

(** [run_tournament] with [tourn_type == "Elimination"]. *)
Definition run_tournament_elimination (participants : list string)
    (use_seeding : bool) : SE World Outcome :=
  if (length participants <? 2)%nat then ret (SetupError "Need >= 2 participants.")
  else
    let participants :=
      if use_seeding then sorted_by String.ltb seeding_key false participants
      else participants in
    r <- run_elimination participants ;;
    ret (Finished r).

(** *** Group stage: ranking and qualifiers of one group *)

(** The sort key of the group ranking:
    [(group_stage_scores.get(x, 0), STRATEGIES.get(x, {}).get('name', ''))] *)
Definition group_key (group_stage_scores : gmap string Z) (x : string)
  : Z * string :=
  (from_option (fun s => s) 0 (group_stage_scores !! x),
   match registry !! x with
   | Some meta => name meta
   | None => ""
   end).

(** [group_ranked = sorted(group, key=..., reverse=True)] *)
Definition group_ranked (group_stage_scores : gmap string Z)
    (group : list string) : list string :=
  sorted_by tuple_lt (group_key group_stage_scores) true group.

(** [group_qualifiers = group_ranked[:num_qualifiers]] *)
Definition group_qualifiers (group_stage_scores : gmap string Z)
    (num_qualifiers : Z) (group : list string) : list string :=
  slice_to num_qualifiers (group_ranked group_stage_scores group).

(** The score tables the group stage fills. *)
Record GroupVars : Type := mkGroupVars {
  group_stage_scores : gmap string Z;
  group_stage_games : gmap string Z;
  tournament_scores : gmap string Z;
  tourn_games_played : gmap string Z;
  group_matches : list MatchData
}.

(** The body of the loop over a group's matchups. *)
Definition group_match (v : GroupVars) (pair : string * string)
  : SE World GroupVars :=
  let '(p1_id, p2_id) := pair in
  out <- lift_rng (play_match registry p1_id p2_id rounds_per_game
                              global_noise global_forgiveness) ;;
  let '(s1, s2, h1, h2) := snd out in
  _ <- modify_stats (fun st => update_player_stats registry st p1_id p2_id s1 s2) ;;
  ret {| group_stage_scores :=
           dd_add (dd_add (group_stage_scores v) p1_id s1) p2_id s2;
         group_stage_games :=
           dd_add (dd_add (group_stage_games v) p1_id 1) p2_id 1;
         tournament_scores :=
           dd_add (dd_add (tournament_scores v) p1_id s1) p2_id s2;
         tourn_games_played :=
           dd_add (dd_add (tourn_games_played v) p1_id 1) p2_id 1;
         group_matches := group_matches v ++
           [mkMatchData "Tournament Group Stage" p1_id p2_id s1 s2 h1 h2] |}.

(** One non-empty group of the group stage: its round robin, then its
    qualifiers.  Returns the updated tables and the group's qualifiers. *)
Definition run_group (num_qualifiers : Z) (v : GroupVars)
    (group : list string) : SE World (GroupVars * list string) :=
  v' <- for_each group_match (combinations2 group) v ;;
  ret (v', group_qualifiers (group_stage_scores v') num_qualifiers group).
End Tournament.

(* ------------------------------------------------------------------------- *)
(** ** Notions used to state the properties *)

(** The rule set with ['default'] set to [m]. *)
Definition with_default (m : Move) (rs : RuleSet) : RuleSet :=
  mkRules (Some m) (opp_last_move rs) (opp_coop_lt rs) (round_gt rs).

(** The rule set with the cooperation-rate rule and the round rule removed. *)
Definition only_last_move_rule (rs : RuleSet) : RuleSet :=
  mkRules (default rs) (opp_last_move rs) None None.

(** The conditions of the three rule kinds, as the specification words them. *)

(** Rule 1 matches: the opponent has moved and the rule defines a target for
    the opponent's last move. *)
Definition last_move_rule (rs : RuleSet) (opponent_history : History)
  : option Move :=
  match opp_last_move rs, last opponent_history with
  | Some olm, Some COOPERATE => on_C olm
  | Some olm, Some DEFECT => on_D olm
  | _, _ => None
  end.

(** Rule 2 matches: the opponent has moved and its cooperation rate over its
    whole history is below the threshold. *)
Definition coop_rate_rule (rs : RuleSet) (opponent_history : History)
  : option Move :=
  match opp_coop_lt rs, opponent_history with
  | Some ocl, _ :: _ =>
      if float_lt_int (coop_rate opponent_history) (value ocl)
      then Some (move ocl) else None
  | _, _ => None
  end.

(** Rule 3 matches: the round number is greater than the threshold. *)
Definition round_rule (rs : RuleSet) (round_number : Z) : option Move :=
  match round_gt rs with
  | Some rgt => if value rgt <? round_number then Some (move rgt) else None
  | None => None
  end.

(** Strict priority, first match wins: the move of the first rule that
    matches, [None] when no rule matches and the default is to be used. *)
Definition first_match (rs : RuleSet) (opponent_history : History)
    (round_number : Z) : option Move :=
  match last_move_rule rs opponent_history with
  | Some m => Some m
  | None =>
      match coop_rate_rule rs opponent_history with
      | Some m => Some m
      | None => round_rule rs round_number
      end
  end.

(** A computation that returns a value from every state. *)
Definition always_returns {St A} (m : SE St A) : Prop :=
  forall s, returns (m s).

(** A decision function that returns a move whenever it is called the way
    [run_game] calls it: both histories as long as the round number. *)
Definition game_safe (f : strategy_fn) : Prop :=
  forall my_history opponent_history forgiveness_prob g,
    length my_history = length opponent_history ->
    returns (f my_history opponent_history
               (Z.of_nat (length my_history)) forgiveness_prob g).

Definition registry_game_safe (registry : gmap string StrategyMeta) : Prop :=
  forall sid meta, registry !! sid = Some meta -> game_safe (func meta).

(** The payoffs of the recorded rounds, from [PAYOFFS]. *)
Definition recorded_payoffs (h1 h2 : History) : list (Z * Z) :=
  zip_with PAYOFFS h1 h2.

Definition sumZ (l : list Z) : Z := foldr Z.add 0 l.

(** The order the group ranking is sorted by: a higher score first, and
    among equal scores the greater name first. *)
Definition ranks_before (registry : gmap string StrategyMeta)
    (scores : gmap string Z) (a b : string) : Prop :=
  let ka := group_key registry scores a in
  let kb := group_key registry scores b in
  fst kb < fst ka \/ (fst ka = fst kb /\ String.le (snd kb) (snd ka)).

(** The fields of a game that [play_round] never assigns. *)
Definition same_setup (g g' : Game) : Prop :=
  strategy1_id g' = strategy1_id g /\
  strategy2_id g' = strategy2_id g /\
  num_rounds g' = num_rounds g /\
  noise_prob g' = noise_prob g /\
  forgiveness_prob g' = forgiveness_prob g /\
  strategy1_func g' = strategy1_func g /\
  strategy2_func g' = strategy2_func g /\
  strategy1_name g' = strategy1_name g /\
  strategy2_name g' = strategy2_name g.

(** What holds of a game after [k] recorded rounds. *)
Definition rounds_recorded (k : nat) (g : Game) : Prop :=
  length (history1 g) = k /\
  length (history2 g) = k /\
  score1 g = sumZ (map fst (recorded_payoffs (history1 g) (history2 g))) /\
  score2 g = sumZ (map snd (recorded_payoffs (history1 g) (history2 g))).

(** Concrete inputs used in the examples. *)
Definition half_tape : nat -> draw := fun _ => mkDraw 0.5%float 0.
Definition zero_tape : nat -> draw := fun _ => mkDraw 0%float 0.
Definition rng0 : Rng := mkRng half_tape 0.
Definition world0 : World := mkWorld rng0 ∅.

(** "If Opp Last C -> C", nothing for D, "If Opp Coop Rate < 50% -> D",
    default C: a rule set the dialog can produce. *)
Definition partial_rules : RuleSet :=
  mkRules (Some COOPERATE)
          (Some (mkOppLastMove (Some COOPERATE) None))
          (Some (mkThreshold 50 DEFECT))
          None.

(** The score tables before the group stage. *)
Definition no_scores : GroupVars := mkGroupVars ∅ ∅ ∅ ∅ [].

(** A rule set with no key at all, not even ['default']. *)
Definition empty_rules : RuleSet := mkRules None None None None.

(** "If Round # > 5 -> C", default D. *)
Definition late_rules : RuleSet :=
  mkRules (Some DEFECT) None None (Some (mkThreshold 5 COOPERATE)).

(* ------------------------------------------------------------------------- *)
(** ** Settings *)

(** The sliders of the settings tab range over [0 .. slider_max]. *)
Definition slider_max : Z := MAX_NOISE_FORGIVENESS * 100.

(** [update_noise_setting] and [update_forgiveness_setting] store
    [value / 10000.0]. *)
Definition update_noise_setting (value : Z) : float :=
  PrimFloat.div (float_of_Z value) 10000%float.

Definition update_forgiveness_setting (value : Z) : float :=
  PrimFloat.div (float_of_Z value) 10000%float.

(* ------------------------------------------------------------------------- *)
(** ** Further notions used to state properties *)

(** A decision function that cooperates, and leaves the generator's tape in
    place, whenever the opponent has never defected and it is called as in a
    game. *)
Definition nice (f : strategy_fn) : Prop :=
  forall my_history opponent_history forgiveness_prob g,
    DEFECT ∉ opponent_history ->
    length my_history = length opponent_history ->
    exists n,
      f my_history opponent_history (Z.of_nat (length my_history))
        forgiveness_prob g
      = (Ok COOPERATE, mkRng (tape g) n).

(** A decision function that cooperates without consuming a draw, whenever
    the opponent has never defected and it is called as in a game. *)
Definition cooperates_without_draw (f : strategy_fn) : Prop :=
  forall my_history opponent_history forgiveness_prob g,
    DEFECT ∉ opponent_history ->
    length my_history = length opponent_history ->
    f my_history opponent_history (Z.of_nat (length my_history))
      forgiveness_prob g
    = (Ok COOPERATE, g).

(** "If Opp Last C -> C", "If Opp Last D -> D", with the given default. *)
Definition mirror_rules (first : Move) : RuleSet :=
  mkRules (Some first)
          (Some (mkOppLastMove (Some COOPERATE) (Some DEFECT)))
          None None.

(** The record of [pid] in [PLAYER_STATS], all zero when there is none. *)
Definition stat_of (stats : gmap string StatRecord) (pid : string)
  : StatRecord :=
  from_option (fun s => s) zero_stat (stats !! pid).

(** Every game of a record is a win, a loss or a draw. *)
Definition stat_consistent (s : StatRecord) : Prop :=
  games_played s = wins s + losses s + draws s.

(** An id [update_player_stats] keeps statistics for. *)
Definition counted (registry : gmap string StrategyMeta) (pid : string)
  : Prop :=
  is_manual pid = false /\ is_Some (registry !! pid).


(** An item of the custom-strategy file that [load_custom_strategies]
    registers: an object that has both ['rules'] and ['name']. *)
Definition valid_item (item : string * FileValue) : bool :=
  match snd item with
  | JObject data =>
      match def_rules data, def_name data with
      | Some _, Some _ => true
      | _, _ => false
      end
  | _ => false
  end.

(** What holds of every entry of [CUSTOM_STRATEGIES]. *)
Definition custom_entries_registered (reg : Registry) : Prop :=
  forall sid meta, CUSTOM_STRATEGIES reg !! sid = Some meta ->
    STRATEGIES reg !! sid = Some meta /\ is_custom meta = true /\
    strategy_id meta = sid /\
    exists rs, rules meta = Some rs /\ func meta = custom_strategy_logic rs.

(** An item on which the loader's test raises. *)
Definition is_scalar (item : string * FileValue) : bool :=
  match snd item with
  | JScalar => true
  | _ => false
  end.

(** A probability the settings sliders can produce: not below 0, not above
    the value of the slider's maximum, and below 1. *)
Definition slider_probability (p : float) : bool :=
  negb (PrimFloat.ltb p 0%float)
  && PrimFloat.leb p (update_noise_setting slider_max)
  && PrimFloat.ltb p 1%float.


(* ------------------------------------------------------------------------- *)
(** ** The Round Robin format *)

(** [d[k] += n] on a [defaultdict(int)] whose order of insertion is used
    later: a new key goes to the end. *)
Fixpoint od_add (d : list (string * Z)) (k : string) (n : Z)
  : list (string * Z) :=
  match d with
  | [] => [(k, 0 + n)]
  | (k', v) :: t =>
      if String.eqb k' k then (k', v + n) :: t else (k', v) :: od_add t k n
  end.

(** [d.get(k, 0)] on such a dict. *)
Fixpoint od_get (d : list (string * Z)) (k : string) : Z :=
  match d with
  | [] => 0
  | (k', v) :: t => if String.eqb k' k then v else od_get t k
  end.

(** The tables the Round Robin branch fills. *)
Record RRVars : Type := mkRRVars {
  rr_scores : list (string * Z);     (* tournament_scores *)
  rr_games : gmap string Z;          (* games_played *)
  rr_matches : list MatchData        (* all_matches_data *)
}.

(** An item of [final_standings]. *)
Record Standing : Type := mkStanding {
  rank : Z;
  st_id : string;
  st_name : string;
  st_score : Z;
  st_games : Z;
  avg_score : float
}.

(** What the Round Robin branch leaves behind. *)
Record RoundRobinResult : Type := mkRRResult {
  rr_winner_id : option string;
  rr_ranked : list (string * Z);
  rr_final_standings : list Standing;
  rr_vars : RRVars
}.

Inductive RoundRobinOutcome : Type :=
| RRSetupError (msg : string)
| RRFinished (r : RoundRobinResult).

Section RoundRobin.
Variable registry : gmap string StrategyMeta.
Variable rounds_per_game : Z.
Variables global_noise global_forgiveness : float.

(** The body of [for i, (p1_id, p2_id) in enumerate(matchups)] *)
Definition round_robin_match (v : RRVars) (pair : string * string)
  : SE World RRVars :=
  let '(p1_id, p2_id) := pair in
  out <- lift_rng (play_match registry p1_id p2_id rounds_per_game
                              global_noise global_forgiveness) ;;
  let '(s1, s2, h1, h2) := snd out in
  _ <- modify_stats (fun st => update_player_stats registry st p1_id p2_id s1 s2) ;;
  ret {| rr_scores := od_add (od_add (rr_scores v) p1_id s1) p2_id s2;
         rr_games := dd_add (dd_add (rr_games v) p1_id 1) p2_id 1;
         rr_matches := rr_matches v ++
           [mkMatchData "Tournament Round Robin" p1_id p2_id s1 s2 h1 h2] |}.

(** One item of [final_standings], from its position in [ranked]:
    [avg_score] is [sc / games_played.get(p, 1)] when the player has
    played, else [0]. *)
Definition standing_of (games : gmap string Z) (i : nat)
    (item : string * Z) : Standing :=
  let '(p, sc) := item in
  {| rank := Z.of_nat i + 1;
     st_id := p;
     st_name := name_or_id registry p;
     st_score := sc;
     st_games := from_option (fun x => x) 0 (games !! p);
     avg_score :=
       if 0 <? from_option (fun x => x) 0 (games !! p)
       then int_true_div sc (from_option (fun x => x) 1 (games !! p))
       else 0%float |}.

(** The Round Robin branch of [run_tournament]. *)
Definition run_round_robin (participants : list string)
  : SE World RoundRobinResult :=
  v <- for_each round_robin_match (combinations2 participants)
         (mkRRVars [] ∅ []) ;;
  let ranked := sorted_by Z.ltb snd true (rr_scores v) in
  ret {| rr_winner_id := fst <$> head ranked;
         rr_ranked := ranked;
         rr_final_standings := imap (standing_of (rr_games v)) ranked;
         rr_vars := v |}.

(** [run_tournament] with [tourn_type == "Round Robin"]; the seeding box is
    hidden for this format, so the participants keep their order. *)
Definition run_tournament_round_robin (participants : list string)
  : SE World RoundRobinOutcome :=
  if (length participants <? 2)%nat
  then ret (RRSetupError "Need >= 2 participants.")
  else r <- run_round_robin participants ;; ret (RRFinished r).
End RoundRobin.

(** The score and the number of games the match log holds for a player. *)
Definition logged_score (p : string) (log : list MatchData) : Z :=
  sumZ (map (fun md =>
               (if String.eqb (md_p1_id md) p then md_score1 md else 0)
               + (if String.eqb (md_p2_id md) p then md_score2 md else 0))
            log).

Definition logged_games (p : string) (log : list MatchData) : Z :=
  sumZ (map (fun md =>
               (if String.eqb (md_p1_id md) p then 1 else 0)
               + (if String.eqb (md_p2_id md) p then 1 else 0))
            log).

(** The two players of a logged match. *)
Definition md_players (md : MatchData) : string * string :=
  (md_p1_id md, md_p2_id md).


(** How often a player occurs in a list of matchups. *)
Definition pair_count (p : string) (pairs : list (string * string)) : Z :=
  sumZ (map (fun ab =>
               (if String.eqb (fst ab) p then 1 else 0)
               + (if String.eqb (snd ab) p then 1 else 0))
            pairs).

(** A ranking by score, best first. *)
Definition score_desc (a b : string * Z) : Prop := snd b <= snd a.


(** The Round Robin tables agree with the match log: no id has two rows,
    the score and the games of every id are those logged for it, and the
    ids with a row are the ids that have played. *)
Definition rr_consistent (v : RRVars) : Prop :=
  NoDup (rr_scores v).*1 /\
  (forall p, od_get (rr_scores v) p = logged_score p (rr_matches v)) /\
  (forall p, from_option (fun x => x) 0 (rr_games v !! p)
             = logged_games p (rr_matches v)) /\
  (forall p, p ∈ (rr_scores v).*1 <->
             exists md, md ∈ rr_matches v /\
                        (p = md_p1_id md \/ p = md_p2_id md)).


(* ------------------------------------------------------------------------- *)
(** ** The single game tab: a game stepped by a timer *)

(** [try: m  except Exception: handler]; what [m] did to the state before
    it raised is kept. *)
Definition try_except {St A} (m : SE St A) (handler : SE St A) : SE St A :=
  fun s => match m s with
           | (Raise _, s') => handler s'
           | r => r
           end.

(** The attributes of the window the single game uses.  The display and
    the log file are not part of the embedding. *)
Record SingleGame : Type := mkSingleGame {
  current_game : option Game;
  single_game_round_counter : Z;
  single_game_max_rounds : Z;
  timer_active : bool                  (* single_game_timer.isActive() *)
}.

Section SingleGameTab.
Variable registry : gmap string StrategyMeta.
Variables global_noise global_forgiveness : float.

(** [stop_single_game]: the statistics are updated when at least one
    round was played, and the game is cleared. *)
Definition stop_single_game (s : SingleGame) : SE World SingleGame :=
  match current_game s with
  | Some g =>
      _ <- (if (0 <? Z.of_nat (length (history1 g)))   (* rounds_played > 0 *)
            then modify_stats (fun st =>
                   update_player_stats registry st
                     (strategy1_id g) (strategy2_id g) (score1 g) (score2 g))
            else ret tt) ;;
      ret (mkSingleGame None (single_game_round_counter s)
                        (single_game_max_rounds s) false)
  | None =>
      ret (mkSingleGame None (single_game_round_counter s)
                        (single_game_max_rounds s) false)
  end.

(** [start_single_game], with the data of the two selectors and the value
    of the rounds box; an empty id stands for no selection. *)
Definition start_single_game (s : SingleGame) (p1_id p2_id : string)
    (rounds : Z) : SE World SingleGame :=
  s <- (if timer_active s then stop_single_game s else ret s) ;;
  let s := mkSingleGame (current_game s) (single_game_round_counter s)
                        rounds (timer_active s) in
  if String.eqb p1_id "" || String.eqb p2_id "" then ret s
  else if bool_decide (registry !! p1_id = None)
          || bool_decide (registry !! p2_id = None) then ret s
  else ret (mkSingleGame
              (Some (Game_init registry p1_id p2_id rounds
                               global_noise global_forgiveness))
              0 rounds true).

(** [run_single_game_step], the slot of the timer. *)
Definition run_single_game_step (s : SingleGame) : SE World SingleGame :=
  match current_game s with
  | None =>
      ret (mkSingleGame None (single_game_round_counter s)
                        (single_game_max_rounds s) false)
  | Some g =>
      if single_game_round_counter s <? single_game_max_rounds s then
        try_except
          (out <- lift_rng (play_round g (single_game_round_counter s)) ;;
           ret (mkSingleGame (Some (fst out))
                             (single_game_round_counter s + 1)
                             (single_game_max_rounds s) (timer_active s)))
          (stop_single_game s)
      else stop_single_game s
  end.

(** The timer calls its slot for as long as it is active. *)
Fixpoint timer_ticks (n : nat) (s : SingleGame) : SE World SingleGame :=
  match n with
  | O => ret s
  | Datatypes.S n' =>
      if timer_active s
      then s' <- run_single_game_step s ;; timer_ticks n' s'
      else ret s
  end.
End SingleGameTab.

(* ------------------------------------------------------------------------- *)
(** ** The sandbox *)

(** The attributes of the window the sandbox uses; the two combo fields
    hold [currentData()] of the player selectors, empty for no selection. *)
Record Sandbox : Type := mkSandbox {
  sandbox_p1_combo : string;
  sandbox_p2_combo : string;
  sandbox_game : option Game;
  sandbox_p1_manual : bool;
  sandbox_p2_manual : bool;
  sandbox_p1_move : option Move;
  sandbox_p2_move : option Move
}.

Section SandboxTab.
Variable registry : gmap string StrategyMeta.
Variables global_noise global_forgiveness : float.

(** [update_sandbox_ui]: called when a selector changes. *)
Definition update_sandbox_ui (s : Sandbox) : Sandbox :=
  mkSandbox (sandbox_p1_combo s) (sandbox_p2_combo s) (sandbox_game s)
            (String.eqb (sandbox_p1_combo s) "manual")
            (String.eqb (sandbox_p2_combo s) "manual")
            (sandbox_p1_move s) (sandbox_p2_move s).

(** [is_ready] of [check_sandbox_ready_for_next_round], which enables the
    Next Round button. *)
Definition sandbox_ready (s : Sandbox) : bool :=
  match sandbox_game s with
  | None => false
  | Some _ =>
      (negb (sandbox_p1_manual s) || bool_decide (sandbox_p1_move s <> None))
      && (negb (sandbox_p2_manual s) || bool_decide (sandbox_p2_move s <> None))
  end.

(** The sandbox game with its display names overridden. *)
Definition with_names (g : Game) (name1 name2 : string) : Game :=
  {| strategy1_id := strategy1_id g;
     strategy2_id := strategy2_id g;
     num_rounds := num_rounds g;
     noise_prob := noise_prob g;
     forgiveness_prob := forgiveness_prob g;
     history1 := history1 g;
     history2 := history2 g;
     score1 := score1 g;
     score2 := score2 g;
     strategy1_func := strategy1_func g;
     strategy2_func := strategy2_func g;
     strategy1_name := name1;
     strategy2_name := name2 |}.

(** [sandbox_reset] *)
Definition sandbox_reset (s : Sandbox) : Sandbox :=
  let p1_id := sandbox_p1_combo s in
  let p2_id := sandbox_p2_combo s in
  let cleared := mkSandbox p1_id p2_id None
                   (sandbox_p1_manual s) (sandbox_p2_manual s) None None in
  if String.eqb p1_id "" || String.eqb p2_id "" then cleared
  else
    let p1_game_id := if String.eqb p1_id "manual" then "manual_p1" else p1_id in
    let p2_game_id := if String.eqb p2_id "manual" then "manual_p2" else p2_id in
    let p1_name := if String.eqb p1_id "manual" then "P1 (Manual)"
                   else name_or_id registry p1_id in
    let p2_name := if String.eqb p2_id "manual" then "P2 (Manual)"
                   else name_or_id registry p2_id in
    mkSandbox p1_id p2_id
      (Some (with_names (Game_init registry p1_game_id p2_game_id MAX_ROUNDS
                                   global_noise global_forgiveness)
                        p1_name p2_name))
      (sandbox_p1_manual s) (sandbox_p2_manual s) None None.

(** [sandbox_manual_move]; [player_index] is 0 or 1. *)
Definition sandbox_manual_move (s : Sandbox) (player_index : Z) (m : Move)
  : Sandbox :=
  match sandbox_game s with
  | None => s
  | Some _ =>
      if (player_index =? 0) && sandbox_p1_manual s then
        mkSandbox (sandbox_p1_combo s) (sandbox_p2_combo s) (sandbox_game s)
                  (sandbox_p1_manual s) (sandbox_p2_manual s)
                  (Some m) (sandbox_p2_move s)
      else if (player_index =? 1) && sandbox_p2_manual s then
        mkSandbox (sandbox_p1_combo s) (sandbox_p2_combo s) (sandbox_game s)
                  (sandbox_p1_manual s) (sandbox_p2_manual s)
                  (sandbox_p1_move s) (Some m)
      else s
  end.

(** The intended move of one side: the manual choice, or
    [STRATEGIES[p_id]['func'](...)], which raises [KeyError] for an id that
    is not registered. *)
Definition sandbox_intended (manual : bool) (choice : option Move)
    (p_id : string) (my_history opponent_history : History) (round_num : Z)
  : SE Rng (option Move) :=
  if manual then ret choice
  else
    match registry !! p_id with
    | Some meta =>
        m <- func meta my_history opponent_history round_num
                       global_forgiveness ;;
        ret (Some m)
    | None => raise KeyError
    end.

(** [sandbox_play_next_round] *)
Definition sandbox_play_next_round (s : Sandbox) : SE Rng Sandbox :=
  match sandbox_game s with
  | None => ret (sandbox_reset s)
  | Some g =>
      let round_num := Z.of_nat (length (history1 g)) in
      try_except
        (m1_int <- sandbox_intended (sandbox_p1_manual s) (sandbox_p1_move s)
                     (sandbox_p1_combo s) (history1 g) (history2 g) round_num ;;
         m2_int <- sandbox_intended (sandbox_p2_manual s) (sandbox_p2_move s)
                     (sandbox_p2_combo s) (history2 g) (history1 g) round_num ;;
         match m1_int, m2_int with
         | Some m1, Some m2 =>
             flip1 <- random_below global_noise ;;
             flip2 <- random_below global_noise ;;
             let m1_act := if flip1 then invert m1 else m1 in
             let m2_act := if flip2 then invert m2 else m2 in
             ret (mkSandbox (sandbox_p1_combo s) (sandbox_p2_combo s)
                            (Some (record_round g m1_act m2_act))
                            (sandbox_p1_manual s) (sandbox_p2_manual s)
                            None None)
         | _, _ => ret s                 (* "Manual input required." *)
         end)
        (ret (sandbox_reset s))
  end.

(** [k] clicks on Next Round. *)
Fixpoint sandbox_rounds (k : nat) (s : Sandbox) : SE Rng Sandbox :=
  match k with
  | O => ret s
  | Datatypes.S k' =>
      s' <- sandbox_play_next_round s ;; sandbox_rounds k' s'
  end.
End SandboxTab.


(* ------------------------------------------------------------------------- *)
(** ** Group Stage + Knockout *)

Section Shuffle.
Context {A : Type}.

(** The loop of [random.shuffle(x)], for the indexes [i] down to 1:
    [j = randbelow(i + 1); x[i], x[j] = x[j], x[i]].  One result of the
    generator is read for each index. *)
Fixpoint shuffle_from (i : nat) (x : list A) : SE Rng (list A) :=
  match i with
  | O => ret x
  | Datatypes.S i' =>
      d <- next_draw ;;
      let j := Nat.modulo (as_index d) (i + 1) in
      match x !! i, x !! j with
      | Some xi, Some xj => shuffle_from i' (<[j := xi]> (<[i := xj]> x))
      | _, _ => raise IndexError
      end
  end.

(** [random.shuffle(x)] *)
Definition random_shuffle (x : list A) : SE Rng (list A) :=
  shuffle_from (length x - 1) x.
End Shuffle.

(** [for i, p_id in enumerate(shuffled): groups[i % num_groups].append(p_id)],
    from position [i] on.  [run_tournament] reaches this loop with
    [num_groups >= 1] only, where [i % num_groups] is an index of
    [groups]. *)
Fixpoint distribute_from (i : nat) (num_groups : Z) (shuffled : list string)
    (groups : list (list string)) : list (list string) :=
  match shuffled with
  | [] => groups
  | p_id :: rest =>
      distribute_from (Datatypes.S i) num_groups rest
        (alter (fun group => group ++ [p_id])
               (Z.to_nat (Z.of_nat i mod num_groups)) groups)
  end.

(** [groups = [[] for _ in range(num_groups)]], filled from [shuffled]. *)
Definition distribute (num_groups : Z) (shuffled : list string)
  : list (list string) :=
  distribute_from 0 num_groups shuffled (replicate (Z.to_nat num_groups) []).

(** The state of the knockout [while] loop between two iterations;
    [ko_status_log] collects the status-bar messages
    ["Knockout Round {round_num} ({n} players)"]. *)
Record KnockoutState : Type := mkKnockout {
  ko_participants : list string;         (* current_round_participants *)
  ko_round_num : Z;
  ko_vars : GroupVars;
  ko_status_log : list (Z * nat)
}.

(** What the Group Stage + Knockout branch leaves behind. *)
Record GroupKnockoutResult : Type := mkGroupKnockout {
  gk_groups : list (list string);
  gk_qualifiers : list string;           (* as they enter the knockout stage *)
  gk_ended_after_groups : bool;          (* "Tournament ends after group stage" *)
  gk_winner_id : option string;
  gk_vars : GroupVars;
  gk_knockout_rounds : list (Z * nat)
}.

Inductive GroupKnockoutOutcome : Type :=
| GKSetupError (msg : string)          (* warning box, nothing is run *)
| GKFinished (r : GroupKnockoutResult).

Section GroupKnockout.
Variable registry : gmap string StrategyMeta.
Variable rounds_per_game : Z.
Variables global_noise global_forgiveness : float.

(** The body of [for g_idx, group in enumerate(groups)]; the second
    component is [qualifiers]. *)
Definition group_stage_step (num_qualifiers : Z)
    (acc : GroupVars * list string) (group : list string)
  : SE World (GroupVars * list string) :=
  match group with
  | [] => ret acc                        (* if not group: continue *)
  | _ :: _ =>
      out <- run_group registry rounds_per_game global_noise
                       global_forgiveness num_qualifiers (fst acc) group ;;
      ret (fst out, snd acc ++ snd out)
  end.

(** The body of the loop over the matchups of a knockout round; the second
    component is [next_round]. *)
Definition knockout_match (acc : GroupVars * list string)
    (pair : string * string) : SE World (GroupVars * list string) :=
  let '(p1_id, p2_id) := pair in
  let v := fst acc in
  out <- lift_rng (play_match registry p1_id p2_id rounds_per_game
                              global_noise global_forgiveness) ;;
  let '(s1, s2, h1, h2) := snd out in
  _ <- modify_stats (fun st => update_player_stats registry st p1_id p2_id s1 s2) ;;
  let winner := if s2 <=? s1 then p1_id else p2_id in   (* P1 wins ties *)
  ret ({| group_stage_scores := group_stage_scores v;
          group_stage_games := group_stage_games v;
          tournament_scores :=
            dd_add (dd_add (tournament_scores v) p1_id s1) p2_id s2;
          tourn_games_played :=
            dd_add (dd_add (tourn_games_played v) p1_id 1) p2_id 1;
          group_matches := group_matches v ++
            [mkMatchData "Tournament Knockout" p1_id p2_id s1 s2 h1 h2] |},
       snd acc ++ [winner]).

(** One iteration of the knockout [while] loop. *)
Definition knockout_round (s : KnockoutState) : SE World KnockoutState :=
  let cur := ko_participants s in
  let status := ko_status_log s ++ [(ko_round_num s, length cur)] in
  let '(next0, cur') :=
    if negb (Nat.eqb (length cur mod 2) 0) then
      (* bye_player = current_round_participants.pop(0) *)
      match cur with
      | bye_player :: rest => ([bye_player], rest)
      | [] => ([], [])
      end
    else ([], cur) in
  acc <- for_each knockout_match (consecutive_pairs cur')
           (ko_vars s, next0) ;;
  ret {| ko_participants := snd acc;
         ko_round_num := ko_round_num s + 1;
         ko_vars := fst acc;
         ko_status_log := status |}.

(** The [while] loop, bounded by [fuel] iterations. *)
Fixpoint knockout_loop (fuel : nat) (s : KnockoutState)
  : SE World KnockoutState :=
  if (length (ko_participants s) <=? 1)%nat then ret s
  else
    match fuel with
    | O => out_of_fuel
    | Datatypes.S fuel' =>
        s' <- knockout_round s ;; knockout_loop fuel' s'
    end.

(** [run_tournament] with [tourn_type == "Group Stage + Knockout"], from
    the checks of the settings to the winner; the standings list built
    afterwards from the group stage scores is not part of the embedding.
    The knockout loop is given as many iterations as there are
    qualifiers. *)
Definition run_tournament_group_knockout (participants : list string)
    (use_seeding : bool) (num_groups num_qualifiers : Z)
  : SE World GroupKnockoutOutcome :=
  if (length participants <? 2)%nat
  then ret (GKSetupError "Need >= 2 participants.")
  else if Z.of_nat (length participants) <? num_groups * 2
  then ret (GKSetupError "Too few participants for groups.")
  else if num_qualifiers * num_groups <? 2
  then ret (GKSetupError "Need >= 2 total qualifiers.")
  else if num_qualifiers <? 1
  then ret (GKSetupError "Need >= 1 qualifier per group.")
  else
    let participants :=
      if use_seeding
      then sorted_by String.ltb (seeding_key registry) false participants
      else participants in
    shuffled <- lift_rng (random_shuffle participants) ;;
    let groups := distribute num_groups shuffled in
    acc <- for_each (group_stage_step num_qualifiers) groups
             (mkGroupVars ∅ ∅ ∅ ∅ [], []) ;;
    let qualifiers := snd acc in
    if (length qualifiers <? 2)%nat then
      ret (GKFinished
             {| gk_groups := groups;
                gk_qualifiers := qualifiers;
                gk_ended_after_groups := true;
                gk_winner_id := head qualifiers;
                gk_vars := fst acc;
                gk_knockout_rounds := [] |})
    else
      let qualifiers :=
        if use_seeding
        then sorted_by String.ltb (seeding_key registry) false qualifiers
        else qualifiers in
      s <- knockout_loop (length qualifiers)
             {| ko_participants := qualifiers;
                ko_round_num := 1;
                ko_vars := fst acc;
                ko_status_log := [] |} ;;
      ret (GKFinished
             {| gk_groups := groups;
                gk_qualifiers := qualifiers;
                gk_ended_after_groups := false;
                gk_winner_id := head (ko_participants s);
                gk_vars := ko_vars s;
                gk_knockout_rounds := ko_status_log s |}).
End GroupKnockout.


(** A custom-strategy file with one object, under the empty key:
    [{"": {"name": "A", "rules": {"default": "D"}}}], and the registry
    loaded from it.  The name "A" puts the strategy before every built-in in
    the selection list. *)
Definition empty_id_file : list (string * FileValue) :=
  [(""%string, JObject (mkCustomDef (Some "A"%string)
                          (Some (mkRules (Some DEFECT) None None None))))].

Definition empty_id_registry : gmap string StrategyMeta :=
  STRATEGIES (load_custom_strategies empty_id_file).

(** "If Opp Coop Rate < 2^63 -> D", default D: a threshold no double
    represents exactly below it. *)
Definition big_threshold_rules : RuleSet :=
  mkRules (Some DEFECT) None (Some (mkThreshold (2 ^ 63) DEFECT)) None.

(** [d.get(x, 0)] on a score table. *)
Definition score_of (scores : gmap string Z) (x : string) : Z :=
  from_option (fun s => s) 0 (scores !! x).

(* ------------------------------------------------------------------------- *)
(** ** Stepping through computations *)

Lemma bind_ok {St A B} (m : SE St A) (k : A -> SE St B) s a s' :
  m s = (Ok a, s') -> bind m k s = k a s'.
Proof. intros H. unfold bind. now rewrite H. Qed.

Lemma bind_raise {St A B} (m : SE St A) (k : A -> SE St B) s e s' :
  m s = (Raise e, s') -> bind m k s = (Raise e, s').
Proof. intros H. unfold bind. now rewrite H. Qed.

Lemma bind_ret {St A B} (a : A) (k : A -> SE St B) s :
  bind (ret a) k s = k a s.
Proof. reflexivity. Qed.

Lemma bind_inv_ok {St A B} (m : SE St A) (k : A -> SE St B) s b s2 :
  bind m k s = (Ok b, s2) ->
  exists a s1, m s = (Ok a, s1) /\ k a s1 = (Ok b, s2).
Proof.
  unfold bind. destruct (m s) as [[a | e |] s1]; intros H; try discriminate.
  now exists a, s1.
Qed.

Lemma random_below_run p g :
  random_below p g =
  (Ok (PrimFloat.ltb (as_float (tape g (pos g))) p),
   mkRng (tape g) (Datatypes.S (pos g))).
Proof. reflexivity. Qed.

Lemma valid_draw_not_below_zero x :
  valid_draw x = true -> PrimFloat.ltb x 0%float = false.
Proof.
  unfold valid_draw. intros H. apply andb_true_iff in H as [H _].
  now apply negb_true_iff in H.
Qed.

Lemma random_below_zero t n :
  valid_tape t ->
  random_below 0%float (mkRng t n) = (Ok false, mkRng t (Datatypes.S n)).
Proof.
  intros Ht. rewrite random_below_run. simpl.
  now rewrite (valid_draw_not_below_zero _ (Ht n)).
Qed.

Lemma Move_eqb_eq a b : Move_eqb a b = true <-> a = b.
Proof. destruct a, b; simpl; split; congruence. Qed.

(* ------------------------------------------------------------------------- *)
(** ** Grudger *)

(** C8, as the code has it.  Once the opponent has defected, Grudger applies
    the forgiveness override only when the opponent's most recent move was
    Defect: it then consumes one draw and returns Cooperate when the draw is
    below [forgiveness_prob], Defect otherwise.  When the most recent move
    was Cooperate it returns Defect and consumes no draw. *)
Theorem grudger_forgives_only_after_defect
    (my_history opponent_history : History) (round_number : Z)
    (forgiveness_prob : float) (t : nat -> draw) (n : nat) :
  DEFECT ∈ opponent_history ->
  (last opponent_history = Some DEFECT ->
   grudger my_history opponent_history round_number forgiveness_prob (mkRng t n)
   = (Ok (if PrimFloat.ltb (as_float (t n)) forgiveness_prob
          then COOPERATE else DEFECT),
      mkRng t (Datatypes.S n)))
  /\
  (last opponent_history = Some COOPERATE ->
   grudger my_history opponent_history round_number forgiveness_prob (mkRng t n)
   = (Ok DEFECT, mkRng t n)).
Proof.
  intros Hin. unfold grudger, getitem_last.
  rewrite bool_decide_eq_true_2 by exact Hin.
  split; intros Hlast; rewrite Hlast; simpl.
  - rewrite bind_ret. simpl.
    erewrite bind_ok by apply random_below_run.
    now destruct (PrimFloat.ltb _ _).
  - reflexivity.
Qed.

Lemma grudger_forgives_only_after_defect_witness :
  grudger [COOPERATE; COOPERATE] [COOPERATE; DEFECT] 2 0.25%float
          (mkRng zero_tape 0)
  = (Ok COOPERATE, mkRng zero_tape 1).
Proof.
  pose proof (grudger_forgives_only_after_defect
                [COOPERATE; COOPERATE] [COOPERATE; DEFECT] 2 0.25%float
                zero_tape 0) as H.
  destruct H as [H _].
  - apply list_elem_of_In. simpl. auto.
  - apply H. reflexivity.
Defined.

(** C8 as stated fails: the opponent defected in the first round and then
    cooperated; the draw 0.0 is below the forgiveness probability 0.25, and
    Grudger still returns Defect, without consuming the draw. *)
Lemma grudger_no_forgiveness_after_cooperate :
  DEFECT ∈ [DEFECT; COOPERATE] /\
  PrimFloat.ltb (as_float (zero_tape 0)) 0.25%float = true /\
  grudger [COOPERATE; COOPERATE] [DEFECT; COOPERATE] 2 0.25%float
          (mkRng zero_tape 0)
  = (Ok DEFECT, mkRng zero_tape 0).
Proof.
  split; [|split]; try reflexivity.
  apply list_elem_of_In. simpl. auto.
Qed.

(* ------------------------------------------------------------------------- *)
(** ** The rule interpreter *)

(** When the chain leaves [rule_triggered_defection] unset, the decision is
    the chain's move and no draw is consumed. *)
Lemma custom_no_rule_defection rs my opp r fp g mv :
  rule_chain rs opp r = (mv, false) ->
  custom_strategy_logic rs my opp r fp g = (Ok mv, g).
Proof.
  intros H. unfold custom_strategy_logic. rewrite H.
  rewrite andb_false_r. simpl. now rewrite bind_ret.
Qed.

(** When no rule matches, the chain leaves the default move and the flag
    unset. *)
Lemma rule_chain_no_match rs opp r :
  first_match rs opp r = None ->
  rule_chain rs opp r = (from_option (fun m => m) COOPERATE (default rs), false).
Proof.
  unfold first_match, last_move_rule, coop_rate_rule, round_rule, rule_chain.
  destruct (opp_last_move rs) as [olm|], (last opp) as [[|]|] eqn:Hl;
    destruct (opp_coop_lt rs) as [ocl|], (round_gt rs) as [rgt|];
    repeat match goal with
      | |- context [on_C ?o] => destruct (on_C o)
      | |- context [on_D ?o] => destruct (on_D o)
      end;
    destruct opp as [|o opp']; try discriminate Hl;
    repeat match goal with
      | |- context [float_lt_int ?a ?b] => destruct (float_lt_int a b)
      | |- context [?a <? ?b] => destruct (a <? b)
      end;
    intros H; try discriminate H; reflexivity.
Qed.

(** C6.  A rule set whose default is Defect, on an input where no rule
    matches: the decision is Defect for every forgiveness probability and
    every state of the random source, and no draw is consumed. *)
Theorem default_defect_never_forgiven
    (rs : RuleSet) (my_history opponent_history : History)
    (round_number : Z) (forgiveness_prob : float) (g : Rng) :
  default rs = Some DEFECT ->
  first_match rs opponent_history round_number = None ->
  custom_strategy_logic rs my_history opponent_history round_number
                        forgiveness_prob g
  = (Ok DEFECT, g).
Proof.
  intros Hd Hn. apply custom_no_rule_defection.
  rewrite (rule_chain_no_match _ _ _ Hn), Hd. reflexivity.
Qed.

Lemma default_defect_never_forgiven_witness :
  custom_strategy_logic late_rules [COOPERATE] [COOPERATE] 1 1%float
                        (mkRng zero_tape 0)
  = (Ok DEFECT, mkRng zero_tape 0).
Proof.
  apply default_defect_never_forgiven; reflexivity.
Defined.

(** C3, as the code has it.  Compiling never fails.  A rule set without a
    default move compiles to the decision function of the same rule set with
    default Cooperate, and [load_custom_strategies] registers it under its
    id. *)
Theorem missing_default_compiles_to_cooperate (rs : RuleSet) :
  default rs = None ->
  create_custom_strategy_function rs = Ok (custom_strategy_logic rs)
  /\ (forall my_history opponent_history round_number forgiveness_prob g,
        custom_strategy_logic rs my_history opponent_history round_number
                              forgiveness_prob g
        = custom_strategy_logic (with_default COOPERATE rs) my_history
            opponent_history round_number forgiveness_prob g)
  /\ (forall reg strat_id nm,
        STRATEGIES (load_custom_entry reg
                      (strat_id, mkCustomDef (Some nm) (Some rs))) !! strat_id
        = Some (mkMeta nm (custom_strategy_logic rs) strat_id true (Some rs))).
Proof.
  intros Hd. split; [reflexivity | split].
  - intros. unfold custom_strategy_logic, rule_chain, with_default.
    simpl. rewrite Hd. reflexivity.
  - intros. simpl. apply lookup_insert_eq.
Qed.

Lemma missing_default_compiles_to_cooperate_witness :
  create_custom_strategy_function empty_rules
  = Ok (custom_strategy_logic empty_rules).
Proof.
  apply (missing_default_compiles_to_cooperate empty_rules). reflexivity.
Defined.

(** C3 as stated fails: the rule set without any key compiles, is loaded
    into the registry next to the built-ins, and decides Cooperate. *)
Lemma missing_default_is_accepted :
  default empty_rules = None /\
  (exists f, create_custom_strategy_function empty_rules = Ok f /\
             f [] [] 0 0%float rng0 = (Ok COOPERATE, rng0)) /\
  (exists meta,
     STRATEGIES (load_custom_strategies
                   [("custom_x",
                     JObject (mkCustomDef (Some "X") (Some empty_rules)))])
       !! "custom_x" = Some meta /\
     func meta [] [] 0 0%float rng0 = (Ok COOPERATE, rng0)).
Proof.
  split; [reflexivity | split].
  - eexists. split; reflexivity.
  - eexists. split; [vm_compute; reflexivity | reflexivity].
Qed.

(** C2 at the failing input.  The last-move rule defines a target only for
    "opponent just played C" and the opponent's last move was D, so it does
    not match; the opponent's cooperation rate is 0%, below the threshold of
    50%, so the cooperation-rate rule matches and first-match-wins selects
    its move, Defect.  The code returns the default, Cooperate. *)
Lemma partial_last_move_rule_shadows_coop_rate :
  last_move_rule partial_rules [DEFECT] = None /\
  coop_rate_rule partial_rules [DEFECT] = Some DEFECT /\
  first_match partial_rules [DEFECT] 1 = Some DEFECT /\
  custom_strategy_logic partial_rules [COOPERATE] [DEFECT] 1 0%float rng0
  = (Ok COOPERATE, rng0).
Proof. repeat split; vm_compute; reflexivity. Qed.

(** Once the opponent has moved, a rule set with a last-move rule decides
    as if it had no other rule: the [elif] branches are never reached. *)
Lemma last_move_rule_hides_other_rules rs olm opp r :
  opp_last_move rs = Some olm -> opp <> [] ->
  rule_chain rs opp r = rule_chain (only_last_move_rule rs) opp r.
Proof.
  intros H Hne. unfold rule_chain, only_last_move_rule. simpl. rewrite H.
  destruct (last opp) as [m|] eqn:E; [reflexivity|].
  now apply last_None in E.
Qed.

(** The two other parts of C2 hold of the code. *)

(** When the last-move rule matches, its move is the chain's move, whatever
    the other rules say. *)
Lemma last_move_rule_wins rs opp r m :
  last_move_rule rs opp = Some m ->
  rule_chain rs opp r = (m, Move_eqb m DEFECT).
Proof.
  unfold last_move_rule, rule_chain.
  destruct (opp_last_move rs) as [olm|]; [|discriminate].
  destruct (last opp) as [[|]|]; [| |discriminate].
  - intros ->. reflexivity.
  - intros ->. destruct (on_C olm); reflexivity.
Qed.

(** When no rule matches, the decision is the default move. *)
Lemma no_match_gives_default rs my opp r fp g :
  first_match rs opp r = None ->
  custom_strategy_logic rs my opp r fp g
  = (Ok (from_option (fun m => m) COOPERATE (default rs)), g).
Proof.
  intros H. apply custom_no_rule_defection. now apply rule_chain_no_match.
Qed.

(* ------------------------------------------------------------------------- *)
(** ** The match engine *)

Lemma sumZ_app l1 l2 : sumZ (l1 ++ l2) = sumZ l1 + sumZ l2.
Proof. unfold sumZ. induction l1 as [|x l1 IH]; simpl; lia. Qed.

Lemma recorded_payoffs_snoc h1 h2 m1 m2 :
  length h1 = length h2 ->
  recorded_payoffs (h1 ++ [m1]) (h2 ++ [m2])
  = recorded_payoffs h1 h2 ++ [PAYOFFS m1 m2].
Proof.
  intros Hlen. unfold recorded_payoffs. now rewrite zip_with_app.
Qed.

Lemma same_setup_refl g : same_setup g g.
Proof. unfold same_setup. tauto. Qed.

Lemma same_setup_trans g1 g2 g3 :
  same_setup g1 g2 -> same_setup g2 g3 -> same_setup g1 g3.
Proof. unfold same_setup. intuition congruence. Qed.

Lemma record_round_setup g m1 m2 : same_setup g (record_round g m1 m2).
Proof.
  unfold record_round. destruct (PAYOFFS m1 m2). unfold same_setup. simpl. tauto.
Qed.

(** One recorded round keeps the invariant and adds one round. *)
Lemma record_round_recorded k g m1 m2 :
  rounds_recorded k g ->
  rounds_recorded (Datatypes.S k) (record_round g m1 m2).
Proof.
  intros (H1 & H2 & H3 & H4). unfold rounds_recorded, record_round.
  destruct (PAYOFFS m1 m2) as [p1 p2] eqn:Hp. simpl.
  rewrite !length_app, H1, H2. simpl.
  rewrite recorded_payoffs_snoc by congruence.
  rewrite !map_app, !sumZ_app, Hp, <- H3, <- H4. simpl.
  repeat split; lia.
Qed.

(** A [play_round] call that returns has recorded the moves it returns. *)
Lemma play_round_inv g r s g' out s' :
  play_round g r s = (Ok (g', out), s') ->
  exists m1 m2,
    g' = record_round g m1 m2 /\
    out = (m1, m2, fst (PAYOFFS m1 m2), snd (PAYOFFS m1 m2)).
Proof.
  unfold play_round. intros H.
  apply bind_inv_ok in H as (i1 & s1 & _ & H).
  apply bind_inv_ok in H as (i2 & s2 & _ & H).
  apply bind_inv_ok in H as (f1 & s3 & _ & H).
  apply bind_inv_ok in H as (f2 & s4 & _ & H).
  unfold ret in H. inversion H; subst. eauto.
Qed.

Lemma play_rounds_inv rs : forall g k s g' s',
  rounds_recorded k g ->
  play_rounds g rs s = (Ok g', s') ->
  rounds_recorded (k + length rs) g' /\ same_setup g g'.
Proof.
  induction rs as [|r rs IH]; intros g k s g' s' Hinv H; simpl in H.
  - inversion H; subst. rewrite Nat.add_0_r. split; [assumption|].
    apply same_setup_refl.
  - apply bind_inv_ok in H as ([g1 out] & s1 & Hr & H). simpl in H.
    apply play_round_inv in Hr as (m1 & m2 & -> & _).
    eapply IH in H; [|apply record_round_recorded; eassumption].
    destruct H as [Hrec Hset]. split.
    + simpl. now replace (k + Datatypes.S (length rs))%nat
        with (Datatypes.S k + length rs)%nat by lia.
    + eapply same_setup_trans; [apply record_round_setup | eassumption].
Qed.

Lemma Game_init_recorded reg id1 id2 n noise fp :
  rounds_recorded 0 (Game_init reg id1 id2 n noise fp).
Proof. repeat split. Qed.

(** A step of a game whose histories have equal lengths and whose round
    number is that length: it returns when both decision functions are
    safe. *)
Lemma play_round_returns g s :
  game_safe (strategy1_func g) -> game_safe (strategy2_func g) ->
  length (history1 g) = length (history2 g) ->
  exists m1 m2 s',
    play_round g (Z.of_nat (length (history1 g))) s
    = (Ok (record_round g m1 m2,
           (m1, m2, fst (PAYOFFS m1 m2), snd (PAYOFFS m1 m2))), s').
Proof.
  intros Hf1 Hf2 Hlen. unfold play_round.
  destruct (Hf1 (history1 g) (history2 g) (forgiveness_prob g) s Hlen)
    as (i1 & s1 & E1).
  destruct (Hf2 (history2 g) (history1 g) (forgiveness_prob g) s1
              (eq_sym Hlen)) as (i2 & s2 & E2).
  rewrite <- Hlen in E2.
  erewrite bind_ok by exact E1.
  erewrite bind_ok by exact E2.
  erewrite bind_ok by apply random_below_run.
  erewrite bind_ok by apply random_below_run.
  unfold ret. eauto.
Qed.

Lemma play_rounds_returns (k : nat) : forall g s,
  game_safe (strategy1_func g) -> game_safe (strategy2_func g) ->
  length (history1 g) = length (history2 g) ->
  exists g' s',
    play_rounds g (seqZ (Z.of_nat (length (history1 g))) (Z.of_nat k)) s
    = (Ok g', s').
Proof.
  induction k as [|k IH]; intros g s Hf1 Hf2 Hlen.
  - rewrite seqZ_nil by lia. simpl. unfold ret. eauto.
  - rewrite seqZ_cons by lia. simpl.
    destruct (play_round_returns g s Hf1 Hf2 Hlen) as (m1 & m2 & s1 & E).
    erewrite bind_ok by exact E. simpl.
    set (g1 := record_round g m1 m2).
    assert (Hs : same_setup g g1) by apply record_round_setup.
    destruct Hs as (_ & _ & _ & _ & _ & F1 & F2 & _).
    assert (L1 : length (history1 g1) = Datatypes.S (length (history1 g))).
    { unfold g1, record_round. destruct (PAYOFFS m1 m2). simpl.
      rewrite length_app. simpl. lia. }
    assert (L2 : length (history2 g1) = Datatypes.S (length (history2 g))).
    { unfold g1, record_round. destruct (PAYOFFS m1 m2). simpl.
      rewrite length_app. simpl. lia. }
    replace (Z.succ (Z.of_nat (length (history1 g))))
      with (Z.of_nat (length (history1 g1))) by lia.
    replace (Z.pred (Z.of_nat (Datatypes.S k))) with (Z.of_nat k) by lia.
    apply IH; [now rewrite F1 | now rewrite F2 | lia].
Qed.

Lemma func_or_dummy_safe reg sid :
  registry_game_safe reg -> game_safe (func_or_dummy reg sid).
Proof.
  intros Hreg. unfold func_or_dummy.
  destruct (reg !! sid) as [meta|] eqn:E.
  - eapply Hreg; eassumption.
  - intros my opp fp g _. unfold returns, ret. eauto.
Qed.

(** A tournament match between any two ids returns, also when an id is not
    in the registry. *)
Lemma play_match_returns reg p1 p2 rounds noise fp s :
  registry_game_safe reg ->
  exists g' s',
    play_match reg p1 p2 rounds noise fp s
    = (Ok (g', (score1 g', score2 g', join (history1 g'), join (history2 g'))),
       s')
    /\ same_setup (Game_init reg p1 p2 rounds noise fp) g'.
Proof.
  intros Hreg. unfold play_match, run_game.
  set (g := Game_init reg p1 p2 rounds noise fp).
  assert (Hk : exists g' s', play_rounds g (seqZ 0 (num_rounds g)) s = (Ok g', s')).
  { destruct (Z.le_gt_cases (num_rounds g) 0) as [Hle|Hgt].
    - rewrite seqZ_nil by exact Hle. simpl. unfold ret. eauto.
    - replace (num_rounds g) with (Z.of_nat (Z.to_nat (num_rounds g))) by lia.
      apply (play_rounds_returns (Z.to_nat (num_rounds g)) g s);
        try apply func_or_dummy_safe; auto. }
  destruct Hk as (g' & s' & E).
  erewrite bind_ok by exact E. unfold ret.
  exists g', s'. split; [reflexivity|].
  eapply play_rounds_inv in E; [|apply Game_init_recorded]. apply E.
Qed.

(** *** Scenario B *)

Lemma tit_for_tat_no_forgiveness t n my opp r :
  valid_tape t ->
  exists n',
    tit_for_tat my opp r 0%float (mkRng t n)
    = (Ok (from_option (fun m => m) COOPERATE (last opp)), mkRng t n').
Proof.
  intros Ht. unfold tit_for_tat.
  destruct (last opp) as [[|]|]; simpl.
  - exists n. reflexivity.
  - exists (Datatypes.S n).
    erewrite bind_ok by (apply random_below_zero; exact Ht). reflexivity.
  - exists n. reflexivity.
Qed.

(** One round of Tit-for-Tat against Always Defect without noise and
    without forgiveness. *)
Lemma tft_vs_defect_round g r t n :
  valid_tape t ->
  strategy1_func g = tit_for_tat ->
  strategy2_func g = always_defect ->
  noise_prob g = 0%float ->
  forgiveness_prob g = 0%float ->
  exists n',
    play_round g r (mkRng t n)
    = (Ok (record_round g (from_option (fun m => m) COOPERATE
                                       (last (history2 g))) DEFECT,
           (from_option (fun m => m) COOPERATE (last (history2 g)), DEFECT,
            fst (PAYOFFS (from_option (fun m => m) COOPERATE
                                      (last (history2 g))) DEFECT),
            snd (PAYOFFS (from_option (fun m => m) COOPERATE
                                      (last (history2 g))) DEFECT))),
       mkRng t n').
Proof.
  intros Ht F1 F2 Hn Hf. unfold play_round. rewrite F1, F2, Hn, Hf.
  destruct (tit_for_tat_no_forgiveness t n (history1 g) (history2 g) r Ht)
    as (n1 & E1).
  erewrite bind_ok by exact E1.
  unfold always_defect at 1. rewrite bind_ret.
  erewrite bind_ok by (apply random_below_zero; exact Ht).
  erewrite bind_ok by (apply random_below_zero; exact Ht).
  unfold ret. eauto.
Qed.

(** C9.  Tit-for-Tat against Always Defect, 5 rounds, noise 0 and
    forgiveness 0, for every sequence of draws the generator can produce:
    the match returns scores (4, 9) and histories "CDDDD" and "DDDDD";
    round 1 is (C, D) with payoffs (0, 5), rounds 2 to 5 are (D, D) with
    payoffs (1, 1).  [get_round_data] numbers the rounds from 0. *)
Theorem scenario_B_tit_for_tat_vs_always_defect (t : nat -> draw) (n : nat) :
  valid_tape t ->
  exists g' s',
    play_match BUILT_IN_STRATEGIES_META "tit_for_tat" "defect" 5
               0%float 0%float (mkRng t n)
    = (Ok (g', (4, 9, "CDDDD"%string, "DDDDD"%string)), s') /\
    get_round_data g' 0 = Some (COOPERATE, DEFECT, 0, 5) /\
    get_round_data g' 1 = Some (DEFECT, DEFECT, 1, 1) /\
    get_round_data g' 2 = Some (DEFECT, DEFECT, 1, 1) /\
    get_round_data g' 3 = Some (DEFECT, DEFECT, 1, 1) /\
    get_round_data g' 4 = Some (DEFECT, DEFECT, 1, 1).
Proof.
  intros Ht. unfold play_match, run_game.
  change (seqZ 0 (num_rounds _)) with [0; 1; 2; 3; 4].
  set (g0 := Game_init _ _ _ _ _ _).
  assert (F1 : strategy1_func g0 = tit_for_tat) by reflexivity.
  assert (F2 : strategy2_func g0 = always_defect) by reflexivity.
  destruct (tft_vs_defect_round g0 0 t n Ht F1 F2 eq_refl eq_refl) as (n1 & E1).
  set (g1 := record_round g0 _ DEFECT) in E1.
  destruct (tft_vs_defect_round g1 1 t n1 Ht F1 F2 eq_refl eq_refl) as (n2 & E2).
  set (g2 := record_round g1 _ DEFECT) in E2.
  destruct (tft_vs_defect_round g2 2 t n2 Ht F1 F2 eq_refl eq_refl) as (n3 & E3).
  set (g3 := record_round g2 _ DEFECT) in E3.
  destruct (tft_vs_defect_round g3 3 t n3 Ht F1 F2 eq_refl eq_refl) as (n4 & E4).
  set (g4 := record_round g3 _ DEFECT) in E4.
  destruct (tft_vs_defect_round g4 4 t n4 Ht F1 F2 eq_refl eq_refl) as (n5 & E5).
  set (g5 := record_round g4 _ DEFECT) in E5.
  assert (E : play_rounds g0 [0; 1; 2; 3; 4] (mkRng t n)
              = (Ok g5, mkRng t n5)).
  { unfold play_rounds.
    erewrite bind_ok by exact E1. simpl fst.
    erewrite bind_ok by exact E2. simpl fst.
    erewrite bind_ok by exact E3. simpl fst.
    erewrite bind_ok by exact E4. simpl fst.
    erewrite bind_ok by exact E5. reflexivity. }
  exists g5, (mkRng t n5). split.
  - erewrite bind_ok by exact E. reflexivity.
  - repeat split; reflexivity.
Qed.

Lemma valid_half_tape : valid_tape half_tape.
Proof. intros n. reflexivity. Qed.

Lemma scenario_B_witness :
  exists g' s',
    play_match BUILT_IN_STRATEGIES_META "tit_for_tat" "defect" 5
               0%float 0%float rng0
    = (Ok (g', (4, 9, "CDDDD"%string, "DDDDD"%string)), s').
Proof.
  destruct (scenario_B_tit_for_tat_vs_always_defect half_tape 0 valid_half_tape)
    as (g' & s' & H & _).
  exists g', s'. exact H.
Defined.

(* ------------------------------------------------------------------------- *)
(** ** The built-in strategies return a move in every game *)

Lemma ar_ret {St A} (a : A) : always_returns (@ret St A a).
Proof. intros s. unfold returns, ret. eauto. Qed.

Lemma ar_bind {St A B} (m : SE St A) (k : A -> SE St B) :
  always_returns m -> (forall a, always_returns (k a)) ->
  always_returns (bind m k).
Proof.
  intros Hm Hk s. destruct (Hm s) as (a & s1 & E).
  erewrite bind_ok by exact E. apply Hk.
Qed.

Lemma ar_random_below p : always_returns (random_below p).
Proof. intros s. rewrite random_below_run. unfold returns. eauto. Qed.

Lemma ar_and_then {St} (a : bool) (b : SE St bool) :
  always_returns b -> always_returns (and_then a b).
Proof. intros Hb. destruct a; simpl; [exact Hb | apply ar_ret]. Qed.

Lemma ar_if {St A} (c : bool) (a b : SE St A) :
  always_returns a -> always_returns b -> always_returns (if c then a else b).
Proof. now destruct c. Qed.

Lemma ar_getitem_last {St} (h : History) :
  h <> [] -> always_returns (@getitem_last St h).
Proof.
  intros Hne. unfold getitem_last.
  destruct (last h) eqn:E; [apply ar_ret|].
  now apply last_None in E.
Qed.

Lemma ar_getitem {St} (h : History) (i : nat) :
  (i < length h)%nat -> always_returns (@getitem St h i).
Proof.
  intros Hi. unfold getitem.
  destruct (h !! i) eqn:E; [apply ar_ret|].
  apply lookup_ge_None in E. lia.
Qed.

(** Closes goals [always_returns c] for the straight-line parts of a
    decision function. *)
Ltac returns_step :=
  first [ apply ar_ret
        | apply ar_random_below
        | apply ar_and_then
        | apply ar_bind; [|intros ?]
        | apply ar_if ].

Ltac solve_returns := repeat returns_step.

Lemma game_safe_intro (f : strategy_fn) :
  (forall my opp fp, length my = length opp ->
     always_returns (f my opp (Z.of_nat (length my)) fp)) ->
  game_safe f.
Proof. intros H my opp fp g Hlen. now apply H. Qed.

Lemma mirror_returns (opp : History) (first : Move) fp :
  always_returns
    (match last opp with
     | None => ret first
     | Some opp_last =>
         forgive <- and_then (Move_eqb opp_last DEFECT) (random_below fp) ;;
         if forgive then ret COOPERATE else ret opp_last
     end).
Proof. destruct (last opp); solve_returns. Qed.

Lemma always_cooperate_safe : game_safe always_cooperate.
Proof. apply game_safe_intro. intros. apply ar_ret. Qed.

Lemma always_defect_safe : game_safe always_defect.
Proof. apply game_safe_intro. intros. apply ar_ret. Qed.

Lemma tit_for_tat_safe : game_safe tit_for_tat.
Proof. apply game_safe_intro. intros. apply mirror_returns. Qed.

Lemma suspicious_tit_for_tat_safe : game_safe suspicious_tit_for_tat.
Proof. apply game_safe_intro. intros. apply mirror_returns. Qed.

Lemma grudger_safe : game_safe grudger.
Proof.
  apply game_safe_intro. intros my opp fp _. unfold grudger.
  case_bool_decide as E; [|apply ar_ret].
  apply ar_bind; [|intros ?; solve_returns].
  apply ar_getitem_last. intros ->. now apply not_elem_of_nil in E.
Qed.

Lemma random_strategy_safe : game_safe random_strategy.
Proof.
  apply game_safe_intro. intros. unfold random_strategy, random_choice.
  intros s. unfold returns. eexists _, _. reflexivity.
Qed.

Lemma tit_for_two_tats_safe : game_safe tit_for_two_tats.
Proof.
  apply game_safe_intro. intros my opp fp _. unfold tit_for_two_tats.
  destruct (length opp <? 2)%nat eqn:E; cbv iota; [apply ar_ret|].
  apply Nat.ltb_ge in E. rewrite <- length_rev in E.
  destruct (rev opp) as [|o1 [|o2 rest]]; simpl in E; try lia.
  solve_returns.
Qed.

Lemma generous_tit_for_tat_10_safe : game_safe generous_tit_for_tat_10.
Proof.
  apply game_safe_intro. intros my opp fp _. unfold generous_tit_for_tat_10.
  destruct (last opp); solve_returns.
Qed.

Lemma pavlov_safe : game_safe pavlov.
Proof.
  apply game_safe_intro. intros my opp fp Hlen. unfold pavlov.
  destruct (Z.of_nat (length my) =? 0) eqn:E; cbv iota; [apply ar_ret|].
  apply Z.eqb_neq in E.
  assert (Hmy : my <> []) by (intros ->; simpl in E; lia).
  assert (Hopp : opp <> []) by (intros ->; simpl in Hlen; lia).
  apply ar_bind; [now apply ar_getitem_last | intros a].
  apply ar_bind; [now apply ar_getitem_last | intros b].
  solve_returns.
Qed.

Lemma prober_safe : game_safe prober.
Proof.
  apply game_safe_intro. intros my opp fp Hlen. unfold prober.
  repeat (apply ar_if; [apply ar_ret|]).
  destruct (3 <=? length opp)%nat eqn:E; cbv iota; [|apply ar_ret].
  apply Nat.leb_le in E.
  apply ar_bind; [apply ar_getitem; lia | intros o1].
  apply ar_bind; [apply ar_getitem; lia | intros o2].
  apply ar_if; [apply mirror_returns | apply ar_ret].
Qed.

Lemma majority_safe : game_safe majority.
Proof.
  apply game_safe_intro. intros my opp fp _. unfold majority.
  destruct opp; solve_returns.
Qed.

Lemma custom_strategy_safe rs : game_safe (custom_strategy_logic rs).
Proof.
  apply game_safe_intro. intros my opp fp _. unfold custom_strategy_logic.
  destruct (rule_chain rs opp _). solve_returns.
Qed.

Create HintDb safe.

#[local] Hint Resolve always_cooperate_safe always_defect_safe tit_for_tat_safe
  suspicious_tit_for_tat_safe grudger_safe random_strategy_safe
  tit_for_two_tats_safe generous_tit_for_tat_10_safe pavlov_safe prober_safe
  majority_safe custom_strategy_safe : safe.

Lemma builtin_registry_safe : registry_game_safe BUILT_IN_STRATEGIES_META.
Proof.
  intros sid meta H. unfold BUILT_IN_STRATEGIES_META in H.
  apply elem_of_list_to_map_2 in H.
  repeat (apply elem_of_cons in H as [H|H];
          [inversion H; subst; simpl; auto with safe|]).
  now apply not_elem_of_nil in H.
Qed.

(** Loading a custom strategy keeps the registry safe. *)
Lemma load_custom_entry_safe reg item :
  registry_game_safe (STRATEGIES reg) ->
  registry_game_safe (STRATEGIES (load_custom_entry reg item)).
Proof.
  intros Hreg. destruct item as [sid [[nm|] [rs|]]]; simpl; try exact Hreg.
  intros sid' meta H.
  destruct (decide (sid = sid')) as [->|Hne].
  - rewrite lookup_insert_eq in H. inversion H; subst. simpl.
    apply custom_strategy_safe.
  - rewrite lookup_insert_ne in H by exact Hne. eapply Hreg; eassumption.
Qed.

(* ------------------------------------------------------------------------- *)
(** ** The invariant of a game *)

(** C10.  [k] calls of [play_round] on a new game.  Whatever round numbers
    the calls are given, once they have returned both histories have length
    [k], each score is the sum of that player's payoffs from [PAYOFFS] over
    the recorded rounds, and the round count, the ids and the two
    probabilities are those the game was constructed with.  The calls do
    return when they are numbered 0, 1, ..., k-1, as [run_game] and the
    single-game stepper number them, and the registered decision functions
    return a move in every game. *)
Theorem play_round_invariant
    (registry : gmap string StrategyMeta) (id1 id2 : string) (N : Z)
    (noise fp : float) (k : nat) (round_numbers : list Z) (s : Rng) :
  length round_numbers = k ->
  (forall g' s',
     play_rounds (Game_init registry id1 id2 N noise fp) round_numbers s
     = (Ok g', s') ->
     length (history1 g') = k /\
     length (history2 g') = k /\
     score1 g' = sumZ (map fst (recorded_payoffs (history1 g') (history2 g'))) /\
     score2 g' = sumZ (map snd (recorded_payoffs (history1 g') (history2 g'))) /\
     num_rounds g' = N /\
     strategy1_id g' = id1 /\ strategy2_id g' = id2 /\
     noise_prob g' = noise /\ forgiveness_prob g' = fp)
  /\
  (registry_game_safe registry ->
   round_numbers = seqZ 0 (Z.of_nat k) ->
   exists g' s',
     play_rounds (Game_init registry id1 id2 N noise fp) round_numbers s
     = (Ok g', s')).
Proof.
  intros Hk. split.
  - intros g' s' H.
    eapply play_rounds_inv in H; [|apply Game_init_recorded].
    destruct H as [(H1 & H2 & H3 & H4) (S1 & S2 & S3 & S4 & S5 & _)].
    rewrite Hk in H1, H2. simpl in *. tauto.
  - intros Hreg ->.
    apply (play_rounds_returns k (Game_init registry id1 id2 N noise fp) s);
      try apply func_or_dummy_safe; auto.
Qed.

Lemma play_round_invariant_witness :
  exists g' s',
    play_rounds (Game_init BUILT_IN_STRATEGIES_META "pavlov" "defect"
                           5 0%float 0%float) [0; 1; 2] rng0 = (Ok g', s') /\
    length (history1 g') = 3%nat /\ length (history2 g') = 3%nat /\
    num_rounds g' = 5.
Proof.
  destruct (play_round_invariant BUILT_IN_STRATEGIES_META "pavlov" "defect"
              5 0%float 0%float 3 [0; 1; 2] rng0 eq_refl) as [Hinv Hret].
  destruct (Hret builtin_registry_safe eq_refl) as (g' & s' & E).
  exists g', s'. split; [exact E|].
  destruct (Hinv g' s' E) as (H1 & H2 & _ & _ & H5 & _). auto.
Defined.

(* ------------------------------------------------------------------------- *)
(** ** Probabilities are taken as given *)

(** C7, as the code has it.  For every noise and forgiveness value, inside
    or outside [0, 1], [Game] stores the value as given and the match runs
    to completion with it: nothing is rejected and nothing is clamped. *)
Theorem probabilities_are_not_validated
    (registry : gmap string StrategyMeta) (p1_id p2_id : string)
    (rounds : Z) (noise fp : float) (s : Rng) :
  registry_game_safe registry ->
  noise_prob (Game_init registry p1_id p2_id rounds noise fp) = noise /\
  forgiveness_prob (Game_init registry p1_id p2_id rounds noise fp) = fp /\
  exists g' out s',
    play_match registry p1_id p2_id rounds noise fp s = (Ok (g', out), s') /\
    noise_prob g' = noise /\ forgiveness_prob g' = fp.
Proof.
  intros Hreg. split; [reflexivity | split; [reflexivity|]].
  destruct (play_match_returns registry p1_id p2_id rounds noise fp s Hreg)
    as (g' & s' & E & Hset).
  eexists g', _, s'. split; [exact E|].
  destruct Hset as (_ & _ & _ & Hn & Hf & _). simpl in Hn, Hf. auto.
Qed.

Lemma probabilities_are_not_validated_witness :
  exists g' out s',
    play_match BUILT_IN_STRATEGIES_META "cooperate" "defect" 3
               1.5%float (-0.5)%float rng0 = (Ok (g', out), s') /\
    noise_prob g' = 1.5%float /\ forgiveness_prob g' = (-0.5)%float.
Proof.
  apply (probabilities_are_not_validated BUILT_IN_STRATEGIES_META
           "cooperate" "defect" 3 1.5%float (-0.5)%float rng0
           builtin_registry_safe).
Defined.

(** C7 as stated fails: with noise probability 1.5 the match is not
    rejected; it runs, every draw is below 1.5, and every move is inverted:
    Always Cooperate is recorded as "DDD" and Always Defect as "CCC". *)
Lemma noise_above_one_is_run :
  PrimFloat.ltb 1%float 1.5%float = true /\
  ~ aborts (play_match BUILT_IN_STRATEGIES_META "cooperate" "defect" 3
                       1.5%float 0%float rng0) /\
  exists g' s',
    play_match BUILT_IN_STRATEGIES_META "cooperate" "defect" 3
               1.5%float 0%float rng0
    = (Ok (g', (15, 0, "DDD"%string, "CCC"%string)), s') /\
    noise_prob g' = 1.5%float.
Proof.
  assert (E : exists g' s',
             play_match BUILT_IN_STRATEGIES_META "cooperate" "defect" 3
                        1.5%float 0%float rng0
             = (Ok (g', (15, 0, "DDD"%string, "CCC"%string)), s') /\
             noise_prob g' = 1.5%float).
  { eexists _, _. split; vm_compute; reflexivity. }
  split; [reflexivity | split; [|exact E]].
  destruct E as (g' & s' & E & _). intros (e & s1 & H).
  rewrite E in H. discriminate H.
Qed.

(* ------------------------------------------------------------------------- *)
(** ** Statistics *)

Lemma update_one_absent reg stats pid s1 s2 :
  reg !! pid = None -> update_one reg stats pid s1 s2 = stats.
Proof.
  intros H. unfold update_one. destruct (is_manual pid); [reflexivity|].
  now rewrite bool_decide_eq_true_2.
Qed.

Lemma update_one_other reg stats pid s1 s2 q :
  q <> pid -> update_one reg stats pid s1 s2 !! q = stats !! q.
Proof.
  intros H. unfold update_one. destruct (is_manual pid); [reflexivity|].
  case_bool_decide; [reflexivity|]. now apply lookup_insert_ne.
Qed.

(** The statistics of an id that is not registered are never touched. *)
Lemma update_player_stats_absent reg stats p1 p2 s1 s2 q :
  reg !! q = None ->
  update_player_stats reg stats p1 p2 s1 s2 !! q = stats !! q.
Proof.
  intros Hq. unfold update_player_stats.
  destruct (decide (q = p2)) as [->|H2].
  - rewrite update_one_absent by exact Hq.
    destruct (decide (p2 = p1)) as [->|H1].
    + now rewrite update_one_absent.
    + now apply update_one_other.
  - rewrite update_one_other by exact H2.
    destruct (decide (q = p1)) as [->|H1].
    + now rewrite update_one_absent.
    + now apply update_one_other.
Qed.

(** A match touches the statistics of its two players only. *)
Lemma update_player_stats_other reg stats p1 p2 s1 s2 q :
  q <> p1 -> q <> p2 ->
  update_player_stats reg stats p1 p2 s1 s2 !! q = stats !! q.
Proof.
  intros H1 H2. unfold update_player_stats.
  rewrite update_one_other by exact H2. now apply update_one_other.
Qed.

(* ------------------------------------------------------------------------- *)
(** ** One match of the bracket *)

Lemma dict_update_ok {St V} (d : gmap string V) k f v (s : St) :
  d !! k = Some v -> dict_update d k f s = (Ok (<[k := f v]> d), s).
Proof. intros H. unfold dict_update. now rewrite H. Qed.

Lemma lift_rng_ok {A} (m : SE Rng A) w a g :
  m (rng w) = (Ok a, g) ->
  lift_rng m w = (Ok a, mkWorld g (PLAYER_STATS w)).
Proof. intros H. unfold lift_rng. now rewrite H. Qed.

(** A bracket match between two keys of [full_ranking_data] returns: the
    winner is one of the two players and goes to the next round, one item
    is appended to the match log, the keys of the ranking table stay the
    same, and the statistics are those [update_player_stats] computes. *)
Lemma elimination_match_returns reg rounds noise fp rn v p1 p2 w :
  registry_game_safe reg ->
  p1 ∈ dom (full_ranking_data v) ->
  p2 ∈ dom (full_ranking_data v) ->
  exists g' v' w' winner,
    play_match reg p1 p2 rounds noise fp (rng w)
    = (Ok (g', (score1 g', score2 g', join (history1 g'), join (history2 g'))),
       rng w') /\
    elimination_match reg rounds noise fp rn v (p1, p2) w = (Ok v', w') /\
    (winner = p1 \/ winner = p2) /\
    next_round v' = next_round v ++ [winner] /\
    all_matches_data v' = all_matches_data v ++
      [mkMatchData "Tournament Elimination" p1 p2 (score1 g') (score2 g')
                   (join (history1 g')) (join (history2 g'))] /\
    dom (full_ranking_data v') = dom (full_ranking_data v) /\
    PLAYER_STATS w'
    = update_player_stats reg (PLAYER_STATS w) p1 p2 (score1 g') (score2 g').
Proof.
  intros Hreg H1 H2.
  destruct (play_match_returns reg p1 p2 rounds noise fp (rng w) Hreg)
    as (g' & s' & E & _).
  apply elem_of_dom in H1 as [e1 E1].
  set (d1 := <[p1 := add_game (score1 g') e1]> (full_ranking_data v)).
  assert (D1 : dom d1 = dom (full_ranking_data v)).
  { unfold d1. apply dom_insert_lookup_L. eauto. }
  assert (H2' : p2 ∈ dom d1) by now rewrite D1.
  apply elem_of_dom in H2' as [e2 E2].
  set (d2 := <[p2 := add_game (score2 g') e2]> d1).
  assert (D2 : dom d2 = dom (full_ranking_data v)).
  { unfold d2. rewrite dom_insert_lookup_L by eauto. exact D1. }
  set (winner := if score2 g' <=? score1 g' then p1 else p2).
  set (loser := if String.eqb winner p1 then p2 else p1).
  assert (Hw : winner = p1 \/ winner = p2).
  { unfold winner. destruct (_ <=? _); auto. }
  assert (Hl : loser ∈ dom d2).
  { rewrite D2. unfold loser.
    destruct (String.eqb winner p1); apply elem_of_dom; [|eauto].
    assert (p2 ∈ dom d1) as Hp by (apply elem_of_dom; eauto).
    rewrite D1 in Hp. now apply elem_of_dom in Hp. }
  apply elem_of_dom in Hl as [e3 E3].
  eexists g', _, (mkWorld s' (update_player_stats reg (PLAYER_STATS w) p1 p2
                              (score1 g') (score2 g'))), winner.
  split; [exact E|]. split.
  - unfold elimination_match. cbv beta iota.
    erewrite bind_ok by (apply lift_rng_ok; exact E).
    cbn [snd]. cbv beta iota.
    erewrite bind_ok by (apply dict_update_ok; exact E1).
    erewrite bind_ok by (apply dict_update_ok; exact E2).
    erewrite bind_ok by reflexivity.
    erewrite bind_ok by (apply dict_update_ok; exact E3).
    reflexivity.
  - simpl. repeat split; try assumption; try reflexivity.
    rewrite dom_insert_lookup_L by eauto. exact D2.
Qed.

(* ------------------------------------------------------------------------- *)
(** ** The bracket *)

Lemma list_pair_ind {A} (P : list A -> Prop) :
  P [] -> (forall a, P [a]) -> (forall a b t, P t -> P (a :: b :: t)) ->
  forall l, P l.
Proof.
  intros H0 H1 H2.
  assert (H : forall l, P l /\ forall a, P (a :: l)).
  { induction l as [|x l [IH1 IH2]]; split; auto. }
  intros l. apply H.
Qed.

(** Membership in an explicit list. *)
Ltac solve_elem :=
  repeat first [ assumption
               | apply list_elem_of_here
               | apply list_elem_of_further ].

Lemma consecutive_pairs_cons2 {A} (a b : A) t :
  consecutive_pairs (a :: b :: t) = (a, b) :: consecutive_pairs t.
Proof. destruct t; reflexivity. Qed.

(** A list of [n] elements gives [n // 2] matchups. *)
Lemma consecutive_pairs_length {A} (l : list A) :
  length l = (2 * length (consecutive_pairs l) + length l mod 2)%nat.
Proof.
  induction l as [| a | a b t IH] using list_pair_ind; try reflexivity.
  rewrite consecutive_pairs_cons2. simpl length.
  replace (Datatypes.S (Datatypes.S (length t))) with (length t + 1 * 2)%nat
    by lia.
  rewrite Nat.Div0.mod_add. lia.
Qed.

Lemma consecutive_pairs_elem {A} (l : list A) a b :
  (a, b) ∈ consecutive_pairs l -> a ∈ l /\ b ∈ l.
Proof.
  induction l as [| x | x y t IH] using list_pair_ind.
  - intros H. now apply not_elem_of_nil in H.
  - intros H. now apply not_elem_of_nil in H.
  - rewrite consecutive_pairs_cons2. intros H.
    apply elem_of_cons in H as [H|H].
    + inversion H; subst. split; solve_elem.
    + apply IH in H as [Ha Hb]. split; solve_elem.
Qed.

(** The matches of one round: they all return; one winner per match goes
    to the next round, one item per match goes to the log. *)
Lemma for_each_matches reg rounds noise fp rn : forall l v w,
  registry_game_safe reg ->
  (forall a b, (a, b) ∈ l ->
     a ∈ dom (full_ranking_data v) /\ b ∈ dom (full_ranking_data v)) ->
  exists v' w' winners,
    for_each (elimination_match reg rounds noise fp rn) l v w = (Ok v', w') /\
    next_round v' = next_round v ++ winners /\
    length winners = length l /\
    (forall x, x ∈ winners -> exists a b, (a, b) ∈ l /\ (x = a \/ x = b)) /\
    length (all_matches_data v') = (length (all_matches_data v) + length l)%nat /\
    dom (full_ranking_data v') = dom (full_ranking_data v).
Proof.
  induction l as [|[a b] l IH]; intros v w Hreg Hdom.
  - exists v, w, []. simpl. rewrite app_nil_r, Nat.add_0_r.
    repeat split; try reflexivity. intros x Hx. now apply not_elem_of_nil in Hx.
  - destruct (Hdom a b) as [Ha Hb]; [solve_elem|].
    destruct (elimination_match_returns reg rounds noise fp rn v a b w
                Hreg Ha Hb)
      as (g' & v1 & w1 & win & _ & E & Hwin & Hnext & Hlog & Hd & _).
    destruct (IH v1 w1 Hreg) as (v2 & w2 & wins & E2 & Hn2 & Hl2 & Hw2 & Hm2 & Hd2).
    { intros x y Hxy. rewrite Hd. apply Hdom. solve_elem. }
    exists v2, w2, (win :: wins). simpl for_each.
    erewrite bind_ok by exact E. split; [exact E2|].
    split; [rewrite Hn2, Hnext, <- app_assoc; reflexivity|].
    split; [simpl; lia|]. split.
    + intros x Hx. apply elem_of_cons in Hx as [->|Hx].
      * exists a, b. split; [solve_elem | exact Hwin].
      * destruct (Hw2 x Hx) as (c & d & Hcd & Hor).
        exists c, d. split; [solve_elem | exact Hor].
    + split; [|congruence].
      rewrite Hm2, Hlog, length_app. simpl. lia.
Qed.

(** One round of the bracket with at least two participants, all of them
    keys of the ranking table. *)
Lemma elimination_round_returns reg rounds noise fp s w :
  registry_game_safe reg ->
  (2 <= length (current_round_participants s))%nat ->
  (forall x, x ∈ current_round_participants s -> x ∈ dom (ranking s)) ->
  exists s' w',
    elimination_round reg rounds noise fp s w = (Ok s', w') /\
    (1 <= length (current_round_participants s')
     < length (current_round_participants s))%nat /\
    (length (current_round_participants s') + length (matches s')
     = length (current_round_participants s) + length (matches s))%nat /\
    round_num s' = round_num s + 1 /\
    status_log s' = status_log s ++
                    [(round_num s, length (current_round_participants s))] /\
    (forall x, x ∈ current_round_participants s' ->
               x ∈ current_round_participants s) /\
    dom (ranking s') = dom (ranking s).
Proof.
  intros Hreg Hlen Hdom. unfold elimination_round.
  set (cur := current_round_participants s) in *.
  pose proof (Nat.mod_upper_bound (length cur) 2 ltac:(lia)) as Hm.
  destruct (negb (length cur mod 2 =? 0)%nat) eqn:Hodd.
  - (* a bye *)
    apply negb_true_iff, Nat.eqb_neq in Hodd.
    destruct cur as [|bye rest] eqn:Hcur; [simpl in Hlen; lia|].
    pose proof (consecutive_pairs_length rest) as Hp.
    pose proof (consecutive_pairs_length (bye :: rest)) as Hq.
    pose proof (Nat.mod_upper_bound (length rest) 2 ltac:(lia)) as Hm'.
    simpl length in *.
    edestruct (for_each_matches reg rounds noise fp (round_num s)
                 (consecutive_pairs rest)
                 {| next_round := [bye]; eliminated_this_round := [];
                    full_ranking_data := ranking s;
                    all_matches_data := matches s |} w Hreg)
      as (v' & w' & wins & E & Hn & Hl & Hw & Hmt & Hd).
    { intros a b Hab. apply consecutive_pairs_elem in Hab as [Ha Hb].
      simpl. split; apply Hdom; solve_elem. }
    simpl in Hn, Hmt, Hd.
    eexists _, w'. split; [erewrite bind_ok by exact E; reflexivity|].
    simpl. rewrite Hn, Hmt. simpl length. rewrite Hl.
    repeat split; try lia; try assumption.
    intros x Hx. apply elem_of_cons in Hx as [->|Hx]; [solve_elem|].
    destruct (Hw x Hx) as (a & b & Hab & Hor).
    apply consecutive_pairs_elem in Hab as [Ha Hb].
    destruct Hor as [-> | ->]; solve_elem.
  - (* no bye *)
    apply negb_false_iff, Nat.eqb_eq in Hodd.
    pose proof (consecutive_pairs_length cur) as Hp.
    edestruct (for_each_matches reg rounds noise fp (round_num s)
                 (consecutive_pairs cur)
                 {| next_round := []; eliminated_this_round := [];
                    full_ranking_data := ranking s;
                    all_matches_data := matches s |} w Hreg)
      as (v' & w' & wins & E & Hn & Hl & Hw & Hmt & Hd).
    { intros a b Hab. apply consecutive_pairs_elem in Hab as [Ha Hb].
      simpl. split; apply Hdom; assumption. }
    simpl in Hn, Hmt, Hd.
    eexists _, w'. split; [erewrite bind_ok by exact E; reflexivity|].
    simpl. rewrite Hn, Hmt, Hl.
    repeat split; try lia; try assumption.
    intros x Hx. destruct (Hw x Hx) as (a & b & Hab & Hor).
    apply consecutive_pairs_elem in Hab as [Ha Hb].
    destruct Hor as [-> | ->]; assumption.
Qed.

(** The invariant of the [while] loop: the participants are keys of the
    ranking table, [round_num] is one more than the number of rounds
    announced so far, and the announced round numbers are 1, 2, ... *)
Lemma elimination_loop_returns reg rounds noise fp : forall fuel s w,
  registry_game_safe reg ->
  (1 <= length (current_round_participants s) <= fuel)%nat ->
  (forall x, x ∈ current_round_participants s -> x ∈ dom (ranking s)) ->
  round_num s = Z.of_nat (length (status_log s)) + 1 ->
  map fst (status_log s) = seqZ 1 (Z.of_nat (length (status_log s))) ->
  exists s' w',
    elimination_loop reg rounds noise fp fuel s w = (Ok s', w') /\
    length (current_round_participants s') = 1%nat /\
    (length (current_round_participants s') + length (matches s')
     = length (current_round_participants s) + length (matches s))%nat /\
    round_num s' = Z.of_nat (length (status_log s')) + 1 /\
    map fst (status_log s') = seqZ 1 (Z.of_nat (length (status_log s'))) /\
    (forall x, x ∈ current_round_participants s' ->
               x ∈ current_round_participants s) /\
    dom (ranking s') = dom (ranking s).
Proof.
  induction fuel as [|fuel IH]; intros s w Hreg Hlen Hdom Hrn Hst.
  - lia.
  - simpl elimination_loop.
    destruct (length (current_round_participants s) <=? 1)%nat eqn:Hle.
    + apply Nat.leb_le in Hle. exists s, w. unfold ret.
      repeat split; auto; lia.
    + apply Nat.leb_gt in Hle.
      destruct (elimination_round_returns reg rounds noise fp s w Hreg
                  ltac:(lia) Hdom)
        as (s1 & w1 & E & Hl1 & Hsum1 & Hrn1 & Hst1 & Hsub1 & Hd1).
      destruct (IH s1 w1 Hreg) as (s2 & w2 & E2 & Hone & Hsum2 & Hrn2 & Hst2
                                   & Hsub2 & Hd2).
      * lia.
      * intros x Hx. rewrite Hd1. apply Hdom, Hsub1, Hx.
      * rewrite Hrn1, Hst1, length_app, Hrn. simpl. lia.
      * rewrite Hst1, map_app, length_app, Hst. simpl.
        rewrite Nat2Z.inj_add, seqZ_app by lia. simpl.
        rewrite Hrn. f_equal. rewrite seqZ_cons, seqZ_nil by lia.
        f_equal. lia.
      * exists s2, w2. erewrite bind_ok by exact E.
        split; [exact E2|]. repeat split; auto; try lia; try congruence.
Qed.

(** *** Sorting permutes *)

Lemma insert_sorted_perm {A} (before : A -> A -> bool) x l :
  insert_sorted before x l ≡ₚ x :: l.
Proof.
  induction l as [|y t IH]; simpl; [reflexivity|].
  destruct (before y x); [|reflexivity].
  rewrite IH. apply Permutation_swap.
Qed.

Lemma stable_sort_perm {A} (before : A -> A -> bool) l :
  stable_sort before l ≡ₚ l.
Proof.
  induction l as [|x l IH]; simpl; [reflexivity|].
  rewrite insert_sorted_perm. now rewrite IH.
Qed.

Lemma sorted_by_perm {A K} (lt : K -> K -> bool) (key : A -> K) rev l :
  sorted_by lt key rev l ≡ₚ l.
Proof. unfold sorted_by. destruct rev; apply stable_sort_perm. Qed.

(** The keys of the initial ranking table are the participants. *)
Lemma initial_ranking_dom (participants : list string) x :
  x ∈ participants ->
  x ∈ dom (list_to_map (map (fun p_id => (p_id, mkRank 0 0 Inf)) participants)
           : gmap string RankEntry).
Proof.
  intros Hx. rewrite dom_list_to_map_L.
  apply elem_of_list_to_set. rewrite map_map. simpl.
  rewrite map_id. exact Hx.
Qed.

(** The Elimination branch on a non-empty list of non-empty ids. *)
Lemma run_elimination_returns reg rounds noise fp participants w :
  registry_game_safe reg ->
  (1 <= length participants)%nat ->
  Forall (fun p => p <> ""%string) participants ->
  exists r w' win e,
    run_elimination reg rounds noise fp participants w = (Ok r, w') /\
    length (matches (final_state r)) = (length participants - 1)%nat /\
    current_round_participants (final_state r) = [win] /\
    winner_id r = Some win /\
    win ∈ participants /\
    ranking (final_state r) !! win = Some e /\
    elim_round e
    = Round (Z.of_nat (length (status_log (final_state r))) + 1) /\
    map fst (status_log (final_state r))
    = seqZ 1 (Z.of_nat (length (status_log (final_state r)))).
Proof.
  intros Hreg Hlen Hne. unfold run_elimination.
  edestruct (elimination_loop_returns reg rounds noise fp (length participants)
               {| current_round_participants := participants;
                  round_num := 1;
                  ranking := list_to_map
                    (map (fun p_id => (p_id, mkRank 0 0 Inf)) participants);
                  matches := [];
                  status_log := [] |} w Hreg)
    as (s & w' & E & Hone & Hsum & Hrn & Hst & Hsub & Hd);
    try (simpl; first [lia | reflexivity]).
  { simpl. intros x Hx. now apply initial_ranking_dom. }
  simpl in Hsum, Hsub, Hd.
  erewrite bind_ok by exact E.
  destruct (current_round_participants s) as [|win [|? ?]] eqn:Hcur;
    simpl in Hone; try lia.
  cbn [head]. cbv beta iota zeta.
  assert (Hin : win ∈ participants) by (apply Hsub; left).
  assert (Hwne : win <> ""%string).
  { rewrite Forall_forall in Hne. apply Hne. exact Hin. }
  apply String.eqb_neq in Hwne. rewrite Hwne.
  assert (Hk : win ∈ dom (ranking s)).
  { rewrite Hd. now apply initial_ranking_dom. }
  apply elem_of_dom in Hk as [e0 E0].
  erewrite bind_ok by (apply dict_update_ok; exact E0).
  eexists _, w', win, _. split; [reflexivity|]. simpl.
  rewrite lookup_insert_eq.
  repeat split; try assumption.
  - simpl in Hsum. lia.
  - simpl. now rewrite Hrn.
Qed.

(** A Single Elimination tournament over [n >= 2] participants whose ids
    are non-empty strings, with or without seeding: the run returns;
    exactly [n - 1] items are in the match log; exactly one participant
    remains and is the declared winner; the elimination round recorded for
    the winner is the number of bracket rounds played plus one.  The rounds
    played are those announced in the status bar, numbered 1, 2, ... in
    order.  The registered decision functions return a move in every
    game. *)
Theorem single_elimination_bracket
    (registry : gmap string StrategyMeta) (rounds_per_game : Z)
    (noise fp : float) (participants : list string) (use_seeding : bool)
    (w : World) :
  registry_game_safe registry ->
  (2 <= length participants)%nat ->
  Forall (fun p => p <> ""%string) participants ->
  exists r w' win e,
    run_tournament_elimination registry rounds_per_game noise fp
                               participants use_seeding w
    = (Ok (Finished r), w') /\
    length (matches (final_state r)) = (length participants - 1)%nat /\
    current_round_participants (final_state r) = [win] /\
    winner_id r = Some win /\
    win ∈ participants /\
    ranking (final_state r) !! win = Some e /\
    elim_round e
    = Round (Z.of_nat (length (status_log (final_state r))) + 1) /\
    map fst (status_log (final_state r))
    = seqZ 1 (Z.of_nat (length (status_log (final_state r)))).
Proof.
  intros Hreg Hlen Hne. unfold run_tournament_elimination.
  destruct (length participants <? 2)%nat eqn:Hlt;
    [apply Nat.ltb_lt in Hlt; lia|].
  set (ps := if use_seeding
             then sorted_by String.ltb (seeding_key registry) false participants
             else participants).
  assert (Hperm : ps ≡ₚ participants).
  { unfold ps. destruct use_seeding; [apply sorted_by_perm | reflexivity]. }
  destruct (run_elimination_returns registry rounds_per_game noise fp ps w Hreg)
    as (r & w' & win & e & E & Hm & Hcur & Hwin & Hin & Hrank & Hround & Hst).
  { rewrite Hperm. lia. }
  { now rewrite Hperm. }
  exists r, w', win, e. erewrite bind_ok by exact E.
  rewrite Hperm in Hm, Hin.
  repeat split; assumption.
Qed.

Lemma single_elimination_bracket_witness :
  exists r w' win e,
    run_tournament_elimination BUILT_IN_STRATEGIES_META 10 0%float 0%float
      ["tit_for_tat"; "defect"; "cooperate"; "grudger"; "pavlov"]%string
      true world0
    = (Ok (Finished r), w') /\
    length (matches (final_state r)) = 4%nat /\
    current_round_participants (final_state r) = [win] /\
    winner_id r = Some win /\
    ranking (final_state r) !! win = Some e /\
    elim_round e
    = Round (Z.of_nat (length (status_log (final_state r))) + 1).
Proof.
  destruct (single_elimination_bracket BUILT_IN_STRATEGIES_META 10
              0%float 0%float
              ["tit_for_tat"; "defect"; "cooperate"; "grudger"; "pavlov"]%string
              true world0 builtin_registry_safe)
    as (r & w' & win & e & H1 & H2 & H3 & H4 & _ & H6 & H7 & _).
  - simpl. lia.
  - repeat constructor; discriminate.
  - exists r, w', win, e. repeat split; assumption.
Defined.

(* ------------------------------------------------------------------------- *)
(** ** Ids that are not registered *)

(** C1 as stated fails: "ghost" is not registered; the match "ghost"
    against Always Defect is not aborted, and neither is the tournament of
    the two: the match is played with "ghost" cooperating, its result is
    in the tournament's match log, Always Defect is the winner, and the
    statistics hold the result of Always Defect and nothing for "ghost". *)
Lemma absent_id_does_not_abort :
  BUILT_IN_STRATEGIES_META !! "ghost"%string = None /\
  ~ aborts (play_match BUILT_IN_STRATEGIES_META "ghost" "defect" 5
                       0%float 0%float rng0) /\
  ~ aborts (run_tournament_elimination BUILT_IN_STRATEGIES_META 5
              0%float 0%float ["ghost"; "defect"]%string false world0) /\
  exists r w',
    run_tournament_elimination BUILT_IN_STRATEGIES_META 5 0%float 0%float
      ["ghost"; "defect"]%string false world0 = (Ok (Finished r), w') /\
    matches (final_state r)
    = [mkMatchData "Tournament Elimination" "ghost" "defect" 0 25
                   "CCCCC" "DDDDD"] /\
    winner_id r = Some "defect"%string /\
    PLAYER_STATS w' !! "ghost"%string = None /\
    PLAYER_STATS w' !! "defect"%string = Some (mkStat 1 0 0 25 1).
Proof.
  assert (E1 : exists out s',
             play_match BUILT_IN_STRATEGIES_META "ghost" "defect" 5
                        0%float 0%float rng0 = (Ok out, s')).
  { eexists _, _. vm_compute. reflexivity. }
  assert (E2 : exists r w',
             run_tournament_elimination BUILT_IN_STRATEGIES_META 5
               0%float 0%float ["ghost"; "defect"]%string false world0
             = (Ok (Finished r), w') /\
             matches (final_state r)
             = [mkMatchData "Tournament Elimination" "ghost" "defect" 0 25
                            "CCCCC" "DDDDD"] /\
             winner_id r = Some "defect"%string /\
             PLAYER_STATS w' !! "ghost"%string = None /\
             PLAYER_STATS w' !! "defect"%string = Some (mkStat 1 0 0 25 1)).
  { eexists _, _.
    split; [vm_compute; reflexivity|].
    split; [vm_compute; reflexivity|].
    split; [vm_compute; reflexivity|].
    split; vm_compute; reflexivity. }
  split; [vm_compute; reflexivity|]. split; [|split; [|exact E2]].
  - destruct E1 as (out & s' & E1). intros (e & s1 & H).
    rewrite E1 in H. discriminate H.
  - destruct E2 as (r & w' & E2 & _). intros (e & s1 & H).
    rewrite E2 in H. discriminate H.
Qed.

(* ------------------------------------------------------------------------- *)
(** ** The group ranking *)

Section StableSortSorted.
Context {A : Type} (before : A -> A -> bool) (R : A -> A -> Prop).
Hypothesis not_before : forall x y, before y x = false -> R x y.
Hypothesis before_R : forall x y, before y x = true -> R y x.
Hypothesis R_trans : forall x y z, R x y -> R y z -> R x z.

Lemma insert_sorted_Forall (P : A -> Prop) x l :
  P x -> Forall P l -> Forall P (insert_sorted before x l).
Proof.
  intros Hx Hl. induction Hl as [|y t Hy Ht IH]; simpl.
  - constructor; [exact Hx | constructor].
  - destruct (before y x); repeat constructor; auto.
Qed.

Lemma insert_sorted_sorted x l :
  StronglySorted R l -> StronglySorted R (insert_sorted before x l).
Proof.
  induction 1 as [|y t Hs IH Hall]; simpl.
  - repeat constructor.
  - destruct (before y x) eqn:E.
    + constructor; [exact IH|].
      apply insert_sorted_Forall; [now apply before_R | exact Hall].
    + constructor; [now constructor|].
      constructor; [now apply not_before|].
      eapply Forall_impl; [exact Hall|].
      intros z Hz. eapply R_trans; [apply not_before; exact E | exact Hz].
Qed.

Lemma stable_sort_sorted l : StronglySorted R (stable_sort before l).
Proof.
  induction l as [|x l IH]; simpl; [constructor|].
  now apply insert_sorted_sorted.
Qed.
End StableSortSorted.

Lemma string_ltb_leb a b : String.ltb a b = negb (String.leb b a).
Proof.
  unfold String.ltb, String.leb. rewrite (String.compare_antisym b a).
  destruct (String.compare a b); reflexivity.
Qed.

(** A key is not below another one exactly when it ranks before it. *)
Lemma tuple_lt_false_iff reg scores a b :
  tuple_lt (group_key reg scores a) (group_key reg scores b) = false
  <-> ranks_before reg scores a b.
Proof.
  unfold ranks_before, tuple_lt.
  destruct (group_key reg scores a) as [sa na].
  destruct (group_key reg scores b) as [sb nb]. simpl.
  rewrite orb_false_iff, andb_false_iff, Z.ltb_ge, Z.eqb_neq.
  rewrite string_ltb_leb, negb_false_iff. unfold String.le.
  rewrite Is_true_true. split.
  - intros [Hge [Hne | Hle]].
    + left. lia.
    + destruct (Z.eq_dec sa sb) as [->|Hne]; [right; auto | left; lia].
  - intros [Hlt | [-> Hle]].
    + split; [lia | left; lia].
    + split; [lia | right; exact Hle].
Qed.

Lemma ranks_before_trans reg scores a b c :
  ranks_before reg scores a b -> ranks_before reg scores b c ->
  ranks_before reg scores a c.
Proof.
  unfold ranks_before.
  destruct (group_key reg scores a) as [sa na].
  destruct (group_key reg scores b) as [sb nb].
  destruct (group_key reg scores c) as [sc nc]. simpl.
  intros [H1 | [-> H1]] [H2 | [-> H2]]; try (left; lia).
  right. split; [reflexivity|]. now transitivity nb.
Qed.

Lemma ranks_before_total reg scores a b :
  ranks_before reg scores a b \/ ranks_before reg scores b a.
Proof.
  unfold ranks_before.
  destruct (group_key reg scores a) as [sa na].
  destruct (group_key reg scores b) as [sb nb]. simpl.
  destruct (Z.lt_trichotomy sa sb) as [H | [-> | H]]; try (left; left; lia);
    try (right; left; lia).
  destruct (total String.le na nb); [right | left]; right; auto.
Qed.

Lemma group_ranked_sorted reg scores group :
  StronglySorted (ranks_before reg scores) (group_ranked reg scores group).
Proof.
  unfold group_ranked, sorted_by. apply stable_sort_sorted.
  - intros x y H. now apply tuple_lt_false_iff.
  - intros x y H.
    destruct (ranks_before_total reg scores y x) as [Hyx | Hxy];
      [exact Hyx|].
    apply tuple_lt_false_iff in Hxy. congruence.
  - apply ranks_before_trans.
Qed.

(** C5 as stated fails: the group of Always Cooperate and Tit for Tat plays
    its round robin of 10 rounds; both score 30; "Always Cooperate" is
    before "Tit for Tat (TFT)" in lexicographic order, and Tit for Tat is
    ranked first and is the group's qualifier. *)
Lemma group_tie_ranks_greater_name_first :
  exists v' w',
    run_group BUILT_IN_STRATEGIES_META 10 0%float 0%float 1 no_scores
              ["cooperate"; "tit_for_tat"]%string world0
    = (Ok (v', ["tit_for_tat"%string]), w') /\
    group_stage_scores v' !! "cooperate"%string = Some 30 /\
    group_stage_scores v' !! "tit_for_tat"%string = Some 30 /\
    String.ltb (name_or_id BUILT_IN_STRATEGIES_META "cooperate")
               (name_or_id BUILT_IN_STRATEGIES_META "tit_for_tat") = true /\
    group_ranked BUILT_IN_STRATEGIES_META (group_stage_scores v')
                 ["cooperate"; "tit_for_tat"]%string
    = ["tit_for_tat"; "cooperate"]%string.
Proof.
  eexists _, _.
  split; [vm_compute; reflexivity|].
  split; [vm_compute; reflexivity|].
  split; [vm_compute; reflexivity|].
  split; vm_compute; reflexivity.
Qed.


(* ------------------------------------------------------------------------- *)
(** ** Recorded rounds can be read back *)

Lemma record_round_history1 g m1 m2 :
  history1 (record_round g m1 m2) = history1 g ++ [m1].
Proof. unfold record_round. now destruct (PAYOFFS m1 m2). Qed.

Lemma record_round_history2 g m1 m2 :
  history2 (record_round g m1 m2) = history2 g ++ [m2].
Proof. unfold record_round. now destruct (PAYOFFS m1 m2). Qed.

Lemma record_round_score1 g m1 m2 :
  score1 (record_round g m1 m2) = score1 g + fst (PAYOFFS m1 m2).
Proof. unfold record_round. now destruct (PAYOFFS m1 m2). Qed.

Lemma record_round_score2 g m1 m2 :
  score2 (record_round g m1 m2) = score2 g + snd (PAYOFFS m1 m2).
Proof. unfold record_round. now destruct (PAYOFFS m1 m2). Qed.

Lemma get_round_data_Some g r x :
  get_round_data g r = Some x ->
  0 <= r < Z.of_nat (length (history1 g)) /\
  exists m1 m2,
    history1 g !! Z.to_nat r = Some m1 /\ history2 g !! Z.to_nat r = Some m2 /\
    x = (m1, m2, fst (PAYOFFS m1 m2), snd (PAYOFFS m1 m2)).
Proof.
  unfold get_round_data.
  destruct ((0 <=? r) && (r <? Z.of_nat (length (history1 g)))) eqn:E;
    [|discriminate].
  apply andb_true_iff in E as [E1 E2].
  apply Z.leb_le in E1. apply Z.ltb_lt in E2.
  destruct (history1 g !! Z.to_nat r) as [m1|] eqn:H1; [|discriminate].
  destruct (history2 g !! Z.to_nat r) as [m2|] eqn:H2; [|discriminate].
  intros H. inversion H; subst. split; [lia|]. eauto.
Qed.

(** X1.  Round trip of a round.  After a [play_round] call that returned
    [(m1, m2, p1, p2)] on a game whose histories have the same length [k],
    [get_round_data] at index [k] returns that tuple, and it returns for
    every earlier round what it returned before the call. *)
Theorem get_round_data_after_play_round
    (g g' : Game) (round_number : Z) (out : Move * Move * Z * Z)
    (s s' : Rng) :
  length (history1 g) = length (history2 g) ->
  play_round g round_number s = (Ok (g', out), s') ->
  get_round_data g' (Z.of_nat (length (history1 g))) = Some out /\
  (forall r x, get_round_data g r = Some x -> get_round_data g' r = Some x).
Proof.
  intros Hlen H. apply play_round_inv in H as (m1 & m2 & -> & ->).
  split.
  - unfold get_round_data, History.
    rewrite record_round_history1, record_round_history2, length_app.
    simpl length. rewrite Nat2Z.id.
    replace ((0 <=? Z.of_nat (length (history1 g)))
             && (Z.of_nat (length (history1 g))
                 <? Z.of_nat (length (history1 g) + 1)))
      with true by (symmetry; apply andb_true_iff; split;
                    [apply Z.leb_le | apply Z.ltb_lt]; lia).
    assert ((history1 g ++ [m1]) !! length (history1 g) = Some m1) as ->
      by now apply list_lookup_middle.
    assert ((history2 g ++ [m2]) !! length (history1 g) = Some m2) as ->
      by now apply list_lookup_middle.
    reflexivity.
  - intros r x Hx. apply get_round_data_Some in Hx
      as (Hr & a & b & Ha & Hb & ->).
    unfold get_round_data, History in *.
    rewrite record_round_history1, record_round_history2, length_app.
    simpl length.
    replace ((0 <=? r) && (r <? Z.of_nat (length (history1 g) + 1)))
      with true by (symmetry; apply andb_true_iff; split;
                    [apply Z.leb_le | apply Z.ltb_lt]; lia).
    rewrite lookup_app_l by (apply lookup_lt_is_Some; eauto).
    rewrite lookup_app_l by (apply lookup_lt_is_Some; eauto).
    now rewrite Ha, Hb.
Qed.

Lemma get_round_data_after_play_round_witness :
  exists g' out s',
    play_round (Game_init BUILT_IN_STRATEGIES_META "tit_for_tat" "defect"
                          5 0%float 0%float) 0 rng0 = (Ok (g', out), s') /\
    get_round_data g' 0 = Some out.
Proof.
  assert (E : exists g' out s',
             play_round (Game_init BUILT_IN_STRATEGIES_META "tit_for_tat"
                           "defect" 5 0%float 0%float) 0 rng0
             = (Ok (g', out), s')).
  { eexists _, _, _. vm_compute. reflexivity. }
  destruct E as (g' & out & s' & E). exists g', out, s'.
  split; [exact E|].
  destruct (get_round_data_after_play_round
              (Game_init BUILT_IN_STRATEGIES_META "tit_for_tat" "defect"
                         5 0%float 0%float) g' 0 out rng0 s' eq_refl E)
    as [H _].
  exact H.
Defined.

(** X2.  The rounds that can be read.  On a game reached from a new game
    by [k] calls of [play_round], [get_round_data] returns a round exactly
    for the indices [0 <= r < k]; for every other index, negative ones
    included, it returns no data. *)
Theorem get_round_data_range
    (registry : gmap string StrategyMeta) (id1 id2 : string) (N : Z)
    (noise fp : float) (round_numbers : list Z) (s s' : Rng) (g' : Game)
    (r : Z) :
  play_rounds (Game_init registry id1 id2 N noise fp) round_numbers s
  = (Ok g', s') ->
  (is_Some (get_round_data g' r)
   <-> 0 <= r < Z.of_nat (length round_numbers)).
Proof.
  intros H. eapply play_rounds_inv in H; [|apply Game_init_recorded].
  destruct H as [(H1 & H2 & _) _]. simpl in H1, H2. split.
  - intros [x Hx]. apply get_round_data_Some in Hx as [Hr _].
    rewrite H1 in Hr. exact Hr.
  - intros Hr. unfold get_round_data, History. rewrite H1.
    replace ((0 <=? r) && (r <? Z.of_nat (length round_numbers)))
      with true by (symmetry; apply andb_true_iff; split;
                    [apply Z.leb_le | apply Z.ltb_lt]; lia).
    destruct (lookup_lt_is_Some_2 (history1 g') (Z.to_nat r)) as [m1 ->];
      [lia|].
    destruct (lookup_lt_is_Some_2 (history2 g') (Z.to_nat r)) as [m2 ->];
      [lia|].
    eauto.
Qed.

Lemma get_round_data_range_witness :
  exists g' s',
    play_rounds (Game_init BUILT_IN_STRATEGIES_META "tit_for_tat" "defect"
                           5 0%float 0%float) [0; 1; 2] rng0 = (Ok g', s') /\
    is_Some (get_round_data g' 2) /\ ~ is_Some (get_round_data g' 3) /\
    ~ is_Some (get_round_data g' (-1)).
Proof.
  assert (E : exists g' s',
             play_rounds (Game_init BUILT_IN_STRATEGIES_META "tit_for_tat"
                            "defect" 5 0%float 0%float) [0; 1; 2] rng0
             = (Ok g', s')).
  { eexists _, _. vm_compute. reflexivity. }
  destruct E as (g' & s' & E). exists g', s'. split; [exact E|].
  pose proof (fun r => get_round_data_range _ _ _ _ _ _ _ _ _ _ r E) as H.
  simpl length in H. split; [|split].
  - apply H. lia.
  - intros C. apply H in C. lia.
  - intros C. apply H in C. lia.
Defined.

(** X3.  [get_current_state] after a round.  After a [play_round] call
    that returned [(m1, m2, p1, p2)], the current state holds the scores
    increased by [p1] and [p2], [m1] and [m2] as the last moves, and one
    round more than before. *)
Theorem get_current_state_after_play_round
    (g g' : Game) (round_number : Z) (m1 m2 : Move) (p1 p2 : Z)
    (s s' : Rng) :
  play_round g round_number s = (Ok (g', (m1, m2, p1, p2)), s') ->
  get_current_state g'
  = (score1 g + p1, score2 g + p2, Some m1, Some m2,
     Datatypes.S (length (history1 g))).
Proof.
  intros H. apply play_round_inv in H as (a & b & -> & Hout).
  inversion Hout; subst. unfold get_current_state.
  rewrite record_round_history1, record_round_history2,
          record_round_score1, record_round_score2, !last_snoc, length_app.
  simpl length. repeat f_equal. lia.
Qed.

Lemma get_current_state_after_play_round_witness :
  exists g' s',
    play_round (Game_init BUILT_IN_STRATEGIES_META "tit_for_tat" "defect"
                          5 0%float 0%float) 0 rng0
    = (Ok (g', (COOPERATE, DEFECT, 0, 5)), s') /\
    get_current_state g' = (0, 5, Some COOPERATE, Some DEFECT, 1%nat).
Proof.
  assert (E : exists g' s',
             play_round (Game_init BUILT_IN_STRATEGIES_META "tit_for_tat"
                           "defect" 5 0%float 0%float) 0 rng0
             = (Ok (g', (COOPERATE, DEFECT, 0, 5)), s')).
  { eexists _, _. vm_compute. reflexivity. }
  destruct E as (g' & s' & E). exists g', s'. split; [exact E|].
  apply (get_current_state_after_play_round _ _ _ _ _ _ _ _ _ E).
Defined.

(* ------------------------------------------------------------------------- *)
(** ** Noise at its two extremes *)

Lemma valid_draw_below_one x :
  valid_draw x = true -> PrimFloat.ltb x 1%float = true.
Proof. unfold valid_draw. intros H. now apply andb_true_iff in H as [_ H]. Qed.

Lemma random_below_one g :
  valid_tape (tape g) ->
  random_below 1%float g = (Ok true, mkRng (tape g) (Datatypes.S (pos g))).
Proof.
  intros Ht. rewrite random_below_run.
  now rewrite (valid_draw_below_one _ (Ht (pos g))).
Qed.

Lemma random_below_zero' g :
  valid_tape (tape g) ->
  random_below 0%float g = (Ok false, mkRng (tape g) (Datatypes.S (pos g))).
Proof.
  intros Ht. rewrite random_below_run.
  now rewrite (valid_draw_not_below_zero _ (Ht (pos g))).
Qed.

(** X4.  Noise 0.0 and noise 1.0.  Let the two decision functions return
    the intended moves [i1] and [i2], and let the draws that follow be
    draws of [random.random()].  With [noise_prob = 0.0] the round records
    exactly [i1] and [i2]; with [noise_prob = 1.0] it records both moves
    inverted.  Either way two draws are consumed. *)
Theorem noise_extremes
    (g : Game) (round_number : Z) (s s1 s2 : Rng) (i1 i2 : Move) :
  strategy1_func g (history1 g) (history2 g) round_number (forgiveness_prob g) s
  = (Ok i1, s1) ->
  strategy2_func g (history2 g) (history1 g) round_number (forgiveness_prob g) s1
  = (Ok i2, s2) ->
  valid_tape (tape s2) ->
  (noise_prob g = 0%float ->
   play_round g round_number s
   = (Ok (record_round g i1 i2,
          (i1, i2, fst (PAYOFFS i1 i2), snd (PAYOFFS i1 i2))),
      mkRng (tape s2) (Datatypes.S (Datatypes.S (pos s2)))))
  /\
  (noise_prob g = 1%float ->
   play_round g round_number s
   = (Ok (record_round g (invert i1) (invert i2),
          (invert i1, invert i2,
           fst (PAYOFFS (invert i1) (invert i2)),
           snd (PAYOFFS (invert i1) (invert i2)))),
      mkRng (tape s2) (Datatypes.S (Datatypes.S (pos s2))))).
Proof.
  intros E1 E2 Ht. split; intros Hn; unfold play_round; rewrite Hn.
  - erewrite bind_ok by exact E1. erewrite bind_ok by exact E2.
    erewrite bind_ok by (apply random_below_zero'; exact Ht).
    erewrite bind_ok by (apply random_below_zero'; exact Ht).
    reflexivity.
  - erewrite bind_ok by exact E1. erewrite bind_ok by exact E2.
    erewrite bind_ok by (apply random_below_one; exact Ht).
    erewrite bind_ok by (apply random_below_one; exact Ht).
    reflexivity.
Qed.

Lemma noise_extremes_witness :
  play_round (Game_init BUILT_IN_STRATEGIES_META "cooperate" "defect"
                        5 1%float 0%float) 0 rng0
  = (Ok (record_round (Game_init BUILT_IN_STRATEGIES_META "cooperate" "defect"
                                 5 1%float 0%float) DEFECT COOPERATE,
         (DEFECT, COOPERATE, 5, 0)),
     mkRng half_tape 2).
Proof.
  destruct (noise_extremes
              (Game_init BUILT_IN_STRATEGIES_META "cooperate" "defect"
                         5 1%float 0%float) 0 rng0 rng0 rng0
              COOPERATE DEFECT eq_refl eq_refl valid_half_tape) as [_ H].
  apply H. reflexivity.
Defined.

(* ------------------------------------------------------------------------- *)
(** ** Bounds on the scores *)

Lemma payoff_bounds m1 m2 :
  0 <= fst (PAYOFFS m1 m2) <= 5 /\ 0 <= snd (PAYOFFS m1 m2) <= 5 /\
  2 <= fst (PAYOFFS m1 m2) + snd (PAYOFFS m1 m2) <= 6.
Proof. destruct m1, m2; simpl; lia. Qed.

Lemma recorded_payoffs_bounds h1 : forall h2,
  let l := recorded_payoffs h1 h2 in
  0 <= sumZ (map fst l) <= 5 * Z.of_nat (length l) /\
  0 <= sumZ (map snd l) <= 5 * Z.of_nat (length l) /\
  2 * Z.of_nat (length l) <= sumZ (map fst l) + sumZ (map snd l)
  <= 6 * Z.of_nat (length l).
Proof.
  induction h1 as [|a h1 IH]; intros [|b h2]; simpl; try lia.
  specialize (IH h2). simpl in IH.
  pose proof (payoff_bounds a b). unfold sumZ in *. simpl. lia.
Qed.

(** X5.  Bounds on the scores.  After [k] rounds of a game each score is
    between [0] and [5 k], and the two scores together are between [2 k]
    and [6 k]. *)
Theorem score_bounds
    (registry : gmap string StrategyMeta) (id1 id2 : string) (N : Z)
    (noise fp : float) (round_numbers : list Z) (s s' : Rng) (g' : Game) :
  play_rounds (Game_init registry id1 id2 N noise fp) round_numbers s
  = (Ok g', s') ->
  let k := Z.of_nat (length round_numbers) in
  0 <= score1 g' <= 5 * k /\
  0 <= score2 g' <= 5 * k /\
  2 * k <= score1 g' + score2 g' <= 6 * k.
Proof.
  intros H k. eapply play_rounds_inv in H; [|apply Game_init_recorded].
  destruct H as [(H1 & H2 & H3 & H4) _]. simpl in H1, H2.
  pose proof (recorded_payoffs_bounds (history1 g') (history2 g')) as Hb.
  assert (Hl : length (recorded_payoffs (history1 g') (history2 g'))
               = length round_numbers).
  { unfold recorded_payoffs. rewrite length_zip_with_l_eq; congruence. }
  simpl in Hb. rewrite Hl in Hb. rewrite H3, H4. unfold k. lia.
Qed.

Lemma score_bounds_witness :
  exists g' s',
    play_rounds (Game_init BUILT_IN_STRATEGIES_META "tit_for_tat" "defect"
                           5 0%float 0%float) [0; 1; 2] rng0 = (Ok g', s') /\
    6 <= score1 g' + score2 g' <= 18.
Proof.
  assert (E : exists g' s',
             play_rounds (Game_init BUILT_IN_STRATEGIES_META "tit_for_tat"
                            "defect" 5 0%float 0%float) [0; 1; 2] rng0
             = (Ok g', s')).
  { eexists _, _. vm_compute. reflexivity. }
  destruct E as (g' & s' & E). exists g', s'. split; [exact E|].
  pose proof (score_bounds _ _ _ _ _ _ _ _ _ _ E) as (_ & _ & H).
  simpl in H. lia.
Defined.

(* ------------------------------------------------------------------------- *)
(** ** Strategies that are never the first to defect *)

Lemma rng_eta g : mkRng (tape g) (pos g) = g.
Proof. now destruct g. Qed.

Lemma nice_intro (f : strategy_fn) : cooperates_without_draw f -> nice f.
Proof.
  intros H my opp fp g Hd Hl. exists (pos g). rewrite rng_eta. now apply H.
Qed.

Lemma not_defect_is_cooperate (m : Move) (h : History) :
  DEFECT ∉ h -> m ∈ h -> m = COOPERATE.
Proof. intros Hd Hm. destruct m; [reflexivity|]. contradiction. Qed.

Lemma last_not_defect (h : History) m :
  DEFECT ∉ h -> last h = Some m -> m = COOPERATE.
Proof.
  intros Hd Hl. eapply not_defect_is_cooperate; [exact Hd|].
  now apply last_Some_elem_of.
Qed.

Lemma count_all_cooperate (h : History) :
  DEFECT ∉ h -> count h COOPERATE = length h.
Proof.
  unfold count. induction h as [|m h IH]; intros Hd; [reflexivity|].
  apply not_elem_of_cons in Hd as [Hm Hd].
  destruct m; [|congruence].
  simpl. f_equal. now apply IH.
Qed.

Lemma always_cooperate_nice : cooperates_without_draw always_cooperate.
Proof. intros my opp fp g _ _. reflexivity. Qed.

Lemma tit_for_tat_nice : cooperates_without_draw tit_for_tat.
Proof.
  intros my opp fp g Hd _. unfold tit_for_tat.
  destruct (last opp) as [m|] eqn:E; [|reflexivity].
  now rewrite (last_not_defect _ _ Hd E).
Qed.

Lemma grudger_nice : cooperates_without_draw grudger.
Proof.
  intros my opp fp g Hd _. unfold grudger.
  now rewrite bool_decide_eq_false_2.
Qed.

Lemma tit_for_two_tats_nice : cooperates_without_draw tit_for_two_tats.
Proof.
  intros my opp fp g Hd _. unfold tit_for_two_tats.
  destruct (length opp <? 2)%nat eqn:El; [reflexivity|].
  apply Nat.ltb_ge in El. rewrite <- length_rev in El.
  destruct (rev opp) as [|o1 [|o2 rest]] eqn:E; simpl in El; try lia.
  assert (o1 = COOPERATE) as ->.
  { eapply not_defect_is_cooperate; [exact Hd|].
    apply list_elem_of_In, in_rev. rewrite E. now left. }
  reflexivity.
Qed.

Lemma generous_tit_for_tat_10_nice : cooperates_without_draw generous_tit_for_tat_10.
Proof.
  intros my opp fp g Hd _. unfold generous_tit_for_tat_10.
  destruct (last opp) as [m|] eqn:E; [|reflexivity].
  now rewrite (last_not_defect _ _ Hd E).
Qed.

Lemma pavlov_nice : cooperates_without_draw pavlov.
Proof.
  intros my opp fp g Hd Hl. unfold pavlov, getitem_last.
  destruct (Z.of_nat (length my) =? 0) eqn:E0; [reflexivity|].
  apply Z.eqb_neq in E0.
  destruct (last my) as [a|] eqn:Ea;
    [|apply last_None in Ea; subst; simpl in E0; lia].
  destruct (last opp) as [b|] eqn:Eb;
    [|apply last_None in Eb; subst; simpl in Hl; lia].
  rewrite (last_not_defect _ _ Hd Eb). now destruct a.
Qed.

Lemma majority_nice : cooperates_without_draw majority.
Proof.
  intros my opp fp g Hd _. unfold majority.
  destruct opp as [|m opp']; [reflexivity|].
  rewrite (count_all_cooperate _ Hd). rewrite Nat.sub_diag. reflexivity.
Qed.

(** X6.  The built-in strategies Always Cooperate, Tit for Tat, Grudger,
    Tit for Two Tats, Generous TFT, Pavlov and Majority are never the first
    to defect: in a game in which the opponent has not defected so far they
    cooperate, whatever the forgiveness probability, and they consume no
    draw: the generator is left as it was. *)
Theorem builtin_strategies_never_defect_first :
  cooperates_without_draw always_cooperate /\
  cooperates_without_draw tit_for_tat /\
  cooperates_without_draw grudger /\
  cooperates_without_draw tit_for_two_tats /\
  cooperates_without_draw generous_tit_for_tat_10 /\
  cooperates_without_draw pavlov /\
  cooperates_without_draw majority.
Proof.
  split; [apply always_cooperate_nice|].
  split; [apply tit_for_tat_nice|].
  split; [apply grudger_nice|].
  split; [apply tit_for_two_tats_nice|].
  split; [apply generous_tit_for_tat_10_nice|].
  split; [apply pavlov_nice | apply majority_nice].
Qed.

(** *** Two such strategies cooperate for the whole match *)

Lemma nice_round g s :
  nice (strategy1_func g) -> nice (strategy2_func g) ->
  noise_prob g = 0%float -> valid_tape (tape s) ->
  DEFECT ∉ history1 g -> DEFECT ∉ history2 g ->
  length (history1 g) = length (history2 g) ->
  exists n,
    play_round g (Z.of_nat (length (history1 g))) s
    = (Ok (record_round g COOPERATE COOPERATE, (COOPERATE, COOPERATE, 3, 3)),
       mkRng (tape s) n).
Proof.
  intros N1 N2 Hn Ht D1 D2 Hl.
  destruct (N1 (history1 g) (history2 g) (forgiveness_prob g) s D2 Hl)
    as (n1 & E1).
  destruct (N2 (history2 g) (history1 g) (forgiveness_prob g)
              (mkRng (tape s) n1) D1 (eq_sym Hl)) as (n2 & E2).
  rewrite <- Hl in E2. simpl tape in E2.
  exists (Datatypes.S (Datatypes.S n2)). unfold play_round. rewrite Hn.
  erewrite bind_ok by exact E1. erewrite bind_ok by exact E2.
  erewrite bind_ok by (apply random_below_zero'; exact Ht).
  erewrite bind_ok by (apply random_below_zero'; exact Ht).
  reflexivity.
Qed.

Lemma nice_rounds (n : nat) : forall g s,
  nice (strategy1_func g) -> nice (strategy2_func g) ->
  noise_prob g = 0%float -> valid_tape (tape s) ->
  DEFECT ∉ history1 g -> DEFECT ∉ history2 g ->
  length (history1 g) = length (history2 g) ->
  exists g' s',
    play_rounds g (seqZ (Z.of_nat (length (history1 g))) (Z.of_nat n)) s
    = (Ok g', s') /\
    history1 g' = history1 g ++ replicate n COOPERATE /\
    history2 g' = history2 g ++ replicate n COOPERATE /\
    score1 g' = score1 g + 3 * Z.of_nat n /\
    score2 g' = score2 g + 3 * Z.of_nat n.
Proof.
  induction n as [|n IH]; intros g s N1 N2 Hn Ht D1 D2 Hl.
  - rewrite seqZ_nil by lia. exists g, s. simpl.
    rewrite !app_nil_r. repeat split; lia.
  - rewrite seqZ_cons by lia. simpl play_rounds.
    destruct (nice_round g s N1 N2 Hn Ht D1 D2 Hl) as (n1 & E).
    erewrite bind_ok by exact E. simpl fst.
    set (g1 := record_round g COOPERATE COOPERATE).
    pose proof (record_round_setup g COOPERATE COOPERATE)
      as (_ & _ & _ & Hn1 & _ & F1 & F2 & _). fold g1 in Hn1, F1, F2.
    assert (H1 : history1 g1 = history1 g ++ [COOPERATE])
      by apply record_round_history1.
    assert (H2 : history2 g1 = history2 g ++ [COOPERATE])
      by apply record_round_history2.
    replace (Z.succ (Z.of_nat (length (history1 g))))
      with (Z.of_nat (length (history1 g1)))
      by (rewrite H1, length_app; simpl; lia).
    replace (Z.pred (Z.of_nat (Datatypes.S n))) with (Z.of_nat n) by lia.
    destruct (IH g1 (mkRng (tape s) n1)) as (g' & s' & E' & A1 & A2 & B1 & B2).
    + now rewrite F1.
    + now rewrite F2.
    + now rewrite Hn1.
    + exact Ht.
    + rewrite H1. intros C. apply elem_of_app in C as [C|C]; [auto|].
      apply list_elem_of_singleton in C. discriminate.
    + rewrite H2. intros C. apply elem_of_app in C as [C|C]; [auto|].
      apply list_elem_of_singleton in C. discriminate.
    + rewrite H1, H2, !length_app. simpl. lia.
    + exists g', s'. split; [exact E'|].
      rewrite A1, A2, B1, B2, H1, H2, <- !app_assoc.
      unfold g1. rewrite record_round_score1, record_round_score2.
      simpl. repeat split; lia.
Qed.

(** X7.  Two strategies that are never the first to defect, in a match
    without noise: for every number of rounds [N], every forgiveness
    probability and every sequence of draws of [random.random()], both
    cooperate in every round and both score [3 N]. *)
Theorem nice_strategies_cooperate_throughout
    (registry : gmap string StrategyMeta) (p1_id p2_id : string)
    (N : nat) (fp : float) (s : Rng) :
  nice (func_or_dummy registry p1_id) ->
  nice (func_or_dummy registry p2_id) ->
  valid_tape (tape s) ->
  exists g' s',
    play_match registry p1_id p2_id (Z.of_nat N) 0%float fp s
    = (Ok (g', (3 * Z.of_nat N, 3 * Z.of_nat N,
                join (replicate N COOPERATE), join (replicate N COOPERATE))),
       s').
Proof.
  intros N1 N2 Ht. unfold play_match, run_game.
  set (g := Game_init registry p1_id p2_id (Z.of_nat N) 0%float fp).
  destruct (nice_rounds N g s N1 N2 eq_refl Ht)
    as (g' & s' & E & A1 & A2 & B1 & B2);
    try (simpl; first [apply not_elem_of_nil | reflexivity]).
  exists g', s'. simpl in E. erewrite bind_ok by exact E.
  simpl in A1, A2, B1, B2. rewrite A1, A2, B1, B2. reflexivity.
Qed.

Lemma nice_strategies_cooperate_throughout_witness :
  exists g' s',
    play_match BUILT_IN_STRATEGIES_META "tit_for_tat" "pavlov" 4 0%float
               0.25%float rng0
    = (Ok (g', (12, 12, "CCCC"%string, "CCCC"%string)), s').
Proof.
  apply (nice_strategies_cooperate_throughout BUILT_IN_STRATEGIES_META
           "tit_for_tat" "pavlov" 4 0.25%float rng0
           (nice_intro _ tit_for_tat_nice) (nice_intro _ pavlov_nice)
           valid_half_tape).
Defined.

(* ------------------------------------------------------------------------- *)
(** ** Pavlov, Prober and the rule sets that mirror *)

(** X8.  Pavlov after the first round.  With a round number other than 0
    it raises [IndexError] when its own or the opponent's history is empty.
    Otherwise it answers the opponent's last move: Cooperate after a
    Cooperate, whatever its own last move was; Defect after a Defect when
    its own last move was Cooperate; and after mutual defection Defect
    unless the draw is below [forgiveness_prob].  Only this last case
    consumes a draw. *)
Theorem pavlov_answers_last_move
    (my_history opponent_history : History) (round_number : Z)
    (forgiveness_prob : float) (g : Rng) :
  round_number <> 0 ->
  pavlov my_history opponent_history round_number forgiveness_prob g
  = match last my_history, last opponent_history with
    | None, _ | Some _, None => (Raise IndexError, g)
    | Some _, Some COOPERATE => (Ok COOPERATE, g)
    | Some COOPERATE, Some DEFECT => (Ok DEFECT, g)
    | Some DEFECT, Some DEFECT =>
        (Ok (if PrimFloat.ltb (as_float (tape g (pos g))) forgiveness_prob
             then COOPERATE else DEFECT),
         mkRng (tape g) (Datatypes.S (pos g)))
    end.
Proof.
  intros Hr. unfold pavlov, getitem_last.
  apply Z.eqb_neq in Hr. rewrite Hr.
  destruct (last my_history) as [[|]|], (last opponent_history) as [[|]|];
    try reflexivity.
  unfold bind, ret, and_then, random_below, random_random, next_draw. simpl.
  now destruct (PrimFloat.ltb _ _).
Qed.

Lemma pavlov_answers_last_move_witness :
  pavlov [] [] 3 0%float rng0 = (Raise IndexError, rng0) /\
  pavlov [DEFECT] [COOPERATE] 1 0%float rng0 = (Ok COOPERATE, rng0).
Proof.
  split.
  - apply (pavlov_answers_last_move [] [] 3 0%float rng0). lia.
  - apply (pavlov_answers_last_move [DEFECT] [COOPERATE] 1 0%float rng0). lia.
Defined.

(** X9.  Prober after its three opening moves.  From round 3 on, when the
    opponent cooperated in rounds 1 and 2 Prober decides exactly as Tit for
    Tat does on the same input; when the opponent defected in round 1 or in
    round 2, or fewer than three opponent moves are recorded, it defects
    and consumes no draw. *)
Theorem prober_after_probe
    (my_history opponent_history : History) (round_number : Z)
    (forgiveness_prob : float) (g : Rng) :
  round_number <> 0 -> round_number <> 1 -> round_number <> 2 ->
  prober my_history opponent_history round_number forgiveness_prob g
  = match opponent_history !! 1%nat, opponent_history !! 2%nat with
    | Some COOPERATE, Some COOPERATE =>
        tit_for_tat my_history opponent_history round_number
                    forgiveness_prob g
    | _, _ => (Ok DEFECT, g)
    end.
Proof.
  intros H0 H1 H2. unfold prober, getitem, tit_for_tat.
  apply Z.eqb_neq in H0, H1, H2. rewrite H0, H1, H2.
  destruct (3 <=? length opponent_history)%nat eqn:E.
  - apply Nat.leb_le in E.
    destruct (lookup_lt_is_Some_2 opponent_history 1) as [o1 E1]; [lia|].
    destruct (lookup_lt_is_Some_2 opponent_history 2) as [o2 E2]; [lia|].
    unfold History in *. rewrite E1, E2.
    destruct o1, o2; reflexivity.
  - apply Nat.leb_gt in E.
    assert (opponent_history !! 2%nat = None) as ->
      by (apply lookup_ge_None; lia).
    now destruct (opponent_history !! 1%nat) as [[|]|].
Qed.

Lemma prober_after_probe_witness :
  prober [DEFECT; COOPERATE; COOPERATE] [COOPERATE; DEFECT; COOPERATE] 3
         0%float rng0
  = (Ok DEFECT, rng0).
Proof.
  apply (prober_after_probe [DEFECT; COOPERATE; COOPERATE]
           [COOPERATE; DEFECT; COOPERATE] 3 0%float rng0); lia.
Defined.

(** X10.  The rule interpreter expresses Tit for Tat.  The custom rule set
    "after C play C, after D play D" decides, on every input and in every
    state of the generator, exactly as the built-in Tit for Tat when its
    default is Cooperate, and exactly as Suspicious TFT when its default is
    Defect; the forgiveness override included. *)
Theorem mirror_rules_are_tit_for_tat
    (my_history opponent_history : History) (round_number : Z)
    (forgiveness_prob : float) (g : Rng) :
  custom_strategy_logic (mirror_rules COOPERATE) my_history opponent_history
                        round_number forgiveness_prob g
  = tit_for_tat my_history opponent_history round_number forgiveness_prob g
  /\
  custom_strategy_logic (mirror_rules DEFECT) my_history opponent_history
                        round_number forgiveness_prob g
  = suspicious_tit_for_tat my_history opponent_history round_number
                           forgiveness_prob g.
Proof.
  unfold custom_strategy_logic, rule_chain, mirror_rules, tit_for_tat,
    suspicious_tit_for_tat. simpl.
  destruct (last opponent_history) as [[|]|]; split; reflexivity.
Qed.

(* ------------------------------------------------------------------------- *)
(** ** Bookkeeping of the statistics *)

Lemma update_one_counted reg stats pid sc opp :
  counted reg pid ->
  update_one reg stats pid sc opp !! pid
  = Some {| wins := if opp <? sc then wins (stat_of stats pid) + 1
                    else wins (stat_of stats pid);
            losses := if opp <? sc then losses (stat_of stats pid)
                      else if sc <? opp then losses (stat_of stats pid) + 1
                      else losses (stat_of stats pid);
            draws := if opp <? sc then draws (stat_of stats pid)
                     else if sc <? opp then draws (stat_of stats pid)
                     else draws (stat_of stats pid) + 1;
            total_score := total_score (stat_of stats pid) + sc;
            games_played := games_played (stat_of stats pid) + 1 |}.
Proof.
  intros [Hm [meta Hr]]. unfold update_one. rewrite Hm.
  rewrite bool_decide_eq_false_2 by congruence.
  apply lookup_insert_eq.
Qed.

Lemma update_one_consistent reg stats pid sc opp :
  map_Forall (fun _ s => stat_consistent s) stats ->
  map_Forall (fun _ s => stat_consistent s) (update_one reg stats pid sc opp).
Proof.
  intros H. unfold update_one. destruct (is_manual pid); [exact H|].
  case_bool_decide; [exact H|].
  apply map_Forall_insert_2; [|exact H].
  assert (Hs : stat_consistent (from_option (fun s => s) zero_stat
                                            (stats !! pid))).
  { destruct (stats !! pid) as [s|] eqn:E; simpl.
    - exact (H pid s E).
    - reflexivity. }
  unfold stat_consistent in *. simpl.
  destruct (opp <? sc), (sc <? opp); lia.
Qed.

(** X11.  Every game is a win, a loss or a draw.  If in every record of
    the statistics the games played are the wins plus the losses plus the
    draws, the same holds after [update_player_stats], whoever the two
    players are. *)
Theorem update_player_stats_consistent
    (registry : gmap string StrategyMeta) (stats : gmap string StatRecord)
    (p1_id p2_id : string) (s1 s2 : Z) :
  map_Forall (fun _ s => stat_consistent s) stats ->
  map_Forall (fun _ s => stat_consistent s)
             (update_player_stats registry stats p1_id p2_id s1 s2).
Proof.
  intros H. unfold update_player_stats.
  now apply update_one_consistent, update_one_consistent.
Qed.

Lemma update_player_stats_consistent_witness :
  map_Forall (fun _ s => stat_consistent s)
             (update_player_stats BUILT_IN_STRATEGIES_META ∅
                                  "cooperate" "defect" 0 25).
Proof.
  apply update_player_stats_consistent. apply map_Forall_empty.
Defined.

(** X12.  A match between two different players.  When both ids are
    registered and are not manual ids, each record gets one more game and
    the player's score added, and the match is a win for one exactly when
    it is a loss for the other, or a draw for both. *)
Theorem update_player_stats_two_players
    (registry : gmap string StrategyMeta) (stats : gmap string StatRecord)
    (p1_id p2_id : string) (s1 s2 : Z) :
  counted registry p1_id -> counted registry p2_id -> p1_id <> p2_id ->
  let stats' := update_player_stats registry stats p1_id p2_id s1 s2 in
  let old1 := stat_of stats p1_id in
  let old2 := stat_of stats p2_id in
  let new1 := stat_of stats' p1_id in
  let new2 := stat_of stats' p2_id in
  games_played new1 = games_played old1 + 1 /\
  games_played new2 = games_played old2 + 1 /\
  total_score new1 = total_score old1 + s1 /\
  total_score new2 = total_score old2 + s2 /\
  wins new1 - wins old1 = losses new2 - losses old2 /\
  losses new1 - losses old1 = wins new2 - wins old2 /\
  draws new1 - draws old1 = draws new2 - draws old2 /\
  (wins new1 - wins old1) + (losses new1 - losses old1)
  + (draws new1 - draws old1) = 1.
Proof.
  intros C1 C2 Hne stats' old1 old2 new1 new2.
  assert (N1 : new1 = stat_of (update_one registry stats p1_id s1 s2) p1_id).
  { unfold new1, stats', update_player_stats, stat_of.
    now rewrite update_one_other by auto. }
  assert (N2 : update_one registry (update_one registry stats p1_id s1 s2)
                          p2_id s2 s1 !! p2_id = Some new2).
  { unfold new2, stats', update_player_stats, stat_of.
    now rewrite (update_one_counted _ _ p2_id s2 s1 C2). }
  rewrite (update_one_counted _ _ p2_id s2 s1 C2) in N2.
  assert (O2 : stat_of (update_one registry stats p1_id s1 s2) p2_id = old2).
  { unfold old2, stat_of. now rewrite update_one_other by auto. }
  rewrite O2 in N2. inversion N2 as [N2']. clear N2.
  unfold stat_of in N1.
  rewrite (update_one_counted _ _ p1_id s1 s2 C1) in N1. simpl in N1.
  fold old1 in N1. rewrite N1. simpl.
  destruct (s2 <? s1) eqn:A, (s1 <? s2) eqn:B;
    try apply Z.ltb_lt in A; try apply Z.ltb_lt in B;
    repeat split; lia.
Qed.

Lemma builtin_counted (p : string) :
  is_Some (BUILT_IN_STRATEGIES_META !! p) -> is_manual p = false ->
  counted BUILT_IN_STRATEGIES_META p.
Proof. intros H1 H2. split; assumption. Qed.

Lemma update_player_stats_two_players_witness :
  wins (stat_of (update_player_stats BUILT_IN_STRATEGIES_META ∅
                   "cooperate" "defect" 0 25) "cooperate")
  - wins (stat_of ∅ "cooperate")
  = losses (stat_of (update_player_stats BUILT_IN_STRATEGIES_META ∅
                       "cooperate" "defect" 0 25) "defect")
    - losses (stat_of ∅ "defect").
Proof.
  destruct (update_player_stats_two_players BUILT_IN_STRATEGIES_META ∅
              "cooperate" "defect" 0 25)
    as (_ & _ & _ & _ & H & _).
  - apply builtin_counted; [vm_compute; eauto | reflexivity].
  - apply builtin_counted; [vm_compute; eauto | reflexivity].
  - discriminate.
  - exact H.
Defined.

(** X13.  A strategy playing against itself.  When the two ids of a match
    are the same registered id, its record is updated twice: two more
    games, both scores added, and for unequal scores one win and one loss,
    for equal scores two draws. *)
Theorem update_player_stats_self_match
    (registry : gmap string StrategyMeta) (stats : gmap string StatRecord)
    (pid : string) (s1 s2 : Z) :
  counted registry pid ->
  let old := stat_of stats pid in
  let new := stat_of (update_player_stats registry stats pid pid s1 s2) pid in
  games_played new = games_played old + 2 /\
  total_score new = total_score old + s1 + s2 /\
  (s1 <> s2 ->
   wins new = wins old + 1 /\ losses new = losses old + 1 /\
   draws new = draws old) /\
  (s1 = s2 ->
   wins new = wins old /\ losses new = losses old /\
   draws new = draws old + 2).
Proof.
  intros C old new.
  assert (N : new = stat_of (update_player_stats registry stats pid pid s1 s2)
                            pid) by reflexivity.
  unfold update_player_stats, stat_of in N.
  rewrite (update_one_counted _ _ pid s2 s1 C) in N. simpl in N.
  unfold stat_of in N.
  rewrite (update_one_counted _ _ pid s1 s2 C) in N. simpl in N.
  fold (stat_of stats pid) in N. fold old in N. rewrite N. simpl.
  destruct (s2 <? s1) eqn:A, (s1 <? s2) eqn:B;
    try apply Z.ltb_lt in A; try apply Z.ltb_lt in B;
    try apply Z.ltb_ge in A; try apply Z.ltb_ge in B;
    repeat split; intros; lia.
Qed.

Lemma update_player_stats_self_match_witness :
  games_played (stat_of (update_player_stats BUILT_IN_STRATEGIES_META ∅
                           "tit_for_tat" "tit_for_tat" 30 30) "tit_for_tat")
  = games_played (stat_of ∅ "tit_for_tat") + 2.
Proof.
  destruct (update_player_stats_self_match BUILT_IN_STRATEGIES_META ∅
              "tit_for_tat" 30 30) as (H & _).
  - apply builtin_counted; [vm_compute; eauto | reflexivity].
  - exact H.
Defined.

(** X14.  Who gets a record.  [update_player_stats] never removes a record,
    and the only records it creates are those of the two players of the
    match, and only for ids that are registered and are not manual ids. *)
Theorem update_player_stats_records
    (registry : gmap string StrategyMeta) (stats : gmap string StatRecord)
    (p1_id p2_id : string) (s1 s2 : Z) (q : string) :
  (is_Some (stats !! q) ->
   is_Some (update_player_stats registry stats p1_id p2_id s1 s2 !! q)) /\
  (is_Some (update_player_stats registry stats p1_id p2_id s1 s2 !! q) ->
   is_Some (stats !! q) \/ ((q = p1_id \/ q = p2_id) /\ counted registry q)).
Proof.
  assert (K : forall st pid a b,
             (is_Some (st !! q) -> is_Some (update_one registry st pid a b !! q))
             /\ (is_Some (update_one registry st pid a b !! q) ->
                 is_Some (st !! q) \/ (q = pid /\ counted registry q))).
  { intros st pid a b. unfold update_one.
    destruct (is_manual pid) eqn:M; [tauto|].
    case_bool_decide as R; [tauto|].
    destruct (decide (pid = q)) as [->|Hne].
    - rewrite lookup_insert_eq. split; [eauto|].
      intros _. right. split; [reflexivity|]. split; [exact M|].
      destruct (registry !! q); [eauto | congruence].
    - rewrite lookup_insert_ne by exact Hne. tauto. }
  unfold update_player_stats. split.
  - intros H. now apply K, K.
  - intros H. apply K in H as [H | [-> C]]; [|tauto].
    apply K in H as [H | [-> C]]; tauto.
Qed.

Lemma update_player_stats_records_witness :
  is_Some (update_player_stats BUILT_IN_STRATEGIES_META
             (<["defect" := zero_stat]> ∅) "ghost" "manual_p1" 3 4
           !! "defect"%string).
Proof.
  destruct (update_player_stats_records BUILT_IN_STRATEGIES_META
              (<["defect" := zero_stat]> ∅) "ghost" "manual_p1" 3 4 "defect")
    as [H _].
  apply H. vm_compute. eauto.
Defined.

(* ------------------------------------------------------------------------- *)
(** ** Loading custom strategies *)

Lemma load_custom_entry_valid reg sid d :
  valid_item (sid, JObject d) = true ->
  exists nm rs,
    d = mkCustomDef (Some nm) (Some rs) /\
    load_custom_entry reg (sid, d)
    = mkRegistry
        (<[sid := mkMeta nm (custom_strategy_logic rs) sid true (Some rs)]>
           (STRATEGIES reg))
        (<[sid := mkMeta nm (custom_strategy_logic rs) sid true (Some rs)]>
           (CUSTOM_STRATEGIES reg)).
Proof.
  destruct d as [[nm|] [rs|]]; unfold valid_item; simpl; try discriminate.
  intros _. exists nm, rs. split; reflexivity.
Qed.

Lemma load_custom_entry_invalid reg sid d :
  valid_item (sid, JObject d) = false -> load_custom_entry reg (sid, d) = reg.
Proof.
  destruct d as [[nm|] [rs|]]; unfold valid_item; simpl;
    try discriminate; reflexivity.
Qed.

(** The loop goes through a file exactly when no item is a scalar. *)
Lemma load_items_scalar l : forall reg,
  Exists (fun item => is_scalar item = true) l -> load_items l reg = None.
Proof.
  induction l as [|[k v] l IH]; intros reg H; [now apply Exists_nil in H|].
  apply Exists_cons in H as [H|H].
  - destruct v; try discriminate H. reflexivity.
  - destruct v; simpl; auto.
Qed.

Lemma load_items_app l1 l2 : forall reg,
  load_items (l1 ++ l2) reg
  = match load_items l1 reg with
    | Some reg' => load_items l2 reg'
    | None => None
    end.
Proof.
  induction l1 as [|[k v] l1 IH]; intros reg; [reflexivity|].
  destruct v; simpl; auto.
Qed.

Lemma load_items_no_scalar l : forall reg,
  Forall (fun item => is_scalar item = false) l ->
  is_Some (load_items l reg).
Proof.
  induction l as [|[k v] l IH]; intros reg H; [simpl; eauto|].
  apply Forall_cons in H as [H1 H2].
  destruct v; simpl; try discriminate H1; auto.
Qed.

Lemma load_items_custom l : forall reg reg',
  custom_entries_registered reg ->
  load_items l reg = Some reg' ->
  custom_entries_registered reg'.
Proof.
  induction l as [|[k v] l IH]; intros reg reg' Hreg E.
  - inversion E; subst. exact Hreg.
  - destruct v as [| |d]; cbn [load_items] in E;
      [discriminate E | eauto |].
    eapply IH; [|exact E]. unfold custom_entries_registered in *.
    intros sid meta.
    destruct (valid_item (k, JObject d)) eqn:V.
    + destruct (load_custom_entry_valid reg k d V) as (nm & rs & -> & ->).
      simpl. destruct (decide (k = sid)) as [->|Hne].
      * rewrite !lookup_insert_eq. intros H. inversion H; subst. simpl.
        eauto 10.
      * rewrite !lookup_insert_ne by exact Hne. apply Hreg.
    + rewrite (load_custom_entry_invalid reg _ _ V). apply Hreg.
Qed.

Lemma initial_custom_entries_registered :
  custom_entries_registered (mkRegistry BUILT_IN_STRATEGIES_META ∅).
Proof. intros k m H. simpl in H. rewrite lookup_empty in H. discriminate. Qed.

(** X15.  After [load_custom_strategies], every entry of
    [CUSTOM_STRATEGIES] is in [STRATEGIES] under the same id with the same
    data, is flagged as custom, carries its id, and its decision function is
    the one compiled from the rules stored with it. *)
Theorem loaded_custom_entries_are_registered
    (loaded_custom_defs : list (string * FileValue))
    (sid : string) (meta : StrategyMeta) :
  CUSTOM_STRATEGIES (load_custom_strategies loaded_custom_defs) !! sid
  = Some meta ->
  STRATEGIES (load_custom_strategies loaded_custom_defs) !! sid = Some meta /\
  is_custom meta = true /\ strategy_id meta = sid /\
  exists rs, rules meta = Some rs /\ func meta = custom_strategy_logic rs.
Proof.
  unfold load_custom_strategies.
  destruct (load_items loaded_custom_defs _) as [reg|] eqn:E.
  - apply (load_items_custom _ _ _ initial_custom_entries_registered E).
  - apply initial_custom_entries_registered.
Qed.

Lemma loaded_custom_entries_are_registered_witness :
  exists meta,
    STRATEGIES (load_custom_strategies
                  [("custom_late",
                    JObject (mkCustomDef (Some "Late") (Some late_rules)))])
      !! "custom_late"%string = Some meta /\
    func meta = custom_strategy_logic late_rules.
Proof.
  assert (E : exists meta,
             CUSTOM_STRATEGIES
               (load_custom_strategies
                  [("custom_late",
                    JObject (mkCustomDef (Some "Late") (Some late_rules)))])
               !! "custom_late"%string = Some meta /\
             rules meta = Some late_rules).
  { eexists. split; vm_compute; reflexivity. }
  destruct E as (meta & E & Hr).
  destruct (loaded_custom_entries_are_registered _ _ _ E)
    as (H & _ & _ & rs & Hrs & Hf).
  exists meta. split; [exact H|]. congruence.
Defined.

Lemma load_items_untouched l sid : forall reg reg',
  (forall v, (sid, v) ∈ l -> valid_item (sid, v) = false) ->
  load_items l reg = Some reg' ->
  STRATEGIES reg' !! sid = STRATEGIES reg !! sid /\
  CUSTOM_STRATEGIES reg' !! sid = CUSTOM_STRATEGIES reg !! sid.
Proof.
  induction l as [|[k v] l IH]; intros reg reg' H E.
  - inversion E. split; reflexivity.
  - assert (forall v', (sid, v') ∈ l -> valid_item (sid, v') = false) as H'
      by (intros v' Hv; apply H; now right).
    destruct v as [| |d]; cbn [load_items] in E;
      [discriminate E | eauto |].
    destruct (IH _ _ H' E) as [A B]. rewrite A, B.
    destruct (valid_item (k, JObject d)) eqn:V.
    + destruct (load_custom_entry_valid reg k d V) as (nm & rs & -> & ->).
      simpl. destruct (decide (k = sid)) as [->|Hne].
      * rewrite H in V by left. discriminate.
      * rewrite !lookup_insert_ne by exact Hne. split; reflexivity.
    + rewrite (load_custom_entry_invalid reg _ _ V). split; reflexivity.
Qed.

(** X16.  What loading leaves alone.  An id under which the file holds no
    item with both ['rules'] and ['name'] is registered after
    [load_custom_strategies] exactly when it is a built-in id, with the
    built-in's entry, and it is no custom strategy. *)
Theorem load_keeps_ids_without_valid_item
    (loaded_custom_defs : list (string * FileValue)) (sid : string) :
  (forall d, (sid, d) ∈ loaded_custom_defs -> valid_item (sid, d) = false) ->
  STRATEGIES (load_custom_strategies loaded_custom_defs) !! sid
  = BUILT_IN_STRATEGIES_META !! sid /\
  CUSTOM_STRATEGIES (load_custom_strategies loaded_custom_defs) !! sid = None.
Proof.
  intros H. unfold load_custom_strategies.
  destruct (load_items loaded_custom_defs _) as [reg|] eqn:E.
  - destruct (load_items_untouched _ _ _ _ H E) as [A B].
    split; [exact A|]. rewrite B. apply lookup_empty.
  - split; [reflexivity | apply lookup_empty].
Qed.

Lemma load_keeps_ids_without_valid_item_witness :
  STRATEGIES (load_custom_strategies
                [("tit_for_tat", JObject (mkCustomDef None (Some empty_rules)));
                 ("custom_x",
                  JObject (mkCustomDef (Some "X") (Some empty_rules)))])
    !! "tit_for_tat"%string
  = BUILT_IN_STRATEGIES_META !! "tit_for_tat"%string.
Proof.
  apply load_keeps_ids_without_valid_item.
  intros d Hd.
  apply elem_of_cons in Hd as [Hd|Hd]; [inversion Hd; reflexivity|].
  apply elem_of_cons in Hd as [Hd|Hd]; [inversion Hd|].
  now apply not_elem_of_nil in Hd.
Defined.

(** X17.  The last item of the file decides, unless the load is abandoned.
    Let the file end with the valid item [(sid, name, rules)].  When no item
    before it is a number, [true], [false] or [null], the id [sid] runs the
    decision function of [rules], whatever was registered under it before,
    a built-in strategy included.  When some item before it is one, the
    loop stops there with a [TypeError] and the registry is reset: the item
    is not registered and only the built-ins are left. *)
Theorem load_last_item_wins
    (loaded_custom_defs : list (string * FileValue)) (sid nm : string)
    (rs : RuleSet) :
  (Forall (fun item => is_scalar item = false) loaded_custom_defs ->
   STRATEGIES (load_custom_strategies
                 (loaded_custom_defs
                  ++ [(sid, JObject (mkCustomDef (Some nm) (Some rs)))])) !! sid
   = Some (mkMeta nm (custom_strategy_logic rs) sid true (Some rs))) /\
  (Exists (fun item => is_scalar item = true) loaded_custom_defs ->
   load_custom_strategies
     (loaded_custom_defs
      ++ [(sid, JObject (mkCustomDef (Some nm) (Some rs)))])
   = mkRegistry BUILT_IN_STRATEGIES_META ∅).
Proof.
  unfold load_custom_strategies. split; intros H.
  - rewrite load_items_app.
    destruct (load_items_no_scalar loaded_custom_defs
                (mkRegistry BUILT_IN_STRATEGIES_META ∅) H) as [reg ->].
    simpl. apply lookup_insert_eq.
  - rewrite load_items_scalar; [reflexivity|].
    apply Exists_app. now left.
Qed.

Lemma load_last_item_wins_witness :
  STRATEGIES (load_custom_strategies
                ([("a", JSequence)]
                 ++ [("tit_for_tat",
                      JObject (mkCustomDef (Some "Mine") (Some late_rules)))]))
    !! "tit_for_tat"%string
  = Some (mkMeta "Mine" (custom_strategy_logic late_rules) "tit_for_tat" true
                 (Some late_rules)) /\
  load_custom_strategies
    ([("a", JScalar)]
     ++ [("tit_for_tat",
          JObject (mkCustomDef (Some "Mine") (Some late_rules)))])
  = mkRegistry BUILT_IN_STRATEGIES_META ∅.
Proof.
  split.
  - apply (load_last_item_wins [("a"%string, JSequence)]).
    repeat constructor.
  - apply (load_last_item_wins [("a"%string, JScalar)]).
    constructor. reflexivity.
Defined.

Lemma load_items_safe l : forall reg reg',
  registry_game_safe (STRATEGIES reg) ->
  load_items l reg = Some reg' ->
  registry_game_safe (STRATEGIES reg').
Proof.
  induction l as [|[k v] l IH]; intros reg reg' H E.
  - inversion E; subst. exact H.
  - destruct v as [| |d]; cbn [load_items] in E;
      [discriminate E | eauto |].
    eapply IH; [|exact E]. now apply load_custom_entry_safe.
Qed.


(* ------------------------------------------------------------------------- *)
(** ** The settings sliders *)

Lemma slider_values_checked :
  forallb (fun v => slider_probability (update_noise_setting v))
          (seqZ 0 (slider_max + 1)) = true.
Proof. vm_compute. reflexivity. Qed.

(** X19.  The probabilities the sliders can set.  For every slider value
    from 0 to [slider_max] (2000), the noise and the forgiveness probability
    stored are not below 0.0 and not above 0.2, the value at the slider's
    maximum. *)
Theorem slider_probabilities_in_range (value : Z) :
  0 <= value <= slider_max ->
  slider_probability (update_noise_setting value) = true /\
  slider_probability (update_forgiveness_setting value) = true /\
  update_noise_setting slider_max = 0x1.999999999999ap-3%float.
Proof.
  intros Hv.
  assert (H : slider_probability (update_noise_setting value) = true).
  { pose proof slider_values_checked as C.
    rewrite forallb_forall in C. apply C.
    apply list_elem_of_In, elem_of_seqZ. lia. }
  split; [exact H | split; [exact H | vm_compute; reflexivity]].
Qed.

Lemma slider_probabilities_in_range_witness :
  slider_probability (update_noise_setting 1234) = true.
Proof.
  destruct (slider_probabilities_in_range 1234) as [H _].
  - unfold slider_max, MAX_NOISE_FORGIVENESS. lia.
  - exact H.
Defined.


(* ------------------------------------------------------------------------- *)
(** ** Round Robin *)

(** *** The matchups *)

Lemma combinations2_length {A} (l : list A) :
  (2 * length (combinations2 l) = length l * (length l - 1))%nat.
Proof.
  induction l as [|x t IH]; [reflexivity|].
  simpl combinations2. rewrite length_app, length_map. simpl length.
  nia.
Qed.

Lemma combinations2_elem {A} (l : list A) a b :
  (a, b) ∈ combinations2 l -> a ∈ l /\ b ∈ l.
Proof.
  induction l as [|x t IH]; simpl.
  - intros H. now apply not_elem_of_nil in H.
  - intros H. apply elem_of_app in H as [H|H].
    + apply list_elem_of_In, in_map_iff in H as (y & Hy & Hin).
      inversion Hy; subst. apply list_elem_of_In in Hin.
      split; solve_elem.
    + apply IH in H as [Ha Hb]. split; solve_elem.
Qed.

Lemma combinations2_covers {A} (l : list A) p :
  (2 <= length l)%nat -> p ∈ l ->
  exists a b, (a, b) ∈ combinations2 l /\ (p = a \/ p = b).
Proof.
  induction l as [|x t IH]; simpl; [lia|]. intros Hlen Hp.
  destruct t as [|y t']; [simpl in Hlen; lia|].
  apply elem_of_cons in Hp as [->|Hp].
  - exists x, y. split; [|auto]. simpl. left.
  - exists x, p. split; [|auto]. apply elem_of_app. left.
    apply list_elem_of_In, in_map. now apply list_elem_of_In.
Qed.

Lemma pair_count_app p l1 l2 :
  pair_count p (l1 ++ l2) = pair_count p l1 + pair_count p l2.
Proof. unfold pair_count. now rewrite map_app, sumZ_app. Qed.

Lemma pair_count_absent p l :
  (forall a b, (a, b) ∈ l -> a <> p /\ b <> p) -> pair_count p l = 0.
Proof.
  unfold pair_count, sumZ. induction l as [|[a b] l IH]; intros H; [reflexivity|].
  simpl. destruct (H a b) as [Ha Hb]; [left|].
  apply String.eqb_neq in Ha, Hb. rewrite Ha, Hb.
  rewrite IH; [reflexivity|]. intros c d Hcd. apply H. now right.
Qed.

Lemma pair_count_first x p t :
  x <> p ->
  pair_count p (map (pair x) t)
  = sumZ (map (fun y => if String.eqb y p then 1 else 0) t).
Proof.
  intros Hx. apply String.eqb_neq in Hx.
  unfold pair_count, sumZ. induction t as [|y t IH]; [reflexivity|].
  simpl. rewrite Hx, IH. lia.
Qed.

Lemma pair_count_first_self x t :
  x ∉ t -> pair_count x (map (pair x) t) = Z.of_nat (length t).
Proof.
  unfold pair_count, sumZ. induction t as [|y t IH]; intros Hx; [reflexivity|].
  apply not_elem_of_cons in Hx as [Hne Hx]. simpl map. simpl foldr.
  rewrite String.eqb_refl.
  assert (String.eqb y x = false) as -> by (apply String.eqb_neq; congruence).
  rewrite IH by exact Hx. simpl length. lia.
Qed.

Lemma occurrences_NoDup (p : string) t :
  NoDup t ->
  sumZ (map (fun y => if String.eqb y p then 1 else 0) t)
  = if bool_decide (p ∈ t) then 1 else 0.
Proof.
  unfold sumZ. induction 1 as [|y t Hy Hnd IH]; [reflexivity|].
  simpl. rewrite IH. destruct (String.eqb_spec y p) as [->|Hne].
  - rewrite bool_decide_eq_false_2 by exact Hy.
    rewrite bool_decide_eq_true_2 by left. reflexivity.
  - case_bool_decide as Hin.
    + rewrite bool_decide_eq_true_2 by now right. reflexivity.
    + rewrite bool_decide_eq_false_2; [reflexivity|].
      intros C. apply elem_of_cons in C as [C|C]; congruence.
Qed.

(** Among distinct participants every one is in [n - 1] matchups. *)
Lemma pair_count_combinations2 (l : list string) p :
  NoDup l -> p ∈ l ->
  pair_count p (combinations2 l) = Z.of_nat (length l) - 1.
Proof.
  induction 1 as [|x t Hx Hnd IH]; intros Hp.
  - now apply not_elem_of_nil in Hp.
  - simpl combinations2. rewrite pair_count_app. simpl length.
    apply elem_of_cons in Hp as [->|Hp].
    + rewrite pair_count_first_self by exact Hx.
      rewrite pair_count_absent; [lia|].
      intros a b Hab. apply combinations2_elem in Hab as [Ha Hb].
      split; congruence.
    + assert (Hne : x <> p) by congruence.
      rewrite pair_count_first by exact Hne.
      rewrite occurrences_NoDup by exact Hnd.
      rewrite bool_decide_eq_true_2 by exact Hp.
      rewrite IH by exact Hp. lia.
Qed.

(** *** The score table *)

Lemma od_get_od_add d k n k' :
  od_get (od_add d k n) k'
  = od_get d k' + (if String.eqb k k' then n else 0).
Proof.
  induction d as [|[k0 v] d IH]; simpl.
  - destruct (String.eqb k k'); lia.
  - destruct (String.eqb_spec k0 k) as [->|Hne]; simpl.
    + destruct (String.eqb k k'); lia.
    + destruct (String.eqb_spec k0 k') as [->|Hne'].
      * assert (String.eqb k k' = false) as ->
          by (apply String.eqb_neq; congruence). lia.
      * exact IH.
Qed.

Lemma od_add_keys d k n p :
  p ∈ (od_add d k n).*1 <-> p = k \/ p ∈ d.*1.
Proof.
  induction d as [|[k0 v] d IH]; simpl.
  - rewrite list_elem_of_singleton. split; [auto|].
    intros [H|H]; [exact H | now apply not_elem_of_nil in H].
  - destruct (String.eqb_spec k0 k) as [->|Hne]; simpl.
    + rewrite elem_of_cons. tauto.
    + rewrite !elem_of_cons, IH. tauto.
Qed.

Lemma od_add_NoDup d k n : NoDup d.*1 -> NoDup (od_add d k n).*1.
Proof.
  induction d as [|[k0 v] d IH]; simpl; intros H.
  - repeat constructor. apply not_elem_of_nil.
  - apply NoDup_cons in H as [H1 H2].
    destruct (String.eqb_spec k0 k) as [->|Hne]; simpl.
    + now apply NoDup_cons.
    + apply NoDup_cons. split; [|now apply IH].
      rewrite od_add_keys. intros [C|C]; [congruence | contradiction].
Qed.

Lemma od_get_elem d p sc :
  NoDup d.*1 -> (p, sc) ∈ d -> od_get d p = sc.
Proof.
  induction d as [|[k0 v] d IH]; simpl; intros Hnd Hin.
  - now apply not_elem_of_nil in Hin.
  - apply NoDup_cons in Hnd as [H1 H2].
    apply elem_of_cons in Hin as [Hin|Hin].
    + inversion Hin; subst. now rewrite String.eqb_refl.
    + destruct (String.eqb_spec k0 p) as [->|Hne]; [|now apply IH].
      exfalso. apply H1. apply list_elem_of_fmap. exists (p, sc). auto.
Qed.

(** *** The matches *)

Lemma dd_add_get d k n p :
  from_option (fun x => x) 0 (dd_add d k n !! p)
  = from_option (fun x => x) 0 (d !! p) + (if String.eqb k p then n else 0).
Proof.
  unfold dd_add. destruct (String.eqb_spec k p) as [->|Hne].
  - rewrite lookup_insert_eq. reflexivity.
  - rewrite lookup_insert_ne by exact Hne. lia.
Qed.

Lemma logged_score_snoc p log md :
  logged_score p (log ++ [md])
  = logged_score p log
    + ((if String.eqb (md_p1_id md) p then md_score1 md else 0)
       + (if String.eqb (md_p2_id md) p then md_score2 md else 0)).
Proof. unfold logged_score. rewrite map_app, sumZ_app. simpl. lia. Qed.

Lemma logged_games_snoc p log md :
  logged_games p (log ++ [md])
  = logged_games p log
    + ((if String.eqb (md_p1_id md) p then 1 else 0)
       + (if String.eqb (md_p2_id md) p then 1 else 0)).
Proof. unfold logged_games. rewrite map_app, sumZ_app. simpl. lia. Qed.

Lemma logged_games_pair_count p log :
  logged_games p log = pair_count p (map md_players log).
Proof.
  unfold logged_games, pair_count. rewrite map_map. reflexivity.
Qed.

(** A Round Robin match returns, appends its result to the log and keeps
    the tables in agreement with the log. *)
Lemma round_robin_match_returns reg rounds noise fp v p1 p2 w :
  registry_game_safe reg ->
  exists v' w' md,
    round_robin_match reg rounds noise fp v (p1, p2) w = (Ok v', w') /\
    rr_matches v' = rr_matches v ++ [md] /\
    md_players md = (p1, p2) /\
    (rr_consistent v -> rr_consistent v').
Proof.
  intros Hreg.
  destruct (play_match_returns reg p1 p2 rounds noise fp (rng w) Hreg)
    as (g' & s' & E & _).
  eexists _, _, _. split; [|split; [|split]].
  - unfold round_robin_match. cbv beta iota.
    erewrite bind_ok by (apply lift_rng_ok; exact E).
    cbn [snd]. cbv beta iota.
    erewrite bind_ok by reflexivity. reflexivity.
  - reflexivity.
  - reflexivity.
  - intros (Hnd & Hsc & Hg & Hk). unfold rr_consistent. cbn [rr_scores rr_games rr_matches].
    split; [now apply od_add_NoDup, od_add_NoDup|].
    split; [|split].
    + intros p. rewrite !od_get_od_add, logged_score_snoc, Hsc. simpl. lia.
    + intros p. rewrite !dd_add_get, logged_games_snoc, Hg. simpl. lia.
    + intros p. rewrite !od_add_keys, Hk. split.
      * intros [-> | [-> | (md & Hmd & Hor)]].
        -- eexists. split; [apply elem_of_app; right; left|]. simpl. auto.
        -- eexists. split; [apply elem_of_app; right; left|]. simpl. auto.
        -- exists md. split; [apply elem_of_app; now left | exact Hor].
      * intros (md & Hmd & Hor). apply elem_of_app in Hmd as [Hmd|Hmd].
        -- right. right. eauto.
        -- apply list_elem_of_singleton in Hmd. subst md. simpl in Hor.
           destruct Hor as [-> | ->]; auto.
Qed.

Lemma for_each_round_robin reg rounds noise fp : forall l v w,
  registry_game_safe reg ->
  exists v' w',
    for_each (round_robin_match reg rounds noise fp) l v w = (Ok v', w') /\
    map md_players (rr_matches v') = map md_players (rr_matches v) ++ l /\
    (rr_consistent v -> rr_consistent v').
Proof.
  induction l as [|[a b] l IH]; intros v w Hreg.
  - exists v, w. simpl. rewrite app_nil_r. auto.
  - destruct (round_robin_match_returns reg rounds noise fp v a b w Hreg)
      as (v1 & w1 & md & E & Hlog & Hmd & Hc).
    destruct (IH v1 w1 Hreg) as (v2 & w2 & E2 & Hlog2 & Hc2).
    exists v2, w2. simpl for_each. erewrite bind_ok by exact E.
    split; [exact E2|]. split; [|auto].
    rewrite Hlog2, Hlog, map_app. simpl. rewrite Hmd, <- app_assoc.
    reflexivity.
Qed.

Lemma rr_consistent_initial : rr_consistent (mkRRVars [] ∅ []).
Proof.
  unfold rr_consistent. simpl. split; [constructor|]. split; [|split].
  - reflexivity.
  - intros p. rewrite lookup_empty. reflexivity.
  - intros p. split; [intros H; now apply not_elem_of_nil in H|].
    intros (md & H & _). now apply not_elem_of_nil in H.
Qed.

(** The whole branch. *)
Lemma run_round_robin_returns reg rounds noise fp participants w :
  registry_game_safe reg ->
  exists v w',
    run_round_robin reg rounds noise fp participants w
    = (Ok {| rr_winner_id := fst <$> head (sorted_by Z.ltb snd true (rr_scores v));
             rr_ranked := sorted_by Z.ltb snd true (rr_scores v);
             rr_final_standings :=
               imap (standing_of reg (rr_games v))
                    (sorted_by Z.ltb snd true (rr_scores v));
             rr_vars := v |}, w') /\
    map md_players (rr_matches v) = combinations2 participants /\
    rr_consistent v.
Proof.
  intros Hreg.
  destruct (for_each_round_robin reg rounds noise fp
              (combinations2 participants) (mkRRVars [] ∅ []) w Hreg)
    as (v & w' & E & Hlog & Hc).
  exists v, w'. unfold run_round_robin. erewrite bind_ok by exact E.
  split; [reflexivity|]. split; [exact Hlog|].
  apply Hc, rr_consistent_initial.
Qed.

(** X20.  Round Robin plays every pair once.  For [n >= 2] participants
    the run returns, the logged matches are the pairs of
    [itertools.combinations(participants, 2)] in that order, and there are
    [n (n - 1) / 2] of them. *)
Theorem round_robin_plays_every_pair
    (registry : gmap string StrategyMeta) (rounds_per_game : Z)
    (noise fp : float) (participants : list string) (w : World) :
  registry_game_safe registry ->
  (2 <= length participants)%nat ->
  exists r w',
    run_tournament_round_robin registry rounds_per_game noise fp
                               participants w
    = (Ok (RRFinished r), w') /\
    map md_players (rr_matches (rr_vars r)) = combinations2 participants /\
    (2 * length (rr_matches (rr_vars r))
     = length participants * (length participants - 1))%nat.
Proof.
  intros Hreg Hlen. unfold run_tournament_round_robin.
  destruct (length participants <? 2)%nat eqn:E;
    [apply Nat.ltb_lt in E; lia|].
  destruct (run_round_robin_returns registry rounds_per_game noise fp
              participants w Hreg) as (v & w' & Er & Hlog & _).
  eexists _, w'. erewrite bind_ok by exact Er.
  split; [reflexivity|]. simpl. split; [exact Hlog|].
  rewrite <- combinations2_length, <- Hlog, length_map. reflexivity.
Qed.

Lemma round_robin_plays_every_pair_witness :
  exists r w',
    run_tournament_round_robin BUILT_IN_STRATEGIES_META 10 0%float 0%float
      ["cooperate"; "defect"; "tit_for_tat"]%string world0
    = (Ok (RRFinished r), w') /\
    length (rr_matches (rr_vars r)) = 3%nat.
Proof.
  destruct (round_robin_plays_every_pair BUILT_IN_STRATEGIES_META 10
              0%float 0%float ["cooperate"; "defect"; "tit_for_tat"]%string
              world0 builtin_registry_safe)
    as (r & w' & E & _ & H).
  - simpl. lia.
  - exists r, w'. split; [exact E|]. simpl in H. lia.
Defined.

(** *** The standings *)

Lemma run_tournament_round_robin_returns reg rounds noise fp participants w :
  registry_game_safe reg ->
  (2 <= length participants)%nat ->
  exists v w',
    run_tournament_round_robin reg rounds noise fp participants w
    = (Ok (RRFinished
            {| rr_winner_id :=
                 fst <$> head (sorted_by Z.ltb snd true (rr_scores v));
               rr_ranked := sorted_by Z.ltb snd true (rr_scores v);
               rr_final_standings :=
                 imap (standing_of reg (rr_games v))
                      (sorted_by Z.ltb snd true (rr_scores v));
               rr_vars := v |}), w') /\
    map md_players (rr_matches v) = combinations2 participants /\
    rr_consistent v.
Proof.
  intros Hreg Hlen. unfold run_tournament_round_robin.
  destruct (length participants <? 2)%nat eqn:E;
    [apply Nat.ltb_lt in E; lia|].
  destruct (run_round_robin_returns reg rounds noise fp participants w Hreg)
    as (v & w' & Er & Hlog & Hc).
  exists v, w'. erewrite bind_ok by exact Er. auto.
Qed.

Lemma ranked_score_desc (scores : list (string * Z)) :
  StronglySorted score_desc (sorted_by Z.ltb snd true scores).
Proof.
  unfold sorted_by. apply stable_sort_sorted; unfold score_desc.
  - intros x y H. apply Z.ltb_ge in H. exact H.
  - intros x y H. apply Z.ltb_lt in H. lia.
  - intros x y z. lia.
Qed.

Lemma map_imap_inverse {A B} (g : B -> A) (l : list A) :
  forall f : nat -> A -> B,
    (forall i x, g (f i x) = x) -> map g (imap f l) = l.
Proof.
  induction l as [|x l IH]; intros f H; [reflexivity|].
  simpl. rewrite H. f_equal. apply IH. intros i y. apply H.
Qed.

Lemma standings_rows reg games (ranked : list (string * Z)) :
  map (fun s => (st_id s, st_score s)) (imap (standing_of reg games) ranked)
  = ranked.
Proof. apply map_imap_inverse. intros i [p sc]. reflexivity. Qed.

Lemma standings_ids reg games (ranked : list (string * Z)) :
  map st_id (imap (standing_of reg games) ranked) = ranked.*1.
Proof.
  rewrite <- (standings_rows reg games ranked) at 2.
  change (map ?f ?l) with (f <$> l). rewrite <- list_fmap_compose.
  reflexivity.
Qed.

Lemma played_ids participants (log : list MatchData) p :
  (2 <= length participants)%nat ->
  map md_players log = combinations2 participants ->
  (exists md, md ∈ log /\ (p = md_p1_id md \/ p = md_p2_id md))
  <-> p ∈ participants.
Proof.
  intros Hlen Hlog. split.
  - intros (md & Hmd & Hor).
    assert (md_players md ∈ combinations2 participants) as Hin.
    { rewrite <- Hlog. apply list_elem_of_In, in_map, list_elem_of_In, Hmd. }
    apply combinations2_elem in Hin as [H1 H2].
    destruct Hor as [-> | ->]; assumption.
  - intros Hp.
    destruct (combinations2_covers participants p Hlen Hp)
      as (a & b & Hab & Hor).
    rewrite <- Hlog in Hab.
    apply list_elem_of_In, in_map_iff in Hab as (md & Emd & Hmd).
    exists md. split; [now apply list_elem_of_In|].
    unfold md_players in Emd. inversion Emd; subst. exact Hor.
Qed.

(** X21.  The Round Robin table.  For [n >= 2] participants the standings
    have one row for each participant and no other row, the row at
    position [i] has rank [i + 1], the scores descend down the table, and
    the reported winner is the id of the first row, whose score no row
    exceeds. *)
Theorem round_robin_standings
    (registry : gmap string StrategyMeta) (rounds_per_game : Z)
    (noise fp : float) (participants : list string) (w : World) :
  registry_game_safe registry ->
  (2 <= length participants)%nat ->
  exists r w',
    run_tournament_round_robin registry rounds_per_game noise fp
                               participants w
    = (Ok (RRFinished r), w') /\
    NoDup (map st_id (rr_final_standings r)) /\
    (forall p, p ∈ map st_id (rr_final_standings r) <-> p ∈ participants) /\
    (forall i s, rr_final_standings r !! i = Some s ->
                 rank s = Z.of_nat i + 1) /\
    StronglySorted score_desc
      (map (fun s => (st_id s, st_score s)) (rr_final_standings r)) /\
    (exists top rest,
        rr_final_standings r = top :: rest /\
        rr_winner_id r = Some (st_id top) /\
        forall s, s ∈ rr_final_standings r -> st_score s <= st_score top).
Proof.
  intros Hreg Hlen.
  destruct (run_tournament_round_robin_returns registry rounds_per_game
              noise fp participants w Hreg Hlen)
    as (v & w' & E & Hlog & Hnd & Hsc & Hg & Hk).
  eexists _, w'. split; [exact E|]. cbn [rr_final_standings rr_winner_id].
  set (ranked := sorted_by Z.ltb snd true (rr_scores v)).
  assert (ranked ≡ₚ rr_scores v) as Hperm by apply sorted_by_perm.
  assert (forall p, p ∈ ranked.*1 <-> p ∈ participants) as Hids.
  { intros p. rewrite Hperm, Hk. now apply played_ids. }
  pose proof (ranked_score_desc (rr_scores v)) as Hsorted.
  fold ranked in Hsorted.
  split; [|split; [|split; [|split]]].
  - rewrite standings_ids, Hperm. exact Hnd.
  - intros p. rewrite standings_ids. apply Hids.
  - intros i s Hi. rewrite list_lookup_imap in Hi.
    destruct (ranked !! i) as [[p sc]|]; [|discriminate Hi].
    inversion Hi. reflexivity.
  - rewrite standings_rows. exact Hsorted.
  - destruct ranked as [|[p sc] rest] eqn:Er.
    + exfalso. destruct participants as [|x t]; [simpl in Hlen; lia|].
      assert (x ∈ ([] : list (string * Z)).*1) as H by (apply Hids; left).
      now apply not_elem_of_nil in H.
    + eexists _, _. split; [reflexivity|]. split; [reflexivity|].
      intros s Hs. cbn [st_score standing_of].
      assert ((st_id s, st_score s) ∈ (p, sc) :: rest) as Hrow.
      { rewrite <- (standings_rows registry (rr_games v) ((p, sc) :: rest)).
        apply list_elem_of_In, (in_map (fun s => (st_id s, st_score s))),
              list_elem_of_In, Hs. }
      apply StronglySorted_inv in Hsorted as [_ Hall].
      apply elem_of_cons in Hrow as [Hrow|Hrow].
      * inversion Hrow. lia.
      * rewrite Forall_forall in Hall. apply (Hall _ Hrow).
Qed.

Lemma round_robin_standings_witness :
  exists r w',
    run_tournament_round_robin BUILT_IN_STRATEGIES_META 10 0%float 0%float
      ["cooperate"; "defect"; "tit_for_tat"]%string world0
    = (Ok (RRFinished r), w') /\
    NoDup (map st_id (rr_final_standings r)).
Proof.
  destruct (round_robin_standings BUILT_IN_STRATEGIES_META 10
              0%float 0%float ["cooperate"; "defect"; "tit_for_tat"]%string
              world0 builtin_registry_safe)
    as (r & w' & E & H & _).
  - simpl. lia.
  - exists r, w'. split; [exact E | exact H].
Defined.

(** X22.  The Round Robin table agrees with the match log.  Every row
    shows the display name of its id, the sum of the scores logged for the
    id and the number of logged matches the id played in; when the
    participants are pairwise distinct that number is [n - 1] for every
    row. *)
Theorem round_robin_table_matches_log
    (registry : gmap string StrategyMeta) (rounds_per_game : Z)
    (noise fp : float) (participants : list string) (w : World) :
  registry_game_safe registry ->
  (2 <= length participants)%nat ->
  exists r w',
    run_tournament_round_robin registry rounds_per_game noise fp
                               participants w
    = (Ok (RRFinished r), w') /\
    forall s, s ∈ rr_final_standings r ->
      st_name s = name_or_id registry (st_id s) /\
      st_score s = logged_score (st_id s) (rr_matches (rr_vars r)) /\
      st_games s = logged_games (st_id s) (rr_matches (rr_vars r)) /\
      (NoDup participants ->
       st_games s = Z.of_nat (length participants) - 1).
Proof.
  intros Hreg Hlen.
  destruct (run_tournament_round_robin_returns registry rounds_per_game
              noise fp participants w Hreg Hlen)
    as (v & w' & E & Hlog & Hnd & Hsc & Hg & Hk).
  eexists _, w'. split; [exact E|].
  cbn [rr_final_standings rr_vars].
  set (ranked := sorted_by Z.ltb snd true (rr_scores v)).
  assert (ranked ≡ₚ rr_scores v) as Hperm by apply sorted_by_perm.
  intros s Hs. apply list_elem_of_lookup in Hs as [i Hi].
  rewrite list_lookup_imap in Hi.
  destruct (ranked !! i) as [[p sc]|] eqn:Ei; [|discriminate Hi].
  inversion Hi; subst s. cbn [st_name st_id st_score st_games standing_of].
  assert ((p, sc) ∈ rr_scores v) as Hin.
  { rewrite <- Hperm. eapply list_elem_of_lookup_2, Ei. }
  split; [reflexivity|]. split; [|split].
  - rewrite <- Hsc. symmetry. now apply od_get_elem.
  - apply Hg.
  - intros Hdistinct. rewrite Hg, logged_games_pair_count, Hlog.
    apply pair_count_combinations2; [exact Hdistinct|].
    apply (played_ids participants (rr_matches v) p Hlen Hlog), Hk.
    apply list_elem_of_In, (in_map fst) in Hin. now apply list_elem_of_In in Hin.
Qed.

Lemma round_robin_table_matches_log_witness :
  exists r w',
    run_tournament_round_robin BUILT_IN_STRATEGIES_META 10 0%float 0%float
      ["cooperate"; "defect"; "tit_for_tat"]%string world0
    = (Ok (RRFinished r), w') /\
    forall s, s ∈ rr_final_standings r ->
      st_score s = logged_score (st_id s) (rr_matches (rr_vars r)).
Proof.
  destruct (round_robin_table_matches_log BUILT_IN_STRATEGIES_META 10
              0%float 0%float ["cooperate"; "defect"; "tit_for_tat"]%string
              world0 builtin_registry_safe)
    as (r & w' & E & H).
  - simpl. lia.
  - exists r, w'. split; [exact E|]. intros s Hs. apply (H s Hs).
Defined.


(* ------------------------------------------------------------------------- *)
(** ** The single game tab *)

Lemma timer_ticks_inactive reg n s w :
  timer_active s = false -> timer_ticks reg n s w = (Ok s, w).
Proof. intros H. destruct n; simpl; [reflexivity|]. now rewrite H. Qed.

(** While the counter is below the maximum, [k] ticks of the timer play
    the rounds [play_rounds] plays. *)
Lemma timer_ticks_play_rounds reg (k : nat) : forall g mx w,
  game_safe (strategy1_func g) -> game_safe (strategy2_func g) ->
  length (history1 g) = length (history2 g) ->
  Z.of_nat (length (history1 g)) + Z.of_nat k <= mx ->
  exists g' r',
    play_rounds g (seqZ (Z.of_nat (length (history1 g))) (Z.of_nat k)) (rng w)
    = (Ok g', r') /\
    same_setup g g' /\
    length (history1 g') = (length (history1 g) + k)%nat /\
    forall n,
      timer_ticks reg (k + n)
        (mkSingleGame (Some g) (Z.of_nat (length (history1 g))) mx true) w
      = timer_ticks reg n
          (mkSingleGame (Some g') (Z.of_nat (length (history1 g'))) mx true)
          (mkWorld r' (PLAYER_STATS w)).
Proof.
  induction k as [|k IH]; intros g mx w Hf1 Hf2 Hlen Hmx.
  - exists g, (rng w). rewrite seqZ_nil by lia. simpl.
    split; [reflexivity|]. split; [apply same_setup_refl|].
    split; [lia|]. intros n. now destruct w.
  - rewrite seqZ_cons by lia. simpl play_rounds.
    destruct (play_round_returns g (rng w) Hf1 Hf2 Hlen) as (m1 & m2 & s1 & E).
    erewrite bind_ok by exact E. cbn [fst].
    set (g1 := record_round g m1 m2).
    assert (Hs : same_setup g g1) by apply record_round_setup.
    pose proof Hs as (_ & _ & _ & _ & _ & F1 & F2 & _).
    assert (L1 : length (history1 g1) = Datatypes.S (length (history1 g))).
    { unfold g1. rewrite record_round_history1, length_app. simpl. lia. }
    assert (L2 : length (history2 g1) = Datatypes.S (length (history2 g))).
    { unfold g1. rewrite record_round_history2, length_app. simpl. lia. }
    destruct (IH g1 mx (mkWorld s1 (PLAYER_STATS w))) as (g' & r' & E' & Hs' & L' & T');
      [now rewrite F1 | now rewrite F2 | lia | lia |].
    exists g', r'. cbn [rng PLAYER_STATS] in E', T'.
    replace (Z.succ (Z.of_nat (length (history1 g))))
      with (Z.of_nat (length (history1 g1))) by lia.
    replace (Z.pred (Z.of_nat (Datatypes.S k))) with (Z.of_nat k) by lia.
    split; [exact E'|]. split; [eapply same_setup_trans; eassumption|].
    split; [lia|]. intros n. rewrite <- T'.
    cbn [Nat.add timer_ticks timer_active].
    assert (run_single_game_step reg
              (mkSingleGame (Some g) (Z.of_nat (length (history1 g))) mx true) w
            = (Ok (mkSingleGame (Some g1) (Z.of_nat (length (history1 g1)))
                                mx true),
               mkWorld s1 (PLAYER_STATS w))) as Hstep.
    { unfold run_single_game_step.
      cbn [current_game single_game_round_counter single_game_max_rounds
           timer_active].
      assert ((Z.of_nat (length (history1 g)) <? mx) = true) as ->
        by (apply Z.ltb_lt; lia).
      unfold try_except.
      erewrite bind_ok by (apply lift_rng_ok; exact E).
      unfold ret. cbn [fst]. do 3 f_equal. lia. }
    erewrite bind_ok by exact Hstep. reflexivity.
Qed.

(** X23.  The animated single game is the game of the engine.  When no
    game is running (the timer is not active) and two registered strategies
    with non-empty ids are started for [rounds >= 0] rounds, then after
    [rounds] ticks of the timer the current game is the game [run_game]
    leaves on the same random draws, and the next tick ends it: the game is
    cleared, the timer stops, and the players' statistics are updated once
    with the final scores (not at all when no round was played); further
    ticks change nothing. *)
Theorem single_game_is_run_game
    (registry : gmap string StrategyMeta) (noise fp : float)
    (p1_id p2_id : string) (rounds : Z) (s : SingleGame) (w : World) :
  registry_game_safe registry ->
  is_Some (registry !! p1_id) -> is_Some (registry !! p2_id) ->
  p1_id <> ""%string -> p2_id <> ""%string ->
  timer_active s = false ->
  0 <= rounds ->
  exists g' r',
    play_match registry p1_id p2_id rounds noise fp (rng w)
    = (Ok (g', (score1 g', score2 g',
                join (history1 g'), join (history2 g'))), r') /\
    (s0 <- start_single_game registry noise fp s p1_id p2_id rounds ;;
     timer_ticks registry (Z.to_nat rounds) s0) w
    = (Ok (mkSingleGame (Some g') rounds rounds true),
       mkWorld r' (PLAYER_STATS w)) /\
    forall n, (Z.to_nat rounds < n)%nat ->
      (s0 <- start_single_game registry noise fp s p1_id p2_id rounds ;;
       timer_ticks registry n s0) w
      = (Ok (mkSingleGame None rounds rounds false),
         mkWorld r'
           (if 0 <? rounds
            then update_player_stats registry (PLAYER_STATS w) p1_id p2_id
                                     (score1 g') (score2 g')
            else PLAYER_STATS w)).
Proof.
  intros Hreg [meta1 H1] [meta2 H2] Hne1 Hne2 Hoff Hrounds.
  set (g0 := Game_init registry p1_id p2_id rounds noise fp).
  assert (start_single_game registry noise fp s p1_id p2_id rounds w
          = (Ok (mkSingleGame (Some g0) 0 rounds true), w)) as Hstart.
  { unfold start_single_game. rewrite Hoff. rewrite bind_ret.
    apply String.eqb_neq in Hne1, Hne2. rewrite Hne1, Hne2. cbn [orb].
    rewrite !bool_decide_eq_false_2 by congruence. reflexivity. }
  destruct (timer_ticks_play_rounds registry (Z.to_nat rounds) g0 rounds w)
    as (g' & r' & E & Hs & L & T).
  { apply func_or_dummy_safe, Hreg. }
  { apply func_or_dummy_safe, Hreg. }
  { reflexivity. }
  { simpl. lia. }
  simpl (length (history1 g0)) in *. rewrite Z2Nat.id in E by exact Hrounds.
  cbn [Nat.add] in L. change (Z.of_nat 0) with 0 in T.
  assert (Z.of_nat (length (history1 g')) = rounds) as L' by lia.
  rewrite L' in T.
  exists g', r'. split; [|split].
  - unfold play_match, run_game. fold g0.
    erewrite bind_ok by exact E. reflexivity.
  - erewrite bind_ok by exact Hstart.
    specialize (T 0%nat). rewrite Nat.add_0_r in T. rewrite T. reflexivity.
  - intros n Hn. erewrite bind_ok by exact Hstart.
    replace n with (Z.to_nat rounds + Datatypes.S (n - Z.to_nat rounds - 1))%nat
      by lia.
    rewrite T. cbn [timer_ticks timer_active].
    destruct Hs as (I1 & I2 & _).
    assert (run_single_game_step registry
              (mkSingleGame (Some g') rounds rounds true)
              (mkWorld r' (PLAYER_STATS w))
            = (Ok (mkSingleGame None rounds rounds false),
               mkWorld r'
                 (if 0 <? rounds
                  then update_player_stats registry (PLAYER_STATS w)
                         p1_id p2_id (score1 g') (score2 g')
                  else PLAYER_STATS w))) as Hstep.
    { unfold run_single_game_step.
      cbn [current_game single_game_round_counter single_game_max_rounds].
      rewrite Z.ltb_irrefl. unfold stop_single_game.
      cbn [current_game single_game_round_counter single_game_max_rounds].
      rewrite L', I1, I2. unfold g0. cbn [strategy1_id strategy2_id Game_init].
      destruct (0 <? rounds); reflexivity. }
    erewrite bind_ok by exact Hstep.
    now apply timer_ticks_inactive.
Qed.

Lemma single_game_is_run_game_witness :
  exists g' r',
    (s0 <- start_single_game BUILT_IN_STRATEGIES_META 0%float 0%float
             (mkSingleGame None 0 0 false) "tit_for_tat" "defect" 5 ;;
     timer_ticks BUILT_IN_STRATEGIES_META (Z.to_nat 5) s0) world0
    = (Ok (mkSingleGame (Some g') 5 5 true),
       mkWorld r' (PLAYER_STATS world0)).
Proof.
  destruct (single_game_is_run_game BUILT_IN_STRATEGIES_META 0%float 0%float
              "tit_for_tat" "defect" 5 (mkSingleGame None 0 0 false) world0
              builtin_registry_safe)
    as (g' & r' & _ & H & _).
  - vm_compute. eauto.
  - vm_compute. eauto.
  - discriminate.
  - discriminate.
  - reflexivity.
  - lia.
  - exists g', r'. exact H.
Defined.

(* ------------------------------------------------------------------------- *)
(** ** The sandbox *)

(** With two automatic players, Next Round is [play_round] on the sandbox
    game with the length of the history as round number. *)
Lemma sandbox_auto_round reg noise fp s g meta1 meta2 r out r' :
  sandbox_game s = Some g ->
  sandbox_p1_manual s = false -> sandbox_p2_manual s = false ->
  reg !! sandbox_p1_combo s = Some meta1 ->
  reg !! sandbox_p2_combo s = Some meta2 ->
  strategy1_func g = func meta1 -> strategy2_func g = func meta2 ->
  noise_prob g = noise -> forgiveness_prob g = fp ->
  play_round g (Z.of_nat (length (history1 g))) r = (Ok out, r') ->
  sandbox_play_next_round reg noise fp s r
  = (Ok (mkSandbox (sandbox_p1_combo s) (sandbox_p2_combo s)
                   (Some (fst out)) false false None None), r').
Proof.
  intros Hg Hm1 Hm2 H1 H2 F1 F2 Hn Hf.
  unfold sandbox_play_next_round, play_round, sandbox_intended, try_except.
  rewrite Hg, Hm1, Hm2, H1, H2, F1, F2, Hn, Hf.
  unfold bind, ret, random_below, random_random, next_draw.
  destruct (func meta1 _ _ _ _ r) as [[m1| |] r1]; [|discriminate..].
  destruct (func meta2 _ _ _ _ r1) as [[m2| |] r2]; [|discriminate..].
  cbn. intros E. inversion E. reflexivity.
Qed.

Lemma sandbox_rounds_play_rounds reg noise fp p1 p2 meta1 meta2 (k : nat) :
  forall g r,
  reg !! p1 = Some meta1 -> reg !! p2 = Some meta2 ->
  strategy1_func g = func meta1 -> strategy2_func g = func meta2 ->
  noise_prob g = noise -> forgiveness_prob g = fp ->
  game_safe (func meta1) -> game_safe (func meta2) ->
  length (history1 g) = length (history2 g) ->
  exists g' r',
    play_rounds g (seqZ (Z.of_nat (length (history1 g))) (Z.of_nat k)) r
    = (Ok g', r') /\
    sandbox_rounds reg noise fp k
      (mkSandbox p1 p2 (Some g) false false None None) r
    = (Ok (mkSandbox p1 p2 (Some g') false false None None), r').
Proof.
  induction k as [|k IH]; intros g r H1 H2 F1 F2 Hn Hf S1 S2 Hlen.
  - exists g, r. rewrite seqZ_nil by lia. split; reflexivity.
  - rewrite seqZ_cons by lia. simpl play_rounds.
    destruct (play_round_returns g r) as (m1 & m2 & r1 & E);
      [now rewrite F1 | now rewrite F2 | exact Hlen |].
    erewrite bind_ok by exact E. cbn [fst].
    set (g1 := record_round g m1 m2).
    pose proof (record_round_setup g m1 m2) as (_ & _ & _ & I4 & I5 & I6 & I7 & _).
    fold g1 in I4, I5, I6, I7.
    assert (L1 : length (history1 g1) = Datatypes.S (length (history1 g))).
    { unfold g1. rewrite record_round_history1, length_app. simpl. lia. }
    assert (L2 : length (history2 g1) = Datatypes.S (length (history2 g))).
    { unfold g1. rewrite record_round_history2, length_app. simpl. lia. }
    destruct (IH g1 r1) as (g' & r' & E' & T'); try assumption;
      try congruence.
    exists g', r'.
    replace (Z.succ (Z.of_nat (length (history1 g))))
      with (Z.of_nat (length (history1 g1))) by lia.
    replace (Z.pred (Z.of_nat (Datatypes.S k))) with (Z.of_nat k) by lia.
    split; [exact E'|]. cbn [sandbox_rounds].
    erewrite bind_ok.
    2:{ eapply (sandbox_auto_round reg noise fp
                  (mkSandbox p1 p2 (Some g) false false None None));
        try reflexivity; try eassumption. }
    exact T'.
Qed.

(** X24.  The sandbox with two automatic players plays the engine's game.
    After a reset with two registered strategies selected, whose ids are
    neither the empty string nor the id "manual" of manual play, [k] clicks
    on Next Round leave the game that [Game.play_round], called for the
    rounds [0 .. k-1] of a new game of these strategies, leaves on the same
    random draws; [k] is not bounded by [MAX_ROUNDS]. *)
Theorem sandbox_plays_engine_rounds
    (registry : gmap string StrategyMeta) (noise fp : float)
    (s : Sandbox) (k : nat) (r : Rng) :
  registry_game_safe registry ->
  is_Some (registry !! sandbox_p1_combo s) ->
  is_Some (registry !! sandbox_p2_combo s) ->
  sandbox_p1_combo s <> ""%string -> sandbox_p1_combo s <> "manual"%string ->
  sandbox_p2_combo s <> ""%string -> sandbox_p2_combo s <> "manual"%string ->
  exists g' r',
    play_rounds (Game_init registry (sandbox_p1_combo s) (sandbox_p2_combo s)
                           MAX_ROUNDS noise fp)
                (seqZ 0 (Z.of_nat k)) r
    = (Ok g', r') /\
    sandbox_rounds registry noise fp k
      (sandbox_reset registry noise fp (update_sandbox_ui s)) r
    = (Ok (mkSandbox (sandbox_p1_combo s) (sandbox_p2_combo s) (Some g')
                     false false None None), r').
Proof.
  intros Hreg [meta1 H1] [meta2 H2] He1 Hm1 He2 Hm2.
  apply String.eqb_neq in He1, Hm1, He2, Hm2.
  set (g0 := Game_init registry (sandbox_p1_combo s) (sandbox_p2_combo s)
                       MAX_ROUNDS noise fp).
  assert (sandbox_reset registry noise fp (update_sandbox_ui s)
          = mkSandbox (sandbox_p1_combo s) (sandbox_p2_combo s) (Some g0)
                      false false None None) as ->.
  { unfold sandbox_reset, update_sandbox_ui.
    cbn [sandbox_p1_combo sandbox_p2_combo sandbox_p1_manual sandbox_p2_manual].
    rewrite He1, He2, Hm1, Hm2. reflexivity. }
  apply (sandbox_rounds_play_rounds registry noise fp _ _ meta1 meta2 k g0 r);
    try assumption; try reflexivity.
  - unfold g0, Game_init, func_or_dummy. cbn. now rewrite H1.
  - unfold g0, Game_init, func_or_dummy. cbn. now rewrite H2.
  - eapply Hreg, H1.
  - eapply Hreg, H2.
Qed.

Lemma sandbox_plays_engine_rounds_witness :
  exists g' r',
    sandbox_rounds BUILT_IN_STRATEGIES_META 0%float 0%float 3
      (sandbox_reset BUILT_IN_STRATEGIES_META 0%float 0%float
         (update_sandbox_ui
            (mkSandbox "tit_for_tat" "defect" None false false None None)))
      rng0
    = (Ok (mkSandbox "tit_for_tat" "defect" (Some g') false false None None),
       r').
Proof.
  destruct (sandbox_plays_engine_rounds BUILT_IN_STRATEGIES_META
              0%float 0%float
              (mkSandbox "tit_for_tat" "defect" None false false None None)
              3 rng0 builtin_registry_safe)
    as (g' & r' & _ & H).
  - vm_compute. eauto.
  - vm_compute. eauto.
  - discriminate.
  - discriminate.
  - discriminate.
  - discriminate.
  - exists g', r'. exact H.
Defined.

Lemma sandbox_intended_returns reg fp manual choice p_id my opp r :
  registry_game_safe reg ->
  (manual = false -> is_Some (reg !! p_id)) ->
  length my = length opp ->
  exists m r',
    sandbox_intended reg fp manual choice p_id my opp
                     (Z.of_nat (length my)) r = (Ok m, r') /\
    (manual = true -> m = choice /\ r' = r) /\
    (manual = false -> m <> None).
Proof.
  intros Hreg Hp Hlen. unfold sandbox_intended. destruct manual.
  - exists choice, r. split; [reflexivity|]. split; [auto | discriminate].
  - destruct (Hp eq_refl) as [meta Hm]. rewrite Hm.
    destruct (Hreg _ _ Hm my opp fp r Hlen) as (m & r' & E).
    exists (Some m), r'. erewrite bind_ok by exact E.
    split; [reflexivity|]. split; [discriminate | discriminate].
Qed.

(** X25.  The Next Round button and the round.  For a sandbox game whose
    automatic players are registered: when the button is enabled
    ([is_ready]), a click records exactly one round and clears the manual
    choices; when it is not, a click records nothing and keeps the
    choices made so far. *)
Theorem sandbox_round_needs_all_moves
    (registry : gmap string StrategyMeta) (noise fp : float)
    (s : Sandbox) (g : Game) (r : Rng) :
  registry_game_safe registry ->
  sandbox_game s = Some g ->
  length (history1 g) = length (history2 g) ->
  (sandbox_p1_manual s = false -> is_Some (registry !! sandbox_p1_combo s)) ->
  (sandbox_p2_manual s = false -> is_Some (registry !! sandbox_p2_combo s)) ->
  exists s' r',
    sandbox_play_next_round registry noise fp s r = (Ok s', r') /\
    if sandbox_ready s
    then exists m1 m2,
           sandbox_game s' = Some (record_round g m1 m2) /\
           sandbox_p1_move s' = None /\ sandbox_p2_move s' = None
    else s' = s.
Proof.
  intros Hreg Hg Hlen Hp1 Hp2.
  destruct (sandbox_intended_returns registry fp (sandbox_p1_manual s)
              (sandbox_p1_move s) (sandbox_p1_combo s)
              (history1 g) (history2 g) r Hreg Hp1 Hlen)
    as (i1 & r1 & E1 & M1 & A1).
  destruct (sandbox_intended_returns registry fp (sandbox_p2_manual s)
              (sandbox_p2_move s) (sandbox_p2_combo s)
              (history2 g) (history1 g) r1 Hreg Hp2 (eq_sym Hlen))
    as (i2 & r2 & E2 & M2 & A2).
  rewrite <- Hlen in E2.
  unfold sandbox_play_next_round, sandbox_ready, try_except. rewrite Hg.
  erewrite bind_ok by exact E1. erewrite bind_ok by exact E2.
  destruct (sandbox_p1_manual s) eqn:F1, (sandbox_p2_manual s) eqn:F2;
    cbn [negb orb andb].
  - destruct (M1 eq_refl) as [-> _], (M2 eq_refl) as [-> _].
    destruct (sandbox_p1_move s) as [c1|], (sandbox_p2_move s) as [c2|];
      cbn; eauto 8.
  - destruct (M1 eq_refl) as [-> _]. specialize (A2 eq_refl).
    destruct i2 as [m2|]; [|congruence].
    destruct (sandbox_p1_move s) as [c1|]; cbn; eauto 8.
  - destruct (M2 eq_refl) as [-> _]. specialize (A1 eq_refl).
    destruct i1 as [m1|]; [|congruence].
    destruct (sandbox_p2_move s) as [c2|]; cbn; eauto 8.
  - specialize (A1 eq_refl). specialize (A2 eq_refl).
    destruct i1 as [m1|]; [|congruence]. destruct i2 as [m2|]; [|congruence].
    cbn. eauto 8.
Qed.

Lemma sandbox_round_needs_all_moves_witness :
  exists s' r',
    sandbox_play_next_round BUILT_IN_STRATEGIES_META 0%float 0%float
      (mkSandbox "manual" "tit_for_tat"
         (Some (Game_init BUILT_IN_STRATEGIES_META "manual_p1" "tit_for_tat"
                          MAX_ROUNDS 0%float 0%float))
         true false None None) rng0
    = (Ok s', r') /\
    s' = mkSandbox "manual" "tit_for_tat"
           (Some (Game_init BUILT_IN_STRATEGIES_META "manual_p1" "tit_for_tat"
                            MAX_ROUNDS 0%float 0%float))
           true false None None.
Proof.
  destruct (sandbox_round_needs_all_moves BUILT_IN_STRATEGIES_META
              0%float 0%float
              (mkSandbox "manual" "tit_for_tat"
                 (Some (Game_init BUILT_IN_STRATEGIES_META "manual_p1"
                                  "tit_for_tat" MAX_ROUNDS 0%float 0%float))
                 true false None None)
              (Game_init BUILT_IN_STRATEGIES_META "manual_p1" "tit_for_tat"
                         MAX_ROUNDS 0%float 0%float)
              rng0 builtin_registry_safe)
    as (s' & r' & E & H).
  - reflexivity.
  - reflexivity.
  - discriminate.
  - intros _. vm_compute. eauto.
  - exists s', r'. split; [exact E | exact H].
Defined.


(* ------------------------------------------------------------------------- *)
(** ** The rounds of the Elimination bracket *)

(** A round of the bracket halves the field, rounding up for the bye. *)
Lemma elimination_round_halves reg rounds noise fp s w :
  registry_game_safe reg ->
  (2 <= length (current_round_participants s))%nat ->
  (forall x, x ∈ current_round_participants s -> x ∈ dom (ranking s)) ->
  exists s' w',
    elimination_round reg rounds noise fp s w = (Ok s', w') /\
    length (current_round_participants s')
    = ((length (current_round_participants s) + 1) / 2)%nat /\
    status_log s' = status_log s ++
                    [(round_num s, length (current_round_participants s))] /\
    (forall x, x ∈ current_round_participants s' ->
               x ∈ current_round_participants s) /\
    dom (ranking s') = dom (ranking s).
Proof.
  intros Hreg Hlen Hdom. unfold elimination_round.
  set (cur := current_round_participants s) in *.
  pose proof (Nat.mod_upper_bound (length cur) 2 ltac:(lia)) as Hm.
  destruct (negb (length cur mod 2 =? 0)%nat) eqn:Hodd.
  - apply negb_true_iff, Nat.eqb_neq in Hodd.
    destruct cur as [|bye rest] eqn:Hcur; [simpl in Hlen; lia|].
    pose proof (consecutive_pairs_length rest) as Hp.
    pose proof (Nat.mod_upper_bound (length rest) 2 ltac:(lia)) as Hm'.
    assert (length (bye :: rest) = Datatypes.S (length rest)) as Hl0
      by reflexivity.
    edestruct (for_each_matches reg rounds noise fp (round_num s)
                 (consecutive_pairs rest)
                 {| next_round := [bye]; eliminated_this_round := [];
                    full_ranking_data := ranking s;
                    all_matches_data := matches s |} w Hreg)
      as (v' & w' & wins & E & Hn & Hl & Hw & Hmt & Hd).
    { intros a b Hab. apply consecutive_pairs_elem in Hab as [Ha Hb].
      simpl. split; apply Hdom; solve_elem. }
    simpl in Hn, Hd.
    eexists _, w'. split; [erewrite bind_ok by exact E; reflexivity|].
    cbn [current_round_participants status_log ranking].
    rewrite Hn. split; [|split; [reflexivity|split; [|exact Hd]]].
    + rewrite Hl0 in *. simpl length. rewrite Hl.
      assert (length rest = 2 * length (consecutive_pairs rest))%nat as ->.
      { pose proof (consecutive_pairs_length (bye :: rest)) as Hq.
        rewrite Hl0 in Hq. lia. }
      replace (Datatypes.S (2 * length (consecutive_pairs rest)) + 1)%nat
        with ((length (consecutive_pairs rest) + 1) * 2)%nat by lia.
      rewrite Nat.div_mul by lia. lia.
    + intros x Hx. apply elem_of_cons in Hx as [->|Hx]; [solve_elem|].
      destruct (Hw x Hx) as (a & b & Hab & Hor).
      apply consecutive_pairs_elem in Hab as [Ha Hb].
      destruct Hor as [-> | ->]; solve_elem.
  - apply negb_false_iff, Nat.eqb_eq in Hodd.
    pose proof (consecutive_pairs_length cur) as Hp.
    edestruct (for_each_matches reg rounds noise fp (round_num s)
                 (consecutive_pairs cur)
                 {| next_round := []; eliminated_this_round := [];
                    full_ranking_data := ranking s;
                    all_matches_data := matches s |} w Hreg)
      as (v' & w' & wins & E & Hn & Hl & Hw & Hmt & Hd).
    { intros a b Hab. apply consecutive_pairs_elem in Hab as [Ha Hb].
      simpl. split; apply Hdom; assumption. }
    simpl in Hn, Hd.
    eexists _, w'. split; [erewrite bind_ok by exact E; reflexivity|].
    cbn [current_round_participants status_log ranking].
    rewrite Hn. split; [|split; [reflexivity|split; [|exact Hd]]].
    + rewrite Hl.
      assert (length cur = 2 * length (consecutive_pairs cur))%nat as ->
        by lia.
      replace (2 * length (consecutive_pairs cur) + 1)%nat
        with (1 + length (consecutive_pairs cur) * 2)%nat by lia.
      rewrite Nat.div_add by lia. reflexivity.
    + intros x Hx. destruct (Hw x Hx) as (a & b & Hab & Hor).
      apply consecutive_pairs_elem in Hab as [Ha Hb].
      destruct Hor as [-> | ->]; assumption.
Qed.

(** Halving [i] times, rounding up, is dividing by [2 ^ i], rounding up. *)
Lemma halve_ceil (n i : nat) :
  (((n + 2 ^ i - 1) / 2 ^ i + 1) / 2
   = (n + 2 ^ Datatypes.S i - 1) / 2 ^ Datatypes.S i)%nat.
Proof.
  assert (2 ^ i <> 0)%nat as Hp by (apply Nat.pow_nonzero; lia).
  rewrite Nat.pow_succ_r', (Nat.mul_comm 2), <- Nat.Div0.div_div.
  f_equal.
  replace (n + 2 ^ i * 2 - 1)%nat with ((n + 2 ^ i - 1) + 1 * 2 ^ i)%nat
    by lia.
  now rewrite Nat.div_add.
Qed.

Lemma elimination_loop_sizes reg rounds noise fp (n : nat) :
  forall fuel s w,
  registry_game_safe reg ->
  (1 <= length (current_round_participants s) <= fuel)%nat ->
  (forall x, x ∈ current_round_participants s -> x ∈ dom (ranking s)) ->
  length (current_round_participants s)
  = ((n + 2 ^ length (status_log s) - 1) / 2 ^ length (status_log s))%nat ->
  map snd (status_log s)
  = map (fun i => ((n + 2 ^ i - 1) / 2 ^ i)%nat)
        (seq 0 (length (status_log s))) ->
  Forall (fun sz => 2 <= sz)%nat (map snd (status_log s)) ->
  exists s' w',
    elimination_loop reg rounds noise fp fuel s w = (Ok s', w') /\
    ((n + 2 ^ length (status_log s') - 1) / 2 ^ length (status_log s')
     = 1)%nat /\
    map snd (status_log s')
    = map (fun i => ((n + 2 ^ i - 1) / 2 ^ i)%nat)
          (seq 0 (length (status_log s'))) /\
    Forall (fun sz => 2 <= sz)%nat (map snd (status_log s')).
Proof.
  induction fuel as [|fuel IH]; intros s w Hreg Hlen Hdom Hcur Hlog Hbig.
  - lia.
  - simpl elimination_loop.
    destruct (length (current_round_participants s) <=? 1)%nat eqn:Hle.
    + apply Nat.leb_le in Hle. exists s, w. unfold ret.
      split; [reflexivity|]. split; [rewrite <- Hcur; lia|]. auto.
    + apply Nat.leb_gt in Hle.
      destruct (elimination_round_halves reg rounds noise fp s w Hreg
                  ltac:(lia) Hdom)
        as (s1 & w1 & E & Hl1 & Hst1 & Hsub1 & Hd1).
      assert (length (status_log s1)
              = Datatypes.S (length (status_log s))) as Hk.
      { rewrite Hst1, length_app. simpl. lia. }
      destruct (IH s1 w1 Hreg) as (s2 & w2 & E2 & R).
      * rewrite Hl1. split.
        -- change 1%nat with (2 / 2)%nat at 1.
           apply Nat.Div0.div_le_mono. lia.
        -- apply Nat.lt_succ_r, Nat.Div0.div_lt_upper_bound. lia.
      * intros x Hx. rewrite Hd1. apply Hdom, Hsub1, Hx.
      * rewrite Hl1, Hk, Hcur. apply halve_ceil.
      * rewrite Hk, seq_S, !map_app, Hst1, map_app, Hlog. simpl.
        now rewrite Hcur.
      * rewrite Hst1, map_app. apply Forall_app. split; [exact Hbig|].
        simpl. constructor; [lia | constructor].
      * exists s2, w2. erewrite bind_ok by exact E. split; [exact E2 | exact R].
Qed.



(* ------------------------------------------------------------------------- *)
(** ** Group Stage + Knockout: the groups *)

(** The shuffle returns a reordering of its argument; it reads one draw
    for each index from [i] down to 1. *)
Lemma shuffle_from_perm {A} : forall (i : nat) (x : list A) r,
  (i = 0 \/ i < length x)%nat ->
  exists y,
    shuffle_from i x r = (Ok y, mkRng (tape r) (pos r + i)) /\ y ≡ₚ x.
Proof.
  induction i as [|i IH]; intros x r Hi.
  - exists x. simpl. unfold ret. rewrite Nat.add_0_r. now destruct r.
  - destruct Hi as [Hi|Hi]; [discriminate|].
    cbn [shuffle_from]. unfold bind at 1, next_draw.
    set (j := (as_index (tape r (pos r)) mod (Datatypes.S i + 1))%nat).
    assert (j < Datatypes.S i + 1)%nat as Hj
      by (apply Nat.mod_upper_bound; lia).
    destruct (lookup_lt_is_Some_2 x (Datatypes.S i) Hi) as [xi Exi].
    destruct (lookup_lt_is_Some_2 x j ltac:(lia)) as [xj Exj].
    rewrite Exi, Exj.
    pose proof (Permutation_insert_swap x (Datatypes.S i) j xi xj Exi Exj)
      as Hperm.
    destruct (IH (<[j:=xi]> (<[Datatypes.S i:=xj]> x))
                 (mkRng (tape r) (Datatypes.S (pos r)))) as (y & E & Hy).
    { right. rewrite !length_insert. lia. }
    exists y. rewrite E. cbn [tape pos]. split; [do 2 f_equal; lia|].
    now rewrite Hy.
Qed.

Lemma random_shuffle_perm {A} (x : list A) r :
  exists y,
    random_shuffle x r = (Ok y, mkRng (tape r) (pos r + (length x - 1)))
    /\ y ≡ₚ x.
Proof.
  apply shuffle_from_perm. destruct x; simpl; [left; reflexivity | right; lia].
Qed.

Lemma concat_alter_app (p : string) : forall (groups : list (list string)) j,
  (j < length groups)%nat ->
  concat (alter (fun group => group ++ [p]) j groups) ≡ₚ p :: concat groups.
Proof.
  unfold alter.
  induction groups as [|grp groups IH]; intros j Hj; [simpl in Hj; lia|].
  destruct j as [|j]; simpl.
  - rewrite <- app_assoc. simpl.
    now rewrite <- Permutation_middle.
  - rewrite IH by (simpl in Hj; lia).
    now rewrite <- Permutation_middle.
Qed.

(** The number of positions below [i + 1] that go to group [j] *)
Lemma group_size_step (g i j : nat) :
  (j < g)%nat ->
  ((Datatypes.S i + g - 1 - j) / g
   = (i + g - 1 - j) / g + (if (j =? i mod g)%nat then 1 else 0))%nat.
Proof.
  intros Hj.
  pose proof (Nat.div_mod_eq i g) as Hi.
  pose proof (Nat.mod_upper_bound i g ltac:(lia)) as Hb.
  set (a := (i / g)%nat) in *. set (b := (i mod g)%nat) in *.
  destruct (Nat.eqb_spec j b) as [->|Hne].
  - rewrite <- (Nat.div_unique (i + g - 1 - b) g a (g - 1)) by lia.
    rewrite <- (Nat.div_unique (Datatypes.S i + g - 1 - b) g (a + 1) 0) by lia.
    reflexivity.
  - destruct (Nat.lt_ge_cases j b) as [Hlt|Hge].
    + rewrite <- (Nat.div_unique (i + g - 1 - j) g (a + 1) (b - j - 1)) by lia.
      rewrite <- (Nat.div_unique (Datatypes.S i + g - 1 - j) g (a + 1) (b - j))
        by lia.
      lia.
    + rewrite <- (Nat.div_unique (i + g - 1 - j) g a (b + g - 1 - j)) by lia.
      rewrite <- (Nat.div_unique (Datatypes.S i + g - 1 - j) g a (b + g - j))
        by lia.
      lia.
Qed.

Lemma distribute_from_spec (g : nat) :
  (1 <= g)%nat ->
  forall shuffled i groups,
  length groups = g ->
  (forall j grp, groups !! j = Some grp ->
                 length grp = ((i + g - 1 - j) / g)%nat) ->
  length (distribute_from i (Z.of_nat g) shuffled groups) = g /\
  concat (distribute_from i (Z.of_nat g) shuffled groups)
  ≡ₚ concat groups ++ shuffled /\
  (forall j grp,
     distribute_from i (Z.of_nat g) shuffled groups !! j = Some grp ->
     length grp = ((i + length shuffled + g - 1 - j) / g)%nat).
Proof.
  intros Hg. induction shuffled as [|p rest IH]; intros i groups Hlen Hsz.
  - simpl. rewrite app_nil_r, Nat.add_0_r. auto.
  - cbn [distribute_from].
    rewrite <- Nat2Z.inj_mod, Nat2Z.id.
    pose proof (Nat.mod_upper_bound i g ltac:(lia)) as Hb.
    destruct (IH (Datatypes.S i)
                 (alter (fun group => group ++ [p]) (i mod g)%nat groups))
      as (L & C & S).
    { now rewrite length_alter. }
    { intros j grp Hj.
      assert (j < g)%nat as Hjg.
      { apply lookup_lt_Some in Hj. rewrite length_alter in Hj. lia. }
      rewrite group_size_step by exact Hjg.
      destruct (Nat.eqb_spec j (i mod g)) as [->|Hne].
      - rewrite list_lookup_alter_eq in Hj.
        destruct (groups !! (i mod g)%nat) as [grp0|] eqn:E0;
          [|discriminate Hj].
        inversion Hj. rewrite length_app. simpl.
        now rewrite (Hsz _ _ E0).
      - rewrite list_lookup_alter_ne in Hj by congruence.
        rewrite (Hsz _ _ Hj). lia. }
    split; [exact L|]. split.
    + rewrite C, concat_alter_app by lia.
      now rewrite <- Permutation_middle.
    + intros j grp Hj. rewrite (S _ _ Hj). simpl length.
      f_equal. lia.
Qed.

(** The groups hold the dealt list, and their sizes differ by one at most. *)
Lemma distribute_balanced (num_groups : Z) (shuffled : list string) :
  1 <= num_groups ->
  length (distribute num_groups shuffled) = Z.to_nat num_groups /\
  concat (distribute num_groups shuffled) ≡ₚ shuffled /\
  Forall (fun group =>
            (length shuffled / Z.to_nat num_groups <= length group
             <= length shuffled / Z.to_nat num_groups + 1)%nat)
         (distribute num_groups shuffled).
Proof.
  intros Hg.
  remember (Z.to_nat num_groups) as g eqn:Eg.
  assert (num_groups = Z.of_nat g) as Hng by lia.
  assert (1 <= g)%nat as Hg' by lia.
  clear Eg Hg. subst num_groups.
  destruct (distribute_from_spec g Hg' shuffled 0 (replicate g []))
    as (L & C & S).
  { apply length_replicate. }
  { intros j grp Hj. apply lookup_replicate in Hj as [-> Hj]. simpl.
    symmetry. apply Nat.div_small. lia. }
  unfold distribute. rewrite Nat2Z.id.
  split; [exact L|]. split.
  - rewrite C.
    assert (concat (replicate g ([] : list string)) = []) as ->; [|reflexivity].
    clear. induction g; simpl; auto.
  - apply Forall_lookup. intros j grp Hj. rewrite (S _ _ Hj).
    assert (j < g)%nat as Hjg by (apply lookup_lt_Some in Hj; lia).
    simpl. split.
    + apply Nat.Div0.div_le_mono. lia.
    + transitivity ((length shuffled + 1 * g) / g)%nat.
      * apply Nat.Div0.div_le_mono. lia.
      * rewrite Nat.div_add by lia. lia.
Qed.

(** X27.  The groups of the group stage.  For [num_groups >= 1], the
    shuffle returns after one draw for each participant but the first, and
    the participants are dealt into [num_groups] groups that together hold
    every participant once and whose sizes are [n / num_groups], rounded
    down or up: with at least [2 * num_groups] participants, as the checks
    of the settings demand, no group has fewer than two players. *)
Theorem groups_partition_participants
    (participants : list string) (num_groups : Z) (r : Rng) :
  1 <= num_groups ->
  exists shuffled,
    random_shuffle participants r
    = (Ok shuffled, mkRng (tape r) (pos r + (length participants - 1))) /\
    length (distribute num_groups shuffled) = Z.to_nat num_groups /\
    concat (distribute num_groups shuffled) ≡ₚ participants /\
    Forall (fun group =>
              (length participants / Z.to_nat num_groups <= length group
               <= length participants / Z.to_nat num_groups + 1)%nat)
           (distribute num_groups shuffled).
Proof.
  intros Hg.
  destruct (random_shuffle_perm participants r) as (shuffled & E & Hperm).
  exists shuffled. split; [exact E|].
  destruct (distribute_balanced num_groups shuffled Hg) as (L & C & F).
  rewrite (Permutation_length Hperm) in F.
  split; [exact L|]. split; [now rewrite C | exact F].
Qed.

Lemma groups_partition_participants_witness :
  exists shuffled,
    random_shuffle ["a"; "b"; "c"; "d"; "e"]%string rng0
    = (Ok shuffled, mkRng half_tape 4) /\
    length (distribute 2 shuffled) = 2%nat.
Proof.
  destruct (groups_partition_participants ["a"; "b"; "c"; "d"; "e"]%string
              2 rng0) as (shuffled & E & L & _).
  - lia.
  - exists shuffled. split; [exact E | exact L].
Defined.

(* ------------------------------------------------------------------------- *)
(** ** Group Stage + Knockout: the run *)

Lemma group_match_returns reg rounds noise fp v p1 p2 w :
  registry_game_safe reg ->
  exists v' w',
    group_match reg rounds noise fp v (p1, p2) w = (Ok v', w') /\
    length (group_matches v')
    = Datatypes.S (length (group_matches v)).
Proof.
  intros Hreg.
  destruct (play_match_returns reg p1 p2 rounds noise fp (rng w) Hreg)
    as (g' & s' & E & _).
  eexists _, _. split.
  - unfold group_match. cbv beta iota.
    erewrite bind_ok by (apply lift_rng_ok; exact E).
    cbn [snd]. cbv beta iota.
    erewrite bind_ok by reflexivity. reflexivity.
  - cbn [group_matches]. rewrite length_app. simpl. lia.
Qed.

Lemma for_each_group_matches reg rounds noise fp : forall l v w,
  registry_game_safe reg ->
  exists v' w',
    for_each (group_match reg rounds noise fp) l v w = (Ok v', w') /\
    length (group_matches v') = (length (group_matches v) + length l)%nat.
Proof.
  induction l as [|[a b] l IH]; intros v w Hreg.
  - exists v, w. simpl. split; [reflexivity | lia].
  - destruct (group_match_returns reg rounds noise fp v a b w Hreg)
      as (v1 & w1 & E & L).
    destruct (IH v1 w1 Hreg) as (v2 & w2 & E2 & L2).
    exists v2, w2. simpl for_each. erewrite bind_ok by exact E.
    split; [exact E2|]. rewrite L2, L. simpl. lia.
Qed.

Lemma group_qualifiers_length reg scores q group :
  1 <= q ->
  length (group_qualifiers reg scores q group)
  = Nat.min (Z.to_nat q) (length group).
Proof.
  intros Hq. unfold group_qualifiers, slice_to.
  destruct (0 <=? q) eqn:E; [|apply Z.leb_gt in E; lia].
  rewrite length_take. unfold group_ranked.
  now rewrite (Permutation_length (sorted_by_perm _ _ _ _)).
Qed.

Lemma group_qualifiers_elem reg scores q group x :
  1 <= q -> x ∈ group_qualifiers reg scores q group -> x ∈ group.
Proof.
  intros Hq. unfold group_qualifiers, slice_to.
  destruct (0 <=? q) eqn:E; [|apply Z.leb_gt in E; lia].
  intros Hx. apply elem_of_take in Hx as (i & Hi & _).
  apply list_elem_of_lookup_2 in Hi. unfold group_ranked in Hi.
  now rewrite sorted_by_perm in Hi.
Qed.

(** The group stage: every group plays its round robin and sends its
    qualifiers. *)
Lemma group_stage_returns reg rounds noise fp q :
  registry_game_safe reg -> 1 <= q ->
  forall groups v quals w,
  exists v' new w',
    for_each (group_stage_step reg rounds noise fp q) groups (v, quals) w
    = (Ok (v', quals ++ new), w') /\
    length new
    = sum_list_with (fun grp => Nat.min (Z.to_nat q) (length grp)) groups /\
    (forall x, x ∈ new -> x ∈ concat groups) /\
    length (group_matches v')
    = (length (group_matches v)
       + sum_list_with (fun grp => length (combinations2 grp)) groups)%nat.
Proof.
  intros Hreg Hq. induction groups as [|grp groups IH]; intros v quals w.
  - exists v, [], w. simpl. rewrite app_nil_r.
    repeat split; try reflexivity; try lia.
    intros x Hx. now apply not_elem_of_nil in Hx.
  - simpl for_each. destruct grp as [|p grp'] eqn:Eg.
    + cbn [group_stage_step]. rewrite bind_ret.
      destruct (IH v quals w) as (v' & new & w' & E & L & S & M).
      exists v', new, w'. split; [exact E|].
      cbn [sum_list_with concat app combinations2 length].
      rewrite Nat.min_0_r. cbn [Nat.add]. auto.
    + rewrite <- Eg.
      destruct (for_each_group_matches reg rounds noise fp
                  (combinations2 grp) v w Hreg) as (v1 & w1 & E1 & L1).
      assert (group_stage_step reg rounds noise fp q (v, quals) grp w
              = (Ok (v1, quals ++ group_qualifiers reg (group_stage_scores v1)
                                                   q grp), w1)) as Hstep.
      { rewrite Eg. cbn [group_stage_step]. rewrite <- Eg.
        unfold run_group. cbn [fst snd].
        erewrite bind_ok.
        2:{ erewrite bind_ok by exact E1. reflexivity. }
        reflexivity. }
      erewrite bind_ok by exact Hstep.
      destruct (IH v1 (quals ++ group_qualifiers reg (group_stage_scores v1)
                                                  q grp) w1)
        as (v' & new & w' & E & L & S & M).
      exists v', (group_qualifiers reg (group_stage_scores v1) q grp ++ new), w'.
      rewrite app_assoc. split; [exact E|]. split; [|split].
      * rewrite length_app, L, group_qualifiers_length by exact Hq.
        reflexivity.
      * intros x Hx. cbn [concat]. apply elem_of_app.
        apply elem_of_app in Hx as [Hx|Hx].
        -- left. eapply group_qualifiers_elem; eassumption.
        -- right. now apply S.
      * rewrite M, L1. cbn [sum_list_with]. lia.
Qed.

Lemma knockout_match_returns reg rounds noise fp v next p1 p2 w :
  registry_game_safe reg ->
  exists v' w' winner,
    knockout_match reg rounds noise fp (v, next) (p1, p2) w
    = (Ok (v', next ++ [winner]), w') /\
    (winner = p1 \/ winner = p2) /\
    length (group_matches v')
    = Datatypes.S (length (group_matches v)).
Proof.
  intros Hreg.
  destruct (play_match_returns reg p1 p2 rounds noise fp (rng w) Hreg)
    as (g' & s' & E & _).
  eexists _, _, _. split; [|split].
  - unfold knockout_match. cbv beta iota.
    erewrite bind_ok by (apply lift_rng_ok; exact E).
    cbn [snd fst]. cbv beta iota.
    erewrite bind_ok by reflexivity. reflexivity.
  - destruct (score2 g' <=? score1 g'); auto.
  - cbn [group_matches]. rewrite length_app. simpl. lia.
Qed.

Lemma for_each_knockout_matches reg rounds noise fp : forall l v next w,
  registry_game_safe reg ->
  exists v' w' winners,
    for_each (knockout_match reg rounds noise fp) l (v, next) w
    = (Ok (v', next ++ winners), w') /\
    length winners = length l /\
    (forall x, x ∈ winners -> exists a b, (a, b) ∈ l /\ (x = a \/ x = b)) /\
    length (group_matches v')
    = (length (group_matches v) + length l)%nat.
Proof.
  induction l as [|[a b] l IH]; intros v next w Hreg.
  - exists v, w, []. simpl. rewrite app_nil_r.
    repeat split; try reflexivity; try lia.
    intros x Hx. now apply not_elem_of_nil in Hx.
  - destruct (knockout_match_returns reg rounds noise fp v next a b w Hreg)
      as (v1 & w1 & win & E & Hwin & L).
    destruct (IH v1 (next ++ [win]) w1 Hreg)
      as (v2 & w2 & wins & E2 & Hl2 & Hw2 & L2).
    exists v2, w2, (win :: wins). simpl for_each.
    erewrite bind_ok by exact E. rewrite <- app_assoc in E2.
    split; [exact E2|]. split; [simpl; lia|]. split.
    + intros x Hx. apply elem_of_cons in Hx as [->|Hx].
      * exists a, b. split; [solve_elem | exact Hwin].
      * destruct (Hw2 x Hx) as (c & d & Hcd & Hor).
        exists c, d. split; [solve_elem | exact Hor].
    + rewrite L2, L. simpl. lia.
Qed.

(** One round of the knockout stage with at least two participants. *)
Lemma knockout_round_returns reg rounds noise fp s w :
  registry_game_safe reg ->
  (2 <= length (ko_participants s))%nat ->
  exists s' w',
    knockout_round reg rounds noise fp s w = (Ok s', w') /\
    (1 <= length (ko_participants s') < length (ko_participants s))%nat /\
    (length (ko_participants s') + length (group_matches (ko_vars s'))
     = length (ko_participants s) + length (group_matches (ko_vars s)))%nat /\
    (forall x, x ∈ ko_participants s' -> x ∈ ko_participants s).
Proof.
  intros Hreg Hlen. unfold knockout_round.
  set (cur := ko_participants s) in *.
  pose proof (Nat.mod_upper_bound (length cur) 2 ltac:(lia)) as Hm.
  destruct (negb (length cur mod 2 =? 0)%nat) eqn:Hodd.
  - apply negb_true_iff, Nat.eqb_neq in Hodd.
    destruct cur as [|bye rest] eqn:Hcur; [simpl in Hlen; lia|].
    pose proof (consecutive_pairs_length rest) as Hp.
    pose proof (consecutive_pairs_length (bye :: rest)) as Hq.
    pose proof (Nat.mod_upper_bound (length rest) 2 ltac:(lia)) as Hm'.
    simpl length in *.
    destruct (for_each_knockout_matches reg rounds noise fp
                (consecutive_pairs rest) (ko_vars s) [bye] w Hreg)
      as (v' & w' & wins & E & Hl & Hw & Hmt).
    eexists _, w'. split; [erewrite bind_ok by exact E; reflexivity|].
    cbn [ko_participants ko_vars fst snd]. rewrite Hmt. simpl length.
    rewrite Hl. split; [lia|]. split; [lia|].
    intros x Hx. apply elem_of_cons in Hx as [->|Hx]; [solve_elem|].
    destruct (Hw x Hx) as (a & b & Hab & Hor).
    apply consecutive_pairs_elem in Hab as [Ha Hb].
    destruct Hor as [-> | ->]; solve_elem.
  - apply negb_false_iff, Nat.eqb_eq in Hodd.
    pose proof (consecutive_pairs_length cur) as Hp.
    destruct (for_each_knockout_matches reg rounds noise fp
                (consecutive_pairs cur) (ko_vars s) [] w Hreg)
      as (v' & w' & wins & E & Hl & Hw & Hmt).
    eexists _, w'. split; [erewrite bind_ok by exact E; reflexivity|].
    cbn [ko_participants ko_vars fst snd app]. rewrite Hmt, Hl.
    split; [lia|]. split; [lia|].
    intros x Hx. destruct (Hw x Hx) as (a & b & Hab & Hor).
    apply consecutive_pairs_elem in Hab as [Ha Hb].
    destruct Hor as [-> | ->]; assumption.
Qed.

Lemma knockout_loop_returns reg rounds noise fp : forall fuel s w,
  registry_game_safe reg ->
  (1 <= length (ko_participants s) <= fuel)%nat ->
  exists s' w',
    knockout_loop reg rounds noise fp fuel s w = (Ok s', w') /\
    length (ko_participants s') = 1%nat /\
    (length (ko_participants s') + length (group_matches (ko_vars s'))
     = length (ko_participants s) + length (group_matches (ko_vars s)))%nat /\
    (forall x, x ∈ ko_participants s' -> x ∈ ko_participants s).
Proof.
  induction fuel as [|fuel IH]; intros s w Hreg Hlen.
  - lia.
  - simpl knockout_loop.
    destruct (length (ko_participants s) <=? 1)%nat eqn:Hle.
    + apply Nat.leb_le in Hle. exists s, w. unfold ret.
      repeat split; auto; lia.
    + apply Nat.leb_gt in Hle.
      destruct (knockout_round_returns reg rounds noise fp s w Hreg
                  ltac:(lia))
        as (s1 & w1 & E & Hl1 & Hsum1 & Hsub1).
      destruct (IH s1 w1 Hreg ltac:(lia))
        as (s2 & w2 & E2 & Hone & Hsum2 & Hsub2).
      exists s2, w2. erewrite bind_ok by exact E.
      split; [exact E2|]. split; [exact Hone|]. split; [lia|].
      intros x Hx. apply Hsub1, Hsub2, Hx.
Qed.

Lemma sum_list_with_lower {A} (f : A -> nat) (l : list A) :
  Forall (fun x => 1 <= f x)%nat l -> (length l <= sum_list_with f l)%nat.
Proof. induction 1; simpl; lia. Qed.

(** With the settings the checks accept, the group stage yields two
    qualifiers at least. *)
Lemma enough_qualifiers (groups : list (list string)) (g q : Z) (n : nat) :
  1 <= q -> 2 <= q * g -> 2 * g <= Z.of_nat n ->
  length groups = Z.to_nat g ->
  Forall (fun grp => (n / Z.to_nat g <= length grp)%nat) groups ->
  (2 <= sum_list_with (fun grp => Nat.min (Z.to_nat q) (length grp))
                      groups)%nat.
Proof.
  intros Hq Hqg Hn Hlen Hall.
  assert (1 <= g) as Hg by nia.
  assert (2 <= n / Z.to_nat g)%nat as Hsize.
  { apply Nat.div_le_lower_bound; lia. }
  destruct (Z.eq_dec g 1) as [->|Hg1].
  - destruct groups as [|grp [|? ?]]; simpl in Hlen; try lia.
    apply Forall_cons in Hall as [H _]. simpl. lia.
  - etransitivity; [|apply sum_list_with_lower].
    + lia.
    + eapply Forall_impl; [exact Hall|]. simpl. intros grp H. lia.
Qed.

(** X28.  A Group Stage + Knockout run.  With settings that pass the
    checks (at least one qualifier for each group, two qualifiers in
    total, two participants for each group) the run returns; the groups
    hold every participant once; each group sends its best
    [num_qualifiers] players, all of them when it has fewer; there are at
    least two qualifiers, so that the tournament never ends after the group
    stage; the knockout stage is played down to one winner, who is one of
    the qualifiers; and the log holds the round robin of every group and
    one match less than there are qualifiers. *)
Theorem group_knockout_run
    (registry : gmap string StrategyMeta) (rounds_per_game : Z)
    (noise fp : float) (participants : list string) (use_seeding : bool)
    (num_groups num_qualifiers : Z) (w : World) :
  registry_game_safe registry ->
  1 <= num_qualifiers ->
  2 <= num_qualifiers * num_groups ->
  2 * num_groups <= Z.of_nat (length participants) ->
  exists r w' win,
    run_tournament_group_knockout registry rounds_per_game noise fp
      participants use_seeding num_groups num_qualifiers w
    = (Ok (GKFinished r), w') /\
    concat (gk_groups r) ≡ₚ participants /\
    length (gk_qualifiers r)
    = sum_list_with (fun grp => Nat.min (Z.to_nat num_qualifiers) (length grp))
                    (gk_groups r) /\
    (2 <= length (gk_qualifiers r))%nat /\
    gk_ended_after_groups r = false /\
    (forall x, x ∈ gk_qualifiers r -> x ∈ participants) /\
    gk_winner_id r = Some win /\
    win ∈ gk_qualifiers r /\
    length (group_matches (gk_vars r))
    = (sum_list_with (fun grp => length (combinations2 grp)) (gk_groups r)
       + (length (gk_qualifiers r) - 1))%nat.
Proof.
  intros Hreg Hq Hqg Hn.
  assert (1 <= num_groups) as Hg by nia.
  unfold run_tournament_group_knockout.
  destruct (length participants <? 2)%nat eqn:C1;
    [apply Nat.ltb_lt in C1; lia|].
  destruct (Z.of_nat (length participants) <? num_groups * 2) eqn:C2;
    [apply Z.ltb_lt in C2; lia|].
  destruct (num_qualifiers * num_groups <? 2) eqn:C3;
    [apply Z.ltb_lt in C3; lia|].
  destruct (num_qualifiers <? 1) eqn:C4; [apply Z.ltb_lt in C4; lia|].
  set (ps := if use_seeding
             then sorted_by String.ltb (seeding_key registry) false participants
             else participants).
  assert (Hperm : ps ≡ₚ participants).
  { unfold ps. destruct use_seeding; [apply sorted_by_perm | reflexivity]. }
  destruct (random_shuffle_perm ps (rng w)) as (shuffled & Es & Hsh).
  erewrite bind_ok by (apply lift_rng_ok; exact Es).
  destruct (distribute_balanced num_groups shuffled Hg) as (GL & GC & GF).
  set (groups := distribute num_groups shuffled) in *.
  destruct (group_stage_returns registry rounds_per_game noise fp
              num_qualifiers Hreg Hq groups (mkGroupVars ∅ ∅ ∅ ∅ []) []
              (mkWorld (mkRng (tape (rng w)) (pos (rng w) + (length ps - 1)))
                       (PLAYER_STATS w)))
    as (v & quals & w1 & Eg & QL & QS & QM).
  erewrite bind_ok by exact Eg. cbn [fst snd app].
  assert (length shuffled = length participants) as Hlen
    by now rewrite Hsh, Hperm.
  assert (2 <= length quals)%nat as Hq2.
  { rewrite QL.
    apply (enough_qualifiers groups num_groups num_qualifiers
             (length participants)); try assumption.
    rewrite <- Hlen. eapply Forall_impl; [exact GF|]. simpl. lia. }
  destruct (length quals <? 2)%nat eqn:C5; [apply Nat.ltb_lt in C5; lia|].
  set (qs := if use_seeding
             then sorted_by String.ltb (seeding_key registry) false quals
             else quals).
  assert (Hqperm : qs ≡ₚ quals).
  { unfold qs. destruct use_seeding; [apply sorted_by_perm | reflexivity]. }
  destruct (knockout_loop_returns registry rounds_per_game noise fp
              (length qs)
              {| ko_participants := qs; ko_round_num := 1; ko_vars := v;
                 ko_status_log := [] |} w1 Hreg)
    as (s & w2 & Ek & Hone & Hsum & Hsub).
  { cbn [ko_participants]. rewrite Hqperm. lia. }
  erewrite bind_ok by exact Ek.
  cbn [ko_participants ko_vars] in Hsum, Hsub.
  destruct (ko_participants s) as [|win [|? ?]] eqn:Hcur;
    simpl in Hone; try lia.
  eexists _, w2, win. split; [reflexivity|].
  cbn [gk_groups gk_qualifiers gk_ended_after_groups gk_winner_id gk_vars].
  split; [now rewrite GC, Hsh|].
  split; [now rewrite Hqperm|].
  split; [rewrite Hqperm; exact Hq2|].
  split; [reflexivity|]. split; [|split; [|split]].
  - intros x Hx. rewrite Hqperm in Hx. apply QS in Hx.
    now rewrite GC, Hsh, Hperm in Hx.
  - reflexivity.
  - apply Hsub. left.
  - simpl in Hsum, QM. rewrite Hqperm in *. lia.
Qed.

Lemma group_knockout_run_witness :
  exists r w',
    run_tournament_group_knockout BUILT_IN_STRATEGIES_META 10 0%float 0%float
      ["cooperate"; "defect"; "tit_for_tat"; "grudger"; "pavlov"]%string
      true 2 1 world0
    = (Ok (GKFinished r), w') /\
    gk_ended_after_groups r = false.
Proof.
  destruct (group_knockout_run BUILT_IN_STRATEGIES_META 10 0%float 0%float
              ["cooperate"; "defect"; "tit_for_tat"; "grudger"; "pavlov"]%string
              true 2 1 world0 builtin_registry_safe)
    as (r & w' & win & E & _ & _ & _ & H & _).
  - lia.
  - lia.
  - simpl. lia.
  - exists r, w'. split; [exact E | exact H].
Defined.

(** X29.  The checks of the Group Stage + Knockout settings.  A run is
    refused with a setup error, and then changes nothing, whenever there
    are fewer than two participants, fewer than two for each group, fewer
    than two qualifiers in total or less than one for each group; a run
    that finishes has passed all four checks and has at least one group, so
    that dealing the participants by [i % num_groups] divides by a
    positive number. *)
Theorem group_knockout_settings
    (registry : gmap string StrategyMeta) (rounds_per_game : Z)
    (noise fp : float) (participants : list string) (use_seeding : bool)
    (num_groups num_qualifiers : Z) (w : World) :
  ((length participants < 2)%nat \/
   Z.of_nat (length participants) < 2 * num_groups \/
   num_qualifiers * num_groups < 2 \/ num_qualifiers < 1 ->
   exists msg,
     run_tournament_group_knockout registry rounds_per_game noise fp
       participants use_seeding num_groups num_qualifiers w
     = (Ok (GKSetupError msg), w)) /\
  (forall r w',
     run_tournament_group_knockout registry rounds_per_game noise fp
       participants use_seeding num_groups num_qualifiers w
     = (Ok (GKFinished r), w') ->
     1 <= num_groups /\ 1 <= num_qualifiers /\
     2 <= num_qualifiers * num_groups /\
     2 * num_groups <= Z.of_nat (length participants) /\
     (2 <= length participants)%nat).
Proof.
  unfold run_tournament_group_knockout.
  destruct (length participants <? 2)%nat eqn:C1.
  { split; [eauto|]. intros r w' H. discriminate H. }
  destruct (Z.of_nat (length participants) <? num_groups * 2) eqn:C2.
  { split; [eauto|]. intros r w' H. discriminate H. }
  destruct (num_qualifiers * num_groups <? 2) eqn:C3.
  { split; [eauto|]. intros r w' H. discriminate H. }
  destruct (num_qualifiers <? 1) eqn:C4.
  { split; [eauto|]. intros r w' H. discriminate H. }
  apply Nat.ltb_ge in C1. apply Z.ltb_ge in C2, C3, C4.
  split; [intros [H|[H|[H|H]]]; lia|].
  intros r w' _. repeat split; try lia; nia.
Qed.

Lemma group_knockout_settings_witness :
  exists msg,
    run_tournament_group_knockout BUILT_IN_STRATEGIES_META 10 0%float 0%float
      ["cooperate"; "defect"; "tit_for_tat"]%string false 2 1 world0
    = (Ok (GKSetupError msg), world0).
Proof.
  destruct (group_knockout_settings BUILT_IN_STRATEGIES_META 10 0%float
              0%float ["cooperate"; "defect"; "tit_for_tat"]%string false 2 1
              world0) as [H _].
  apply H. right. left. simpl. lia.
Defined.

(* ------------------------------------------------------------------------- *)
(** ** Round Robin and the statistics *)

Lemma update_one_stat reg stats pid sc opp p :
  counted reg p ->
  games_played (stat_of (update_one reg stats pid sc opp) p)
  = games_played (stat_of stats p) + (if String.eqb pid p then 1 else 0) /\
  total_score (stat_of (update_one reg stats pid sc opp) p)
  = total_score (stat_of stats p) + (if String.eqb pid p then sc else 0).
Proof.
  intros C. destruct (String.eqb_spec pid p) as [->|Hne].
  - unfold stat_of at 1 3. rewrite (update_one_counted _ _ _ _ _ C).
    simpl. auto.
  - unfold stat_of. rewrite update_one_other by congruence. lia.
Qed.

Lemma update_one_uncounted reg stats pid sc opp p :
  ~ counted reg p -> update_one reg stats pid sc opp !! p = stats !! p.
Proof.
  intros C. destruct (decide (p = pid)) as [->|Hne];
    [|now apply update_one_other].
  unfold update_one. destruct (is_manual pid) eqn:M; [reflexivity|].
  case_bool_decide as R; [reflexivity|]. exfalso. apply C.
  split; [exact M|]. destruct (reg !! pid); [eauto | congruence].
Qed.

(** What one Round Robin match does to the statistics. *)
Lemma round_robin_match_stats reg rounds noise fp v p1 p2 w :
  registry_game_safe reg ->
  exists v' w' md,
    round_robin_match reg rounds noise fp v (p1, p2) w = (Ok v', w') /\
    rr_matches v' = rr_matches v ++ [md] /\
    md_p1_id md = p1 /\ md_p2_id md = p2 /\
    PLAYER_STATS w'
    = update_player_stats reg (PLAYER_STATS w) p1 p2
                          (md_score1 md) (md_score2 md).
Proof.
  intros Hreg.
  destruct (play_match_returns reg p1 p2 rounds noise fp (rng w) Hreg)
    as (g' & s' & E & _).
  eexists _, _, _. split; [|split; [|split; [|split]]].
  - unfold round_robin_match. cbv beta iota.
    erewrite bind_ok by (apply lift_rng_ok; exact E).
    cbn [snd]. cbv beta iota.
    erewrite bind_ok by reflexivity. reflexivity.
  - reflexivity.
  - reflexivity.
  - reflexivity.
  - reflexivity.
Qed.

Lemma for_each_round_robin_stats reg rounds noise fp : forall l v w,
  registry_game_safe reg ->
  exists v' w',
    for_each (round_robin_match reg rounds noise fp) l v w = (Ok v', w') /\
    (forall p, counted reg p ->
       games_played (stat_of (PLAYER_STATS w') p)
       + logged_games p (rr_matches v)
       = games_played (stat_of (PLAYER_STATS w) p)
         + logged_games p (rr_matches v') /\
       total_score (stat_of (PLAYER_STATS w') p)
       + logged_score p (rr_matches v)
       = total_score (stat_of (PLAYER_STATS w) p)
         + logged_score p (rr_matches v')) /\
    (forall p, ~ counted reg p -> PLAYER_STATS w' !! p = PLAYER_STATS w !! p).
Proof.
  induction l as [|[a b] l IH]; intros v w Hreg.
  - exists v, w. simpl. split; [reflexivity|]. split; [split; reflexivity|].
    reflexivity.
  - destruct (round_robin_match_stats reg rounds noise fp v a b w Hreg)
      as (v1 & w1 & md & E & Hlog & Hp1 & Hp2 & Hst).
    destruct (IH v1 w1 Hreg) as (v2 & w2 & E2 & Hc & Hu).
    exists v2, w2. simpl for_each. erewrite bind_ok by exact E.
    split; [exact E2|]. split.
    + intros p C. destruct (Hc p C) as [G T].
      rewrite Hlog, logged_games_snoc, Hp1, Hp2, Hst in G.
      rewrite Hlog, logged_score_snoc, Hp1, Hp2, Hst in T.
      unfold update_player_stats in G, T.
      destruct (update_one_stat reg
                  (update_one reg (PLAYER_STATS w) a (md_score1 md)
                              (md_score2 md))
                  b (md_score2 md) (md_score1 md) p C) as [G2 T2].
      destruct (update_one_stat reg (PLAYER_STATS w) a (md_score1 md)
                  (md_score2 md) p C) as [G1 T1].
      split; lia.
    + intros p C. rewrite (Hu p C), Hst. unfold update_player_stats.
      now rewrite !update_one_uncounted by exact C.
Qed.

(** X30.  Round Robin and the statistics.  After a Round Robin the record
    of every registered strategy has as many more games as the log holds
    for it, and the scores the log holds for it added to its total score;
    no other record is created or changed. *)
Theorem round_robin_updates_statistics
    (registry : gmap string StrategyMeta) (rounds_per_game : Z)
    (noise fp : float) (participants : list string) (w : World) :
  registry_game_safe registry ->
  (2 <= length participants)%nat ->
  exists r w',
    run_tournament_round_robin registry rounds_per_game noise fp
                               participants w
    = (Ok (RRFinished r), w') /\
    (forall p, counted registry p ->
       games_played (stat_of (PLAYER_STATS w') p)
       = games_played (stat_of (PLAYER_STATS w) p)
         + logged_games p (rr_matches (rr_vars r)) /\
       total_score (stat_of (PLAYER_STATS w') p)
       = total_score (stat_of (PLAYER_STATS w) p)
         + logged_score p (rr_matches (rr_vars r))) /\
    (forall p, ~ counted registry p ->
       PLAYER_STATS w' !! p = PLAYER_STATS w !! p).
Proof.
  intros Hreg Hlen. unfold run_tournament_round_robin.
  destruct (length participants <? 2)%nat eqn:E;
    [apply Nat.ltb_lt in E; lia|].
  destruct (for_each_round_robin_stats registry rounds_per_game noise fp
              (combinations2 participants) (mkRRVars [] ∅ []) w Hreg)
    as (v & w' & Ef & Hc & Hu).
  eexists _, w'. split.
  - unfold run_round_robin. erewrite bind_ok.
    2:{ erewrite bind_ok by exact Ef. reflexivity. }
    reflexivity.
  - cbn [rr_vars]. split; [|exact Hu].
    intros p C. destruct (Hc p C) as [G T].
    cbn [rr_matches] in G, T.
    change (logged_games p []) with 0 in G.
    change (logged_score p []) with 0 in T.
    split; lia.
Qed.

Lemma round_robin_updates_statistics_witness :
  exists r w',
    run_tournament_round_robin BUILT_IN_STRATEGIES_META 10 0%float 0%float
      ["cooperate"; "defect"; "tit_for_tat"]%string world0
    = (Ok (RRFinished r), w') /\
    PLAYER_STATS w' !! "manual_p1"%string = None.
Proof.
  destruct (round_robin_updates_statistics BUILT_IN_STRATEGIES_META 10
              0%float 0%float ["cooperate"; "defect"; "tit_for_tat"]%string
              world0 builtin_registry_safe)
    as (r & w' & E & _ & H).
  - simpl. lia.
  - exists r, w'. split; [exact E|]. rewrite H; [reflexivity|].
    intros [M _]. discriminate M.
Defined.

(* ------------------------------------------------------------------------- *)
(** ** The winner's elimination round *)

(** C4 at the failing input.  A custom-strategy file whose one key is the
    empty string, with the name "A" and the rules [{"default": "D"}],
    registers a strategy under the empty id; the list of participants
    offers it as "A".  In the Elimination tournament of "A" and Always
    Defect over 10 rounds one match is played, a 10 : 10 tie that the first
    player wins, one bracket round is played, and the empty id is the one
    participant left and the declared winner; but [if winner_id:] is false
    for the empty string, and the winner's elimination round stays
    [float('inf')] where the loser has 1 and the claim gives the winner 2. *)
Lemma empty_id_winner_keeps_inf :
  empty_id_registry !! ""%string
  = Some (mkMeta "A" (custom_strategy_logic
                        (mkRules (Some DEFECT) None None None))
                 "" true (Some (mkRules (Some DEFECT) None None None))) /\
  exists r w',
    run_tournament_elimination empty_id_registry 10 0%float 0%float
      [""; "defect"]%string false world0
    = (Ok (Finished r), w') /\
    matches (final_state r)
    = [mkMatchData "Tournament Elimination" "" "defect" 10 10
                   "DDDDDDDDDD" "DDDDDDDDDD"] /\
    status_log (final_state r) = [(1, 2%nat)] /\
    current_round_participants (final_state r) = [""%string] /\
    winner_id r = Some ""%string /\
    ranking (final_state r) !! ""%string = Some (mkRank 10 1 Inf) /\
    ranking (final_state r) !! "defect"%string = Some (mkRank 10 1 (Round 1)).
Proof.
  split; [vm_compute; reflexivity|].
  eexists _, _.
  split; [vm_compute; reflexivity|].
  split; [vm_compute; reflexivity|].
  split; [vm_compute; reflexivity|].
  split; [vm_compute; reflexivity|].
  split; [vm_compute; reflexivity|].
  split; vm_compute; reflexivity.
Qed.

(* ------------------------------------------------------------------------- *)
(** ** Thresholds of any size *)

(** The cooperation rate is compared with the integer threshold itself:
    with the threshold 2^63 the rule matches on every history, the rule's
    Defect is subject to forgiveness and a draw is consumed. *)
Lemma big_threshold_rule_matches :
  first_match big_threshold_rules [COOPERATE] 1 = Some DEFECT /\
  custom_strategy_logic big_threshold_rules [COOPERATE] [COOPERATE] 1
                        1%float (mkRng zero_tape 0)
  = (Ok COOPERATE, mkRng zero_tape 1).
Proof. split; vm_compute; reflexivity. Qed.

(* ------------------------------------------------------------------------- *)
(** ** A match with an id that is not registered *)

Section MatchBodies.
Variable registry : gmap string StrategyMeta.
Variable rounds_per_game : Z.
Variables noise fp : float.
Variables p1_id p2_id : string.
Variable w : World.
Variable g' : Game.
Variable s' : Rng.
Hypothesis played :
  play_match registry p1_id p2_id rounds_per_game noise fp (rng w)
  = (Ok (g', (score1 g', score2 g', join (history1 g'), join (history2 g'))),
     s').

Lemma round_robin_match_played v :
  exists v',
    round_robin_match registry rounds_per_game noise fp v (p1_id, p2_id) w
    = (Ok v',
       (mkWorld s' (update_player_stats registry (PLAYER_STATS w) p1_id p2_id
                                       (score1 g') (score2 g')))) /\
    rr_matches v' = rr_matches v ++ [mkMatchData "Tournament Round Robin" p1_id p2_id (score1 g') (score2 g')
           (join (history1 g')) (join (history2 g'))].
Proof.
  eexists. split.
  - unfold round_robin_match. cbv beta iota.
    erewrite bind_ok by (apply lift_rng_ok; exact played).
    cbn [snd]. cbv beta iota.
    erewrite bind_ok by reflexivity. reflexivity.
  - reflexivity.
Qed.

Lemma group_match_played v :
  exists v',
    group_match registry rounds_per_game noise fp v (p1_id, p2_id) w
    = (Ok v',
       (mkWorld s' (update_player_stats registry (PLAYER_STATS w) p1_id p2_id
                                       (score1 g') (score2 g')))) /\
    group_matches v' = group_matches v ++ [mkMatchData "Tournament Group Stage" p1_id p2_id (score1 g') (score2 g')
           (join (history1 g')) (join (history2 g'))].
Proof.
  eexists. split.
  - unfold group_match. cbv beta iota.
    erewrite bind_ok by (apply lift_rng_ok; exact played).
    cbn [snd]. cbv beta iota.
    erewrite bind_ok by reflexivity. reflexivity.
  - reflexivity.
Qed.

Lemma knockout_match_played v next :
  exists v' winner,
    knockout_match registry rounds_per_game noise fp (v, next)
                   (p1_id, p2_id) w
    = (Ok (v', next ++ [winner]),
       (mkWorld s' (update_player_stats registry (PLAYER_STATS w) p1_id p2_id
                                       (score1 g') (score2 g')))) /\
    (winner = p1_id \/ winner = p2_id) /\
    group_matches v' = group_matches v ++ [mkMatchData "Tournament Knockout" p1_id p2_id (score1 g') (score2 g')
           (join (history1 g')) (join (history2 g'))].
Proof.
  eexists _, _. split; [|split].
  - unfold knockout_match. cbv beta iota.
    erewrite bind_ok by (apply lift_rng_ok; exact played).
    cbn [snd fst]. cbv beta iota.
    erewrite bind_ok by reflexivity. reflexivity.
  - destruct (score2 g' <=? score1 g'); auto.
  - reflexivity.
Qed.

Lemma elimination_match_played rn v :
  p1_id ∈ dom (full_ranking_data v) ->
  p2_id ∈ dom (full_ranking_data v) ->
  exists v' winner,
    elimination_match registry rounds_per_game noise fp rn v
                      (p1_id, p2_id) w
    = (Ok v',
       (mkWorld s' (update_player_stats registry (PLAYER_STATS w) p1_id p2_id
                                       (score1 g') (score2 g')))) /\
    next_round v' = next_round v ++ [winner] /\
    (winner = p1_id \/ winner = p2_id) /\
    all_matches_data v'
    = all_matches_data v ++ [mkMatchData "Tournament Elimination" p1_id p2_id (score1 g') (score2 g')
           (join (history1 g')) (join (history2 g'))].
Proof.
  intros H1 H2.
  apply elem_of_dom in H1 as [e1 E1].
  set (d1 := <[p1_id := add_game (score1 g') e1]> (full_ranking_data v)).
  assert (exists e2, d1 !! p2_id = Some e2) as [e2 E2].
  { apply elem_of_dom. unfold d1. rewrite dom_insert_L.
    apply elem_of_union. now right. }
  set (d2 := <[p2_id := add_game (score2 g') e2]> d1).
  set (winner := if score2 g' <=? score1 g' then p1_id else p2_id).
  set (loser := if String.eqb winner p1_id then p2_id else p1_id).
  assert (exists e3, d2 !! loser = Some e3) as [e3 E3].
  { apply elem_of_dom. unfold d2, d1. rewrite !dom_insert_L.
    unfold loser. destruct (String.eqb winner p1_id); set_solver. }
  eexists _, winner. split; [|split; [|split]].
  - unfold elimination_match. cbv beta iota.
    erewrite bind_ok by (apply lift_rng_ok; exact played).
    cbn [snd]. cbv beta iota.
    erewrite bind_ok by (apply dict_update_ok; exact E1).
    erewrite bind_ok by (apply dict_update_ok; exact E2).
    erewrite bind_ok by reflexivity.
    erewrite bind_ok by (apply dict_update_ok; exact E3).
    reflexivity.
  - reflexivity.
  - unfold winner. destruct (score2 g' <=? score1 g'); auto.
  - reflexivity.
Qed.
End MatchBodies.

(** The single-game tab does not start a game with an id that is not
    registered. *)
Lemma start_single_game_refused registry noise fp s p1_id p2_id rounds w :
  registry !! p1_id = None \/ registry !! p2_id = None ->
  start_single_game registry noise fp s p1_id p2_id rounds w
  = (s1 <- (if timer_active s then stop_single_game registry s else ret s) ;;
     ret (mkSingleGame (current_game s1) (single_game_round_counter s1)
                       rounds (timer_active s1))) w.
Proof.
  intros H. unfold start_single_game, bind.
  destruct ((if timer_active s then stop_single_game registry s else ret s) w)
    as [[s1| |] w1]; try reflexivity.
  destruct (String.eqb p1_id "" || String.eqb p2_id ""); [reflexivity|].
  destruct H as [H|H]; rewrite (bool_decide_eq_true_2 _ H);
    [|rewrite orb_true_r]; reflexivity.
Qed.

(** A sandbox round with an automatic player whose id is not registered:
    the lookup raises, the handler resets the sandbox. *)
Lemma sandbox_round_absent registry noise fp s g r :
  registry_game_safe registry ->
  registry !! sandbox_p1_combo s = None \/
  registry !! sandbox_p2_combo s = None ->
  sandbox_game s = Some g ->
  length (history1 g) = length (history2 g) ->
  sandbox_p1_manual s = false -> sandbox_p2_manual s = false ->
  exists r',
    sandbox_play_next_round registry noise fp s r
    = (Ok (sandbox_reset registry noise fp s), r').
Proof.
  intros Hreg H Hg Hlen M1 M2.
  unfold sandbox_play_next_round, try_except, sandbox_intended.
  rewrite Hg, M1, M2.
  destruct (registry !! sandbox_p1_combo s) as [meta1|] eqn:E1.
  - destruct H as [H|H]; [discriminate H|]. rewrite H.
    destruct (Hreg _ _ E1 (history1 g) (history2 g) fp r Hlen)
      as (m & r1 & E).
    exists r1. unfold bind at 1. unfold bind at 1. rewrite E.
    reflexivity.
  - exists r. reflexivity.
Qed.

(** C1, as the code has it.  A match with a participant whose id is not in
    the registry.
    - In a tournament the run is not aborted.  [Game] gives the absent id a
      decision function that always cooperates and uses the id as its name;
      the match body of each format (Round Robin, Elimination, group stage,
      knockout) returns, the result of the played match is appended to the
      match log after the results of the earlier matches, and the
      statistics of ids that are not registered, and of ids that do not
      play in this match, stay as they were.
    - The single-game tab does not start the match: beyond finishing a game
      that is still running, it only stores the number of rounds.
    - In the sandbox the lookup of an automatic player's id raises
      [KeyError]; the round is not recorded and the sandbox is reset. *)
Theorem absent_id_is_played
    (registry : gmap string StrategyMeta) (rounds_per_game : Z)
    (noise fp : float) (p1_id p2_id : string) (w : World) :
  registry_game_safe registry ->
  registry !! p1_id = None \/ registry !! p2_id = None ->
  (forall p, registry !! p = None ->
     func_or_dummy registry p = (fun _ _ _ _ => ret COOPERATE) /\
     name_or_id registry p = p) /\
  (exists g' w',
     play_match registry p1_id p2_id rounds_per_game noise fp (rng w)
     = (Ok (g', (score1 g', score2 g',
                 join (history1 g'), join (history2 g'))),
        rng w') /\
     PLAYER_STATS w'
     = update_player_stats registry (PLAYER_STATS w) p1_id p2_id
                           (score1 g') (score2 g') /\
     (forall q, registry !! q = None ->
                PLAYER_STATS w' !! q = PLAYER_STATS w !! q) /\
     (forall q, q <> p1_id -> q <> p2_id ->
                PLAYER_STATS w' !! q = PLAYER_STATS w !! q) /\
     (forall v, exists v',
        round_robin_match registry rounds_per_game noise fp v
                          (p1_id, p2_id) w = (Ok v', w') /\
        rr_matches v' = rr_matches v ++
          [mkMatchData "Tournament Round Robin" p1_id p2_id
             (score1 g') (score2 g')
             (join (history1 g')) (join (history2 g'))]) /\
     (forall rn v,
        p1_id ∈ dom (full_ranking_data v) ->
        p2_id ∈ dom (full_ranking_data v) ->
        exists v',
          elimination_match registry rounds_per_game noise fp rn v
                            (p1_id, p2_id) w = (Ok v', w') /\
          all_matches_data v' = all_matches_data v ++
            [mkMatchData "Tournament Elimination" p1_id p2_id
               (score1 g') (score2 g')
               (join (history1 g')) (join (history2 g'))]) /\
     (forall v, exists v',
        group_match registry rounds_per_game noise fp v
                    (p1_id, p2_id) w = (Ok v', w') /\
        group_matches v' = group_matches v ++
          [mkMatchData "Tournament Group Stage" p1_id p2_id
             (score1 g') (score2 g')
             (join (history1 g')) (join (history2 g'))]) /\
     (forall v next, exists v' winner,
        knockout_match registry rounds_per_game noise fp (v, next)
                       (p1_id, p2_id) w
        = (Ok (v', next ++ [winner]), w') /\
        group_matches v' = group_matches v ++
          [mkMatchData "Tournament Knockout" p1_id p2_id
             (score1 g') (score2 g')
             (join (history1 g')) (join (history2 g'))])) /\
  (forall s,
     start_single_game registry noise fp s p1_id p2_id rounds_per_game w
     = (s1 <- (if timer_active s then stop_single_game registry s
               else ret s) ;;
        ret (mkSingleGame (current_game s1) (single_game_round_counter s1)
                          rounds_per_game (timer_active s1))) w) /\
  (forall p choice my_history opponent_history round_num r,
     registry !! p = None ->
     sandbox_intended registry fp false choice p my_history opponent_history
                      round_num r
     = (Raise KeyError, r)) /\
  (forall s g r,
     sandbox_game s = Some g ->
     length (history1 g) = length (history2 g) ->
     sandbox_p1_combo s = p1_id -> sandbox_p2_combo s = p2_id ->
     sandbox_p1_manual s = false -> sandbox_p2_manual s = false ->
     exists r',
       sandbox_play_next_round registry noise fp s r
       = (Ok (sandbox_reset registry noise fp s), r')).
Proof.
  intros Hreg Habs. split; [|split; [|split; [|split]]].
  - intros p Hp. unfold func_or_dummy, name_or_id. rewrite Hp. auto.
  - destruct (play_match_returns registry p1_id p2_id rounds_per_game noise fp
                (rng w) Hreg) as (g' & s' & E & _).
    exists g', (mkWorld s' (update_player_stats registry (PLAYER_STATS w)
                              p1_id p2_id (score1 g') (score2 g'))).
    cbn [rng PLAYER_STATS].
    split; [exact E|]. split; [reflexivity|].
    split; [intros q Hq; now apply update_player_stats_absent|].
    split; [intros q Hq1 Hq2; now apply update_player_stats_other|].
    split; [intros v; now apply round_robin_match_played|].
    split.
    { intros rn v H1 H2.
      destruct (elimination_match_played registry rounds_per_game noise fp
                  p1_id p2_id w g' s' E rn v H1 H2)
        as (v' & win & Em & _ & _ & Hlog).
      exists v'. split; assumption. }
    split; [intros v; now apply group_match_played|].
    intros v next.
    destruct (knockout_match_played registry rounds_per_game noise fp
                p1_id p2_id w g' s' E v next)
      as (v' & win & Em & _ & Hlog).
    exists v', win. split; assumption.
  - intros s. now apply start_single_game_refused.
  - intros p choice my opp rn r Hp. unfold sandbox_intended. now rewrite Hp.
  - intros s g r Hg Hlen <- <- M1 M2.
    now apply (sandbox_round_absent registry noise fp s g r).
Qed.

Lemma absent_id_is_played_witness :
  exists g' v' w',
    elimination_match BUILT_IN_STRATEGIES_META 5 0%float 0%float 1
      (mkElimVars [] [] (<["ghost" := mkRank 0 0 Inf]>
                           (<["defect" := mkRank 0 0 Inf]> ∅)) [])
      ("ghost", "defect")%string world0 = (Ok v', w') /\
    all_matches_data v' =
      [mkMatchData "Tournament Elimination" "ghost" "defect"
                   (score1 g') (score2 g')
                   (join (history1 g')) (join (history2 g'))] /\
    PLAYER_STATS w' !! "ghost"%string = None.
Proof.
  destruct (absent_id_is_played BUILT_IN_STRATEGIES_META 5 0%float 0%float
              "ghost"%string "defect"%string world0 builtin_registry_safe)
    as (_ & (g' & w' & _ & _ & Habs & _ & _ & Hel & _) & _).
  - left. reflexivity.
  - destruct (Hel 1
                (mkElimVars [] [] (<["ghost" := mkRank 0 0 Inf]>
                                     (<["defect" := mkRank 0 0 Inf]> ∅)) []))
      as (v' & E & Hlog).
    + vm_compute. reflexivity.
    + vm_compute. reflexivity.
    + exists g', v', w'. split; [exact E|]. split; [exact Hlog|].
      rewrite Habs; reflexivity.
Defined.

(* ------------------------------------------------------------------------- *)
(** ** The group ranking in a tournament *)

(** A group match returns; it logs its result and adds the two scores to
    the group-stage table. *)
Lemma group_match_log reg rounds noise fp v p1 p2 w :
  registry_game_safe reg ->
  exists v' w' md,
    group_match reg rounds noise fp v (p1, p2) w = (Ok v', w') /\
    group_matches v' = group_matches v ++ [md] /\
    md_players md = (p1, p2) /\
    (forall x, score_of (group_stage_scores v') x
               = score_of (group_stage_scores v) x + logged_score x [md]).
Proof.
  intros Hreg.
  destruct (play_match_returns reg p1 p2 rounds noise fp (rng w) Hreg)
    as (g' & s' & E & _).
  eexists _, _, _. split; [|split; [|split]].
  - unfold group_match. cbv beta iota.
    erewrite bind_ok by (apply lift_rng_ok; exact E).
    cbn [snd]. cbv beta iota.
    erewrite bind_ok by reflexivity. reflexivity.
  - reflexivity.
  - reflexivity.
  - intros x. unfold score_of. cbn [group_stage_scores].
    rewrite !dd_add_get. unfold logged_score. simpl. lia.
Qed.

Lemma logged_score_app x l1 l2 :
  logged_score x (l1 ++ l2) = logged_score x l1 + logged_score x l2.
Proof. unfold logged_score. now rewrite map_app, sumZ_app. Qed.

Lemma for_each_group_log reg rounds noise fp : forall l v w,
  registry_game_safe reg ->
  exists v' w' lg,
    for_each (group_match reg rounds noise fp) l v w = (Ok v', w') /\
    group_matches v' = group_matches v ++ lg /\
    map md_players lg = l /\
    (forall x, score_of (group_stage_scores v') x
               = score_of (group_stage_scores v) x + logged_score x lg).
Proof.
  induction l as [|[a b] l IH]; intros v w Hreg.
  - exists v, w, []. simpl. rewrite app_nil_r.
    repeat split; try reflexivity. intros x. unfold logged_score. simpl. lia.
  - destruct (group_match_log reg rounds noise fp v a b w Hreg)
      as (v1 & w1 & md & E & Hlog & Hmd & Hsc).
    destruct (IH v1 w1 Hreg) as (v2 & w2 & lg & E2 & Hlog2 & Hp2 & Hsc2).
    exists v2, w2, (md :: lg). simpl for_each. erewrite bind_ok by exact E.
    split; [exact E2|]. split; [|split].
    + rewrite Hlog2, Hlog, <- app_assoc. reflexivity.
    + simpl. now rewrite Hmd, Hp2.
    + intros x. rewrite Hsc2, Hsc.
      change (md :: lg) with ([md] ++ lg). rewrite logged_score_app. lia.
Qed.

(** A player who is in no match of a log has no score in it. *)
Lemma logged_score_absent x (lg : list MatchData) :
  (forall a b, (a, b) ∈ map md_players lg -> a <> x /\ b <> x) ->
  logged_score x lg = 0.
Proof.
  unfold logged_score, sumZ.
  induction lg as [|md lg IH]; intros H; [reflexivity|].
  simpl. destruct (H (md_p1_id md) (md_p2_id md)) as [Ha Hb]; [left|].
  apply String.eqb_neq in Ha, Hb. rewrite Ha, Hb.
  rewrite IH; [reflexivity|]. intros c d Hcd. apply H. now right.
Qed.

Lemma logged_score_outside x group (lg : list MatchData) :
  map md_players lg = combinations2 group -> x ∉ group ->
  logged_score x lg = 0.
Proof.
  intros Hlg Hx. apply logged_score_absent. intros a b Hab.
  rewrite Hlg in Hab. apply combinations2_elem in Hab as [Ha Hb].
  split; congruence.
Qed.

(** The sort looks at the keys of the sorted elements only. *)
Lemma insert_sorted_ext {A} (b1 b2 : A -> A -> bool) x l :
  (forall y, y ∈ l -> b1 y x = b2 y x) ->
  insert_sorted b1 x l = insert_sorted b2 x l.
Proof.
  induction l as [|y l IH]; intros H; [reflexivity|].
  simpl. rewrite (H y) by left.
  destruct (b2 y x); [|reflexivity]. f_equal. apply IH.
  intros z Hz. apply H. now right.
Qed.

Lemma stable_sort_ext {A} (b1 b2 : A -> A -> bool) l :
  (forall x y, x ∈ l -> y ∈ l -> b1 y x = b2 y x) ->
  stable_sort b1 l = stable_sort b2 l.
Proof.
  induction l as [|x l IH]; intros H; [reflexivity|].
  simpl. rewrite IH by (intros a b Ha Hb; apply H; now right).
  apply insert_sorted_ext. intros y Hy. apply H; [left|].
  right. now rewrite stable_sort_perm in Hy.
Qed.

Lemma group_ranked_ext reg sc1 sc2 group :
  (forall x, x ∈ group -> score_of sc1 x = score_of sc2 x) ->
  group_ranked reg sc1 group = group_ranked reg sc2 group.
Proof.
  intros H. unfold group_ranked, sorted_by. apply stable_sort_ext.
  intros x y Hx Hy. unfold group_key.
  fold (score_of sc1 x) (score_of sc1 y) (score_of sc2 x) (score_of sc2 y).
  now rewrite (H x Hx), (H y Hy).
Qed.

Lemma group_qualifiers_take reg scores q group :
  1 <= q ->
  group_qualifiers reg scores q group
  = take (Z.to_nat q) (group_ranked reg scores group).
Proof.
  intros Hq. unfold group_qualifiers, slice_to.
  destruct (0 <=? q) eqn:E; [reflexivity|]. apply Z.leb_gt in E. lia.
Qed.

(** The group stage over groups of distinct players none of whom has a
    score yet: every group plays its round robin, the table holds for each
    player the score of the matches of the player's group, and each group
    sends the first [q] of its ranking by the final table. *)
Lemma group_stage_ranked reg rounds noise fp q :
  registry_game_safe reg -> 1 <= q ->
  forall groups v quals w,
  NoDup (concat groups) ->
  (forall x, x ∈ concat groups -> score_of (group_stage_scores v) x = 0) ->
  exists v' w' logs,
    for_each (group_stage_step reg rounds noise fp q) groups (v, quals) w
    = (Ok (v', quals ++
                concat (map (fun group =>
                               take (Z.to_nat q)
                                    (group_ranked reg (group_stage_scores v')
                                                  group))
                            groups)), w') /\
    group_matches v' = group_matches v ++ concat logs /\
    Forall2 (fun group lg =>
               map md_players lg = combinations2 group /\
               forall x, x ∈ group ->
                 score_of (group_stage_scores v') x = logged_score x lg)
            groups logs /\
    (forall x, x ∉ concat groups ->
       score_of (group_stage_scores v') x
       = score_of (group_stage_scores v) x).
Proof.
  intros Hreg Hq. induction groups as [|grp groups IH];
    intros v quals w Hnd Hzero.
  - exists v, w, []. simpl. rewrite !app_nil_r.
    repeat split; try reflexivity. constructor.
  - cbn [concat] in Hnd, Hzero. apply NoDup_app in Hnd as (Hnd1 & Hdisj & Hnd2).
    destruct (for_each_group_log reg rounds noise fp (combinations2 grp) v w
                Hreg) as (v1 & w1 & lg & E1 & Hlog1 & Hp1 & Hsc1).
    assert (forall x, x ∉ grp ->
              score_of (group_stage_scores v1) x
              = score_of (group_stage_scores v) x) as Hout.
    { intros x Hx. rewrite Hsc1, (logged_score_outside x grp lg Hp1 Hx). lia. }
    assert (for_each (group_stage_step reg rounds noise fp q) (grp :: groups)
              (v, quals) w
            = for_each (group_stage_step reg rounds noise fp q) groups
                (v1, quals ++ group_qualifiers reg (group_stage_scores v1)
                                               q grp) w1) as Hstep.
    { cbn [for_each]. destruct grp as [|p grp'] eqn:Eg.
      - cbn [group_stage_step]. rewrite bind_ret.
        simpl in E1. inversion E1; subst v1 w1.
        unfold group_qualifiers, group_ranked, slice_to, sorted_by. simpl.
        destruct (0 <=? q); simpl; rewrite ?take_nil, app_nil_r;
          reflexivity.
      - rewrite <- Eg in *.
        assert (group_stage_step reg rounds noise fp q (v, quals) grp w
                = (Ok (v1, quals ++ group_qualifiers reg
                                      (group_stage_scores v1) q grp), w1))
          as Hs.
        { rewrite Eg. cbn [group_stage_step]. rewrite <- Eg.
          unfold run_group. cbn [fst snd].
          erewrite bind_ok.
          2:{ erewrite bind_ok by exact E1. reflexivity. }
          reflexivity. }
        erewrite bind_ok by exact Hs. reflexivity. }
    destruct (IH v1 (quals ++ group_qualifiers reg (group_stage_scores v1)
                                               q grp) w1 Hnd2)
      as (v' & w' & logs & E & Hlog & Hall & Hrest).
    { intros x Hx. rewrite Hout; [apply Hzero, elem_of_app; now right|].
      intros Hg. exact (Hdisj x Hg Hx). }
    assert (forall x, x ∈ grp ->
              score_of (group_stage_scores v') x = logged_score x lg) as Hin.
    { intros x Hx. rewrite Hrest by (intros Hc; exact (Hdisj x Hx Hc)).
      rewrite Hsc1, Hzero by (apply elem_of_app; now left). lia. }
    exists v', w', (lg :: logs). rewrite Hstep, E. split; [|split; [|split]].
    + rewrite group_qualifiers_take by exact Hq.
      rewrite (group_ranked_ext reg (group_stage_scores v1)
                 (group_stage_scores v') grp).
      * cbn [map concat]. now rewrite <- app_assoc.
      * intros x Hx. rewrite Hin by exact Hx.
        rewrite Hsc1, Hzero by (apply elem_of_app; now left). lia.
    + rewrite Hlog, Hlog1. cbn [concat]. now rewrite app_assoc.
    + constructor; [split; assumption | exact Hall].
    + intros x Hx. apply not_elem_of_app in Hx as [Hx1 Hx2].
      rewrite Hrest by exact Hx2. now apply Hout.
Qed.

(** The knockout stage keeps the group-stage table and appends to the
    log. *)
Lemma knockout_match_log reg rounds noise fp v next p1 p2 w :
  registry_game_safe reg ->
  exists v' w' winner md,
    knockout_match reg rounds noise fp (v, next) (p1, p2) w
    = (Ok (v', next ++ [winner]), w') /\
    group_stage_scores v' = group_stage_scores v /\
    group_matches v' = group_matches v ++ [md].
Proof.
  intros Hreg.
  destruct (play_match_returns reg p1 p2 rounds noise fp (rng w) Hreg)
    as (g' & s' & E & _).
  eexists _, _, _, _. split; [|split].
  - unfold knockout_match. cbv beta iota.
    erewrite bind_ok by (apply lift_rng_ok; exact E).
    cbn [snd fst]. cbv beta iota.
    erewrite bind_ok by reflexivity. reflexivity.
  - reflexivity.
  - reflexivity.
Qed.

Lemma for_each_knockout_log reg rounds noise fp : forall l v next w,
  registry_game_safe reg ->
  exists v' w' winners lg,
    for_each (knockout_match reg rounds noise fp) l (v, next) w
    = (Ok (v', next ++ winners), w') /\
    group_stage_scores v' = group_stage_scores v /\
    group_matches v' = group_matches v ++ lg.
Proof.
  induction l as [|[a b] l IH]; intros v next w Hreg.
  - exists v, w, [], []. simpl. rewrite !app_nil_r. auto.
  - destruct (knockout_match_log reg rounds noise fp v next a b w Hreg)
      as (v1 & w1 & win & md & E & Hs & Hlog).
    destruct (IH v1 (next ++ [win]) w1 Hreg)
      as (v2 & w2 & wins & lg & E2 & Hs2 & Hlog2).
    exists v2, w2, (win :: wins), (md :: lg). simpl for_each.
    erewrite bind_ok by exact E. rewrite <- app_assoc in E2.
    split; [exact E2|]. split; [congruence|].
    rewrite Hlog2, Hlog, <- app_assoc. reflexivity.
Qed.

Lemma knockout_round_log reg rounds noise fp s w :
  registry_game_safe reg ->
  exists s' w' lg,
    knockout_round reg rounds noise fp s w = (Ok s', w') /\
    group_stage_scores (ko_vars s') = group_stage_scores (ko_vars s) /\
    group_matches (ko_vars s') = group_matches (ko_vars s) ++ lg.
Proof.
  intros Hreg. unfold knockout_round.
  destruct (if negb (length (ko_participants s) mod 2 =? 0)%nat
            then match ko_participants s with
                 | bye_player :: rest => ([bye_player], rest)
                 | [] => ([], [])
                 end
            else ([], ko_participants s)) as [next0 cur'].
  destruct (for_each_knockout_log reg rounds noise fp
              (consecutive_pairs cur') (ko_vars s) next0 w Hreg)
    as (v' & w' & wins & lg & E & Hs & Hlog).
  eexists _, w', lg. split; [erewrite bind_ok by exact E; reflexivity|].
  cbn [ko_vars fst]. auto.
Qed.

Lemma knockout_loop_log reg rounds noise fp : forall fuel s w s' w',
  registry_game_safe reg ->
  knockout_loop reg rounds noise fp fuel s w = (Ok s', w') ->
  group_stage_scores (ko_vars s') = group_stage_scores (ko_vars s) /\
  exists lg, group_matches (ko_vars s') = group_matches (ko_vars s) ++ lg.
Proof.
  induction fuel as [|fuel IH]; intros s w s' w' Hreg E.
  - simpl in E.
    destruct (length (ko_participants s) <=? 1)%nat; [|discriminate E].
    inversion E; subst. split; [reflexivity|]. exists []. now rewrite app_nil_r.
  - simpl in E.
    destruct (length (ko_participants s) <=? 1)%nat.
    + inversion E; subst. split; [reflexivity|]. exists [].
      now rewrite app_nil_r.
    + destruct (knockout_round_log reg rounds noise fp s w Hreg)
        as (s1 & w1 & lg1 & E1 & Hs1 & Hlog1).
      erewrite bind_ok in E by exact E1.
      destruct (IH s1 w1 s' w' Hreg E) as (Hs2 & lg2 & Hlog2).
      split; [congruence|]. exists (lg1 ++ lg2).
      rewrite Hlog2, Hlog1, <- app_assoc. reflexivity.
Qed.

(** C5, as the code has it.  A Group Stage + Knockout tournament of
    distinct participants, with settings that pass the checks.  The run
    returns; the match log begins with the round robin of every group, in
    the order of the groups; the group-stage table holds for every player
    the sum of the scores of the matches of the player's group.  Every
    group is ranked by this table: the ranking is a reordering of the group
    in which every participant ranks before all those after it, by a higher
    in-group score, or by the same score and a display name that is
    greater or equal in lexicographic order (descending by name, since the
    whole sort is reversed).  The first [num_qualifiers] of each ranking,
    group after group, are the qualifiers that enter the knockout stage
    (sorted by display name when seeding is on). *)
Theorem group_ranking_descending
    (registry : gmap string StrategyMeta) (rounds_per_game : Z)
    (noise fp : float) (participants : list string) (use_seeding : bool)
    (num_groups num_qualifiers : Z) (w : World) :
  registry_game_safe registry ->
  1 <= num_qualifiers ->
  2 <= num_qualifiers * num_groups ->
  2 * num_groups <= Z.of_nat (length participants) ->
  NoDup participants ->
  exists r w' logs knockout_log,
    run_tournament_group_knockout registry rounds_per_game noise fp
      participants use_seeding num_groups num_qualifiers w
    = (Ok (GKFinished r), w') /\
    concat (gk_groups r) ≡ₚ participants /\
    group_matches (gk_vars r) = concat logs ++ knockout_log /\
    Forall2 (fun group log =>
               map md_players log = combinations2 group /\
               forall x, x ∈ group ->
                 score_of (group_stage_scores (gk_vars r)) x
                 = logged_score x log)
            (gk_groups r) logs /\
    (forall group, group ∈ gk_groups r ->
       group_ranked registry (group_stage_scores (gk_vars r)) group
       ≡ₚ group /\
       StronglySorted
         (ranks_before registry (group_stage_scores (gk_vars r)))
         (group_ranked registry (group_stage_scores (gk_vars r)) group)) /\
    gk_qualifiers r
    = (fun qualifiers =>
         if use_seeding
         then sorted_by String.ltb (seeding_key registry) false qualifiers
         else qualifiers)
        (concat (map (fun group =>
                        take (Z.to_nat num_qualifiers)
                             (group_ranked registry
                                (group_stage_scores (gk_vars r)) group))
                     (gk_groups r))).
Proof.
  intros Hreg Hq Hqg Hn Hnd.
  assert (1 <= num_groups) as Hg by nia.
  unfold run_tournament_group_knockout.
  destruct (length participants <? 2)%nat eqn:C1;
    [apply Nat.ltb_lt in C1; lia|].
  destruct (Z.of_nat (length participants) <? num_groups * 2) eqn:C2;
    [apply Z.ltb_lt in C2; lia|].
  destruct (num_qualifiers * num_groups <? 2) eqn:C3;
    [apply Z.ltb_lt in C3; lia|].
  destruct (num_qualifiers <? 1) eqn:C4; [apply Z.ltb_lt in C4; lia|].
  set (ps := if use_seeding
             then sorted_by String.ltb (seeding_key registry) false participants
             else participants).
  assert (Hperm : ps ≡ₚ participants).
  { unfold ps. destruct use_seeding; [apply sorted_by_perm | reflexivity]. }
  destruct (random_shuffle_perm ps (rng w)) as (shuffled & Es & Hsh).
  erewrite bind_ok by (apply lift_rng_ok; exact Es).
  destruct (distribute_balanced num_groups shuffled Hg) as (GL & GC & GF).
  set (groups := distribute num_groups shuffled) in *.
  assert (concat groups ≡ₚ participants) as Hparts
    by now rewrite GC, Hsh, Hperm.
  destruct (group_stage_ranked registry rounds_per_game noise fp
              num_qualifiers Hreg Hq groups (mkGroupVars ∅ ∅ ∅ ∅ []) []
              (mkWorld (mkRng (tape (rng w)) (pos (rng w) + (length ps - 1)))
                       (PLAYER_STATS w)))
    as (v & w1 & logs & Eg & Hlog & Hall & _).
  { now rewrite Hparts. }
  { intros x _. unfold score_of. cbn [group_stage_scores].
    now rewrite lookup_empty. }
  erewrite bind_ok by exact Eg. cbn [fst snd app group_matches] in *.
  set (quals := concat (map (fun group =>
                               take (Z.to_nat num_qualifiers)
                                    (group_ranked registry
                                       (group_stage_scores v) group))
                            groups)) in *.
  assert (forall group, group ∈ groups ->
            group_ranked registry (group_stage_scores v) group ≡ₚ group /\
            StronglySorted (ranks_before registry (group_stage_scores v))
              (group_ranked registry (group_stage_scores v) group))
    as Hranked.
  { intros group _. split; [apply sorted_by_perm | apply group_ranked_sorted]. }
  destruct (length quals <? 2)%nat eqn:C5.
  - exfalso. apply Nat.ltb_lt in C5.
    assert (2 <= length quals)%nat; [|lia].
    assert (length quals
            = sum_list_with (fun grp => Nat.min (Z.to_nat num_qualifiers)
                                                (length grp)) groups) as ->.
    { unfold quals. clear. induction groups as [|grp groups IH];
        [reflexivity|].
      cbn [map concat sum_list_with]. rewrite length_app, IH, length_take.
      unfold group_ranked.
      now rewrite (Permutation_length (sorted_by_perm _ _ _ _)). }
    apply (enough_qualifiers groups num_groups num_qualifiers
             (length participants)); try assumption.
    assert (length shuffled = length participants) as Hlen
      by now rewrite Hsh, Hperm.
    rewrite <- Hlen. eapply Forall_impl; [exact GF|]. simpl. lia.
  - set (qs := if use_seeding
               then sorted_by String.ltb (seeding_key registry) false quals
               else quals).
    assert (Hqperm : qs ≡ₚ quals).
    { unfold qs. destruct use_seeding; [apply sorted_by_perm | reflexivity]. }
    apply Nat.ltb_ge in C5.
    destruct (knockout_loop_returns registry rounds_per_game noise fp
                (length qs)
                {| ko_participants := qs; ko_round_num := 1; ko_vars := v;
                   ko_status_log := [] |} w1 Hreg)
      as (s & w2 & Ek & _).
    { cbn [ko_participants]. rewrite Hqperm. lia. }
    destruct (knockout_loop_log registry rounds_per_game noise fp _ _ _ _ _
                Hreg Ek) as (Hsame & kolog & Hkolog).
    cbn [ko_vars] in Hsame, Hkolog.
    erewrite bind_ok by exact Ek.
    eexists _, w2, logs, kolog. split; [reflexivity|].
    cbn [gk_groups gk_qualifiers gk_vars]. rewrite Hsame.
    split; [exact Hparts|]. split; [now rewrite Hkolog, Hlog|].
    split; [exact Hall|]. split; [exact Hranked | reflexivity].
Qed.

Lemma group_ranking_descending_witness :
  exists r w' logs knockout_log,
    run_tournament_group_knockout BUILT_IN_STRATEGIES_META 10 0%float 0%float
      ["cooperate"; "defect"; "tit_for_tat"; "grudger"]%string false 2 1 world0
    = (Ok (GKFinished r), w') /\
    group_matches (gk_vars r) = concat logs ++ knockout_log /\
    gk_qualifiers r
    = concat (map (fun group =>
                     take 1 (group_ranked BUILT_IN_STRATEGIES_META
                               (group_stage_scores (gk_vars r)) group))
                  (gk_groups r)).
Proof.
  destruct (group_ranking_descending BUILT_IN_STRATEGIES_META 10
              0%float 0%float
              ["cooperate"; "defect"; "tit_for_tat"; "grudger"]%string
              false 2 1 world0 builtin_registry_safe)
    as (r & w' & logs & kolog & E & _ & Hlog & _ & _ & Hq).
  - lia.
  - lia.
  - simpl. lia.
  - apply (bool_decide_unpack _). vm_compute. exact I.
  - exists r, w', logs, kolog. split; [exact E|]. split; [exact Hlog|].
    exact Hq.
Defined.
